(** * OpenMDAO derivative-approximation core: a shallow embedding

    The development follows the Python sources:
    - [openmdao/utils/array_utils.py]        (module [ArrayUtils])
    - [openmdao/jacobians/jacobian.py]       (module [Jac])
    - [openmdao/approximation_schemes/approximation_scheme.py]
                                             (module [Approx])
    - [openmdao/vectors/petsc_vector.py]     (module [Petsc])
    - the coloring lifecycle, of which only the tests are available
                                             (module [Coloring])
    - more of [openmdao/utils/array_utils.py] (module [ArrayUtils2])
    - [openmdao/core/tests/test_partial_color.py]
                                             (module [PartialColorTest]).

    Python exceptions are values of [exn]; a call that may raise returns a
    [result].  Numbers held in arrays are exact ([Z] or [Q]): rounding of
    machine floats is outside the model. *)

From Stdlib Require Import ZArith QArith Reals Lia Lra Lqa.
From stdpp Require Import gmap strings list sorting pretty.

(** ** Exceptions and results *)

Inductive exn : Type :=
| KeyError
| ValueError
| IndexError
| TypeError
| ZeroDivisionError
| UnboundLocalError
| AnalysisError (msg : string).

Inductive result (A : Type) : Type :=
| Ok (a : A)
| Raise (e : exn).
Arguments Ok {A} a.
Arguments Raise {A} e.

Definition rbind {A B} (r : result A) (k : A → result B) : result B :=
  match r with
  | Ok a => k a
  | Raise e => Raise e
  end.

Definition sumZ (l : list Z) : Z := foldr Z.add 0%Z l.

(** ** openmdao/utils/array_utils.py *)

Module ArrayUtils.

(** [np.cumsum] on a 1-D integer array. *)
Fixpoint cumsum_from (acc : Z) (l : list Z) : list Z :=
  match l with
  | [] => []
  | x :: l' => (acc + x)%Z :: cumsum_from (acc + x)%Z l'
  end.

Definition cumsum (l : list Z) : list Z := cumsum_from 0%Z l.

(** [evenly_distrib_idxs(num_divisions, arr_size)].  [divmod] by zero raises
    [ZeroDivisionError]; [np.full] with a negative length raises
    [ValueError]. *)
Definition evenly_distrib_idxs (num_divisions arr_size : Z)
  : result (list Z * list Z) :=
  if (num_divisions =? 0)%Z then Raise ZeroDivisionError
  else
    let base := (arr_size `div` num_divisions)%Z in
    let leftover := (arr_size `mod` num_divisions)%Z in
    if (num_divisions <? 0)%Z then Raise ValueError
    else
      let n := Z.to_nat num_divisions in
      (* sizes = np.full(num_divisions, base) *)
      let sizes := replicate n base in
      (* sizes[:leftover] += 1 *)
      let sizes := ((λ x, x + 1)%Z <$> take (Z.to_nat leftover) sizes)
                     ++ drop (Z.to_nat leftover) sizes in
      (* offsets = np.zeros(num_divisions) *)
      let offsets := replicate n 0%Z in
      (* offsets[1:] = np.cumsum(sizes)[:-1] *)
      let offsets := take 1 offsets ++ removelast (cumsum sizes) in
      Ok (sizes, offsets).

(** [ValueRepeater]: a fake sequence repeating [val] [size] times. *)
Record ValueRepeater (A : Type) : Type :=
  { val : A; size : Z }.
Arguments val {A} _.
Arguments size {A} _.

(** [ValueRepeater.__getitem__(idx)]. *)
Definition __getitem__ {A} (self : ValueRepeater A) (idx : Z) : result A :=
  let idx := if (idx <? 0)%Z then (idx + size self)%Z else idx in
  if (idx >=? size self)%Z then Raise IndexError
  else Ok (val self).

(** [ValueRepeater.__iter__]: the values it yields. *)
Definition __iter__ {A} (self : ValueRepeater A) : list A :=
  (λ _, val self) <$> seq 0 (Z.to_nat (size self)).

(** [ValueRepeater.__len__] *)
Definition __len__ {A} (self : ValueRepeater A) : Z := size self.

(** [ValueRepeater.__contains__] *)
Definition __contains__ {A} `{EqDecision A} (self : ValueRepeater A) (item : A) : bool :=
  bool_decide (item = val self).

End ArrayUtils.

(** ** openmdao/jacobians/jacobian.py *)

Global Instance result_bind : MBind result := λ A B k r, rbind r k.
Global Instance result_ret : MRet result := λ A a, Ok a.

Definition of_option {A} (e : exn) (o : option A) : result A :=
  match o with
  | Some a => Ok a
  | None => Raise e
  end.

(** [for x in l: s = f(s, x)], stopping at the first exception. *)
Fixpoint for_each {S X} (f : S → X → result S) (s : S) (l : list X) : result S :=
  match l with
  | [] => Ok s
  | x :: l' => s' ← f s x; for_each f s' l'
  end.

(** *** numpy arrays

    An array is its shape and its entries in row-major order.  Only the
    operations used by the modelled code are given. *)

Record ndarray : Type := NdArray { shape : list nat; data : list Q }.

Definition size_of (s : list nat) : nat := foldr Nat.mul 1 s.

Definition wf_ndarray (a : ndarray) : Prop := length (data a) = size_of (shape a).

(** [np.zeros(shape)] *)
Definition np_zeros (s : list nat) : ndarray := NdArray s (replicate (size_of s) 0%Q).

(** [a.reshape(s)]: the entries stay, the sizes must agree. *)
Definition reshape (a : ndarray) (s : list nat) : result ndarray :=
  if size_of s =? length (data a) then Ok (NdArray s (data a))
  else Raise ValueError.

(** [a[start:stop]] on a 1-D array, for non-negative bounds. *)
Definition slice {A} (start stop : nat) (l : list A) : list A :=
  take (stop - start) (drop start l).

(** [n] consecutive pieces of [sz] entries. *)
Fixpoint chunks {A} (n sz : nat) (l : list A) : list (list A) :=
  match n with
  | 0 => []
  | S n' => take sz l :: chunks n' sz (drop sz l)
  end.

(** Broadcasting of a source of shape [sshape] to the shape [dshape], as
    numpy does for [dst[:] = src]: shapes are aligned at their last axis, a
    source axis of length 1 is repeated, a missing source axis is repeated. *)
Fixpoint broadcast (dshape sshape : list nat) (sdata : list Q) {struct dshape}
  : option (list Q) :=
  match dshape with
  | [] => match sshape with
          | [] => Some sdata
          | _ => None
          end
  | d :: dshape' =>
      if length sshape <? length dshape then
        r ← broadcast dshape' sshape sdata; Some (concat (replicate d r))
      else
        match sshape with
        | [] => None
        | s :: sshape' =>
            if s =? d then
              rs ← mapM (broadcast dshape' sshape') (chunks s (size_of sshape') sdata);
              Some (concat rs)
            else if s =? 1 then
              r ← broadcast dshape' sshape' sdata; Some (concat (replicate d r))
            else None
        end
  end.

(** numpy ignores leading axes of length 1 of a source that has more axes
    than the destination. *)
Fixpoint strip_leading (n : nat) (s : list nat) : option (list nat) :=
  match n with
  | 0 => Some s
  | S n' => match s with
            | 1 :: s' => strip_leading n' s'
            | _ => None
            end
  end.

(** [dst[:] = src] for arrays; a shape that cannot be broadcast raises
    [ValueError]. *)
Definition assign_all (dst src : ndarray) : result ndarray :=
  match strip_leading (length (shape src) - length (shape dst)) (shape src) with
  | None => Raise ValueError
  | Some s =>
      match broadcast (shape dst) s (data src) with
      | None => Raise ValueError
      | Some d => Ok (NdArray (shape dst) d)
      end
  end.

(** [src[idx]] with an integer index array. *)
Definition gather {A} (src : list A) (idx : list nat) : result (list A) :=
  of_option IndexError (mapM (λ i, src !! i) idx).

(** [dst[idx] = vals] with an integer index array and as many values. *)
Definition scatter {A} (dst : list A) (idx : list nat) (vals : list A)
  : result (list A) :=
  if forallb (λ i, i <? length dst) idx
  then Ok (foldl (λ acc iv, <[iv.1 := iv.2]> acc) dst (zip idx vals))
  else Raise IndexError.

(** [a[:, j] = src] on a 2-D array; [src] is 1-D and has one entry per row,
    or a single entry that is repeated. *)
Definition set_column (a : ndarray) (j : nat) (src : list Q) : result ndarray :=
  match shape a with
  | [R; C] =>
      if negb (j <? C) then Raise IndexError
      else if (length src =? R) || (length src =? 1) then
        Ok (NdArray [R; C]
              (imap (λ k x, if k mod C =? j
                            then default x (src !! (if length src =? 1 then 0 else k / C))
                            else x) (data a)))
      else Raise ValueError
  | _ => Raise IndexError
  end.

(** [r[rows, cols] = vals] on a 2-D array. *)
Definition set_coords (a : ndarray) (rows cols : list nat) (vals : list Q)
  : result ndarray :=
  match shape a with
  | [R; C] =>
      if negb (length rows =? length cols) then Raise IndexError
      else if forallb (λ i, i <? R) rows && forallb (λ j, j <? C) cols then
        d ← scatter (data a) (zip_with (λ i j, i * C + j) rows cols) vals;
        Ok (NdArray [R; C] d)
      else Raise IndexError
  | _ => Raise IndexError
  end.

(** A scipy sparse matrix: its shape, the coordinates of the stored entries
    and the stored entries ([.data]). *)
Record spmatrix : Type :=
  SpMatrix { sp_shape : nat * nat; sp_coords : list (nat * nat); sp_data : list Q }.

(** The values a sub-Jacobian slot or a [__setitem__] argument can hold. *)
Inductive pyval : Type :=
| PyNone
| PyScalar (q : Q)
| PyArray (a : ndarray)
| PySparse (m : spmatrix).

Definition issparse (v : pyval) : bool :=
  match v with
  | PySparse _ => true
  | _ => false
  end.

(** The array a value is when numpy converts it; [None] is not a number. *)
Definition as_array (v : pyval) : result ndarray :=
  match v with
  | PyScalar q => Ok (NdArray [] [q])
  | PyArray a => Ok a
  | PyNone | PySparse _ => Raise TypeError
  end.

(** [np.atleast_2d] *)
Definition atleast_2d (a : ndarray) : ndarray :=
  match shape a with
  | [] => NdArray [1; 1] (data a)
  | [n] => NdArray [1; n] (data a)
  | _ => a
  end.

(** [a[r0:r1, c0:c1]] on a 2-D array, for bounds that are not negative; a
    bound beyond the array is clipped. *)
Definition slice2d (a : ndarray) (r0 r1 c0 c1 : nat) : result ndarray :=
  match shape a with
  | [R; C] =>
      let rws := slice r0 r1 (chunks R C (data a)) in
      Ok (NdArray [length rws; Nat.min (c1 - c0) (C - c0)]
            (concat (slice c0 c1 <$> rws)))
  | _ => Raise IndexError
  end.

(** [a[rows, cols]] on a 2-D array with two 1-D index arrays: they have
    the same length, or one of them has a single entry, which is repeated. *)
Definition gather2d (a : ndarray) (rows cols : list nat) : result (list Q) :=
  match shape a with
  | [R; C] =>
      idx ← (if length rows =? length cols then Ok (zip rows cols)
             else if length rows =? 1
             then Ok (zip (replicate (length cols) (default 0 (rows !! 0))) cols)
             else if length cols =? 1
             then Ok (zip rows (replicate (length rows) (default 0 (cols !! 0))))
             else Raise IndexError);
      if forallb (λ rc : nat * nat, (rc.1 <? R) && (rc.2 <? C)) idx
      then gather (data a) ((λ rc : nat * nat, rc.1 * C + rc.2) <$> idx)
      else Raise IndexError
  | _ => Raise IndexError
  end.

Module Jac.

(** A key is an (of, wrt) name pair. *)
Abbreviation key := (string * string)%type.

(** Metadata of one sub-Jacobian (a Python dict; the ['sparsity'] entry is
    present only after a coloring was computed). *)
Record subjac_meta : Type := SubjacMeta {
  rows : option (list nat);
  cols : option (list nat);
  val : pyval;
  dependent : bool;
  sparsity : option (list nat * list nat * (nat * nat));
}.

Definition SUBJAC_META_DEFAULTS : subjac_meta :=
  {| rows := None; cols := None; val := PyNone; dependent := false;
     sparsity := None |}.

Definition set_val (m : subjac_meta) (v : pyval) : subjac_meta :=
  {| rows := rows m; cols := cols m; val := v; dependent := dependent m;
     sparsity := sparsity m |}.

(** What the Jacobian reads from its owning system: the name resolver, the
    variable sizes of [_var_allprocs_abs2meta], and the row and column
    blocks yielded by [_jac_of_iter] and [_jac_wrt_iter] as
    (name, start, end). *)
Record System : Type := {
  any2abs_key : key → option key;
  abs2meta_input : gmap string nat;
  abs2meta_output : gmap string nat;
  _jac_of_iter : list (string * nat * nat);
  _jac_wrt_iter : list (string * nat * nat);
}.

Record Jacobian : Type := {
  _subjacs_info : gmap key subjac_meta;
  _abs_keys : gmap key key;
  _col_var_offset : list (string * nat);
  _col_varnames : option (list string);
  _col2name_ind : list nat;
}.

Definition with_subjacs_info (self : Jacobian) (info : gmap key subjac_meta)
  : Jacobian :=
  {| _subjacs_info := info; _abs_keys := _abs_keys self;
     _col_var_offset := _col_var_offset self;
     _col_varnames := _col_varnames self;
     _col2name_ind := _col2name_ind self |}.

Definition with_abs_keys (self : Jacobian) (c : gmap key key) : Jacobian :=
  {| _subjacs_info := _subjacs_info self; _abs_keys := c;
     _col_var_offset := _col_var_offset self;
     _col_varnames := _col_varnames self;
     _col2name_ind := _col2name_ind self |}.

(** [Jacobian.__init__] *)
Definition __init__ (subjacs_info : gmap key subjac_meta) : Jacobian :=
  {| _subjacs_info := subjacs_info; _abs_keys := ∅; _col_var_offset := [];
     _col_varnames := None; _col2name_ind := [] |}.

(** [_get_abs_key]: the cache is consulted first and filled on a miss that
    resolves. *)
Definition _get_abs_key (system : System) (self : Jacobian) (k : key)
  : option key * Jacobian :=
  match _abs_keys self !! k with
  | Some abskey => (Some abskey, self)
  | None =>
      match any2abs_key system k with
      | Some abskey => (Some abskey, with_abs_keys self (<[k := abskey]> (_abs_keys self)))
      | None => (None, self)
      end
  end.

(** [_abs_key2shape] *)
Definition _abs_key2shape (system : System) (abs_key : key) : result (nat * nat) :=
  let '(of_, wrt) := abs_key in
  sz ← match abs2meta_input system !! wrt with
       | Some sz => Ok sz
       | None => of_option KeyError (abs2meta_output system !! wrt)
       end;
  osz ← of_option KeyError (abs2meta_output system !! of_);
  Ok (osz, sz).

(** [__contains__] *)
Definition __contains__ (system : System) (self : Jacobian) (k : key)
  : bool * Jacobian :=
  let '(abs_key, self) := _get_abs_key system self k in
  (match abs_key with
   | Some ak => bool_decide (is_Some (_subjacs_info self !! ak))
   | None => false
   end, self).

(** [__getitem__]: a key that does not resolve, or resolves to a pair that
    is not in [_subjacs_info], raises [KeyError]. *)
Definition __getitem__ (system : System) (self : Jacobian) (k : key)
  : result pyval * Jacobian :=
  let '(abs_key, self) := _get_abs_key system self k in
  (match abs_key with
   | None => Raise KeyError
   | Some ak =>
       match _subjacs_info self !! ak with
       | None => Raise KeyError
       | Some meta => Ok (val meta)
       end
   end, self).

(** The value stored by [__setitem__] for a declared sub-Jacobian [meta]. *)
Definition setitem_value (system : System) (abs_key : key) (meta : subjac_meta)
    (subjac : pyval) : result pyval :=
  if issparse subjac then Ok subjac
  else
    match rows meta with
    | None =>
        (* Dense subjac *)
        a ← as_array subjac;
        let a := atleast_2d a in
        a ← (if bool_decide (shape a = [1; 1]) then Ok a
             else
               shp ← _abs_key2shape system abs_key;
               reshape a [shp.1; shp.2]);
        dst ← as_array (val meta);
        r ← assign_all dst a;
        Ok (PyArray r)
    | Some _ =>
        a ← as_array subjac;
        dst ← as_array (val meta);
        r ← assign_all dst a;
        Ok (PyArray r)
    end.

(** [__setitem__] *)
Definition __setitem__ (system : System) (self : Jacobian) (k : key)
    (subjac : pyval) : result unit * Jacobian :=
  let '(abs_key, self) := _get_abs_key system self k in
  match abs_key with
  | None => (Raise KeyError, self)
  | Some ak =>
      (* You can only set declared subjacobians. *)
      match _subjacs_info self !! ak with
      | None => (Raise KeyError, self)
      | Some meta =>
          match setitem_value system ak meta subjac with
          | Raise e => (Raise e, self)
          | Ok v =>
              (Ok (), with_subjacs_info self
                        (<[ak := set_val meta v]> (_subjacs_info self)))
          end
      end
  end.

(** A Python dict with string keys in insertion order: assigning to a key
    that is present keeps its place. *)
Fixpoint dict_set {V} (k : string) (v : V) (d : list (string * V))
  : list (string * V) :=
  match d with
  | [] => [(k, v)]
  | (k', v') :: d' =>
      if decide (k = k') then (k, v) :: d' else (k', v') :: dict_set k v d'
  end.

Fixpoint dict_get {V} (k : string) (d : list (string * V)) : option V :=
  match d with
  | [] => None
  | (k', v') :: d' => if decide (k = k') then Some v' else dict_get k d'
  end.

(** [a[start:stop] = i] on a 1-D array. *)
Definition slice_fill {A} (start stop : nat) (i : A) (a : list A) : list A :=
  imap (λ k x, if (start <=? k) && (k <? stop) then i else x) a.

(** [_setup_index_maps].  With no column block at all the name [end] is
    unbound when [np.empty(end)] is reached.  [np.empty] is taken to hold
    zeros. *)
Definition _setup_index_maps (system : System) (self : Jacobian) : result Jacobian :=
  let col_var_offset :=
    foldl (λ d blk, dict_set blk.1.1 blk.1.2 d) [] (_jac_wrt_iter system) in
  let col_var_info := (λ blk, blk.2) <$> _jac_wrt_iter system in
  match last col_var_info with
  | None => Raise UnboundLocalError
  | Some end_ =>
      let col_varnames := col_var_offset.*1 in
      let col2name_ind := replicate end_ 0 in
      let filled :=
        foldl (λ st ie, (slice_fill st.2 ie.2 ie.1 st.1, ie.2))
              (col2name_ind, 0) (imap pair col_var_info) in
      Ok {| _subjacs_info := _subjacs_info self; _abs_keys := _abs_keys self;
            _col_var_offset := col_var_offset;
            _col_varnames := Some col_varnames;
            _col2name_ind := filled.1 |}
  end.

(** [np.nonzero(cols == loc_idx)[0]] *)
Definition match_inds (cols : list nat) (loc_idx : nat) : list nat :=
  filter (λ k, cols !! k = Some loc_idx) (seq 0 (length cols)).

(** The body of the loop of [set_col] for one row block (of, start, end). *)
Definition set_col_block (wrt : string) (loc_idx : nat) (column : list Q)
    (info : gmap key subjac_meta) (blk : string * nat * nat)
  : result (gmap key subjac_meta) :=
  let '(of_, start, end_) := blk in
  match info !! (of_, wrt) with
  | None => Ok info
  | Some subjac =>
      match cols subjac with
      | None =>
          (* dense *)
          a ← as_array (val subjac);
          a' ← set_column a loc_idx (slice start end_ column);
          Ok (<[(of_, wrt) := set_val subjac (PyArray a')]> info)
      | Some cs =>
          (* our COO format *)
          let mi := match_inds cs loc_idx in
          if 0 <? length mi then
            rs ← of_option TypeError (rows subjac);
            ri ← gather rs mi;
            vs ← gather (slice start end_ column) ri;
            a ← as_array (val subjac);
            match shape a with
            | [n] =>
                d ← scatter (data a) mi vs;
                Ok (<[(of_, wrt) := set_val subjac (PyArray (NdArray [n] d))]> info)
            | _ => Raise ValueError
            end
          else Ok info
      end
  end.

(** [set_col(system, icol, column)].  [icol] is a column of the Jacobian,
    so the offset of its variable is at most [icol]. *)
Definition set_col (system : System) (self : Jacobian) (icol : nat)
    (column : list Q) : result Jacobian :=
  self ← match _col_varnames self with
         | None => _setup_index_maps system self
         | Some _ => Ok self
         end;
  names ← of_option TypeError (_col_varnames self);
  ni ← of_option IndexError (_col2name_ind self !! icol);
  wrt ← of_option IndexError (names !! ni);
  off ← of_option KeyError (dict_get wrt (_col_var_offset self));
  let loc_idx := icol - off in
  info ← for_each (set_col_block wrt loc_idx column) (_subjacs_info self)
                  (_jac_of_iter system);
  Ok (with_subjacs_info self info).

(** The random generator [coloring_randgen]: the sequence of numbers it
    draws and how many were drawn so far.  [random(n)] returns the next [n]
    numbers. *)
Record randgen : Type := { draws : nat → Q; pos : nat }.

Definition random (n : nat) (g : randgen) : list Q * randgen :=
  (draws g <$> seq (pos g) n, {| draws := draws g; pos := pos g + n |}).

Definition add_one (l : list Q) : list Q := (λ x, x + 1)%Q <$> l.

(** [_randomize_subjac(subjac, key)] *)
Definition _randomize_subjac (self : Jacobian) (rg : randgen) (subjac : pyval)
    (k : key) : result pyval * randgen :=
  match subjac with
  | PySparse m =>
      (* sparse *)
      let '(d, rg) := random (length (sp_data m)) rg in
      (Ok (PySparse (SpMatrix (sp_shape m) (sp_coords m) (add_one d))), rg)
  | _ =>
      match _subjacs_info self !! k with
      | None => (Raise KeyError, rg)
      | Some subjac_info =>
          match sparsity subjac_info with
          | Some (rows, cols, shp) =>
              let r := np_zeros [shp.1; shp.2] in
              let '(v, rg) := random (length rows) rg in
              (a ← set_coords r rows cols (add_one v); Ok (PyArray a), rg)
          | None =>
              match subjac with
              | PyArray a =>
                  let '(d, rg) := random (size_of (shape a)) rg in
                  (Ok (PyArray (NdArray (shape a) (add_one d))), rg)
              | _ => (Raise TypeError, rg)
              end
          end
      end
  end.

(** [get_metadata(key)] *)
Definition get_metadata (system : System) (self : Jacobian) (k : key)
  : result subjac_meta * Jacobian :=
  let '(abs_key, self) := _get_abs_key system self k in
  (match abs_key with
   | None => Raise KeyError
   | Some ak => of_option KeyError (_subjacs_info self !! ak)
   end, self).

(** The body of the loops of [set_dense_jac] for the row block
    (of, start, end) and the column block (wrt, wstart, wend).  The metadata
    returned by [get_metadata] is the entry of [_subjacs_info] at the absolute
    key, and the assignments change its value in place.  A dense value is a
    2-D array; a value that is not an array is taken to raise [TypeError], as
    in [set_col]. *)
Definition set_dense_jac_block (system : System) (jac : ndarray)
    (ofblk : string * nat * nat) (self : Jacobian) (wrtblk : string * nat * nat)
  : result Jacobian :=
  let '(of_, start, end_) := ofblk in
  let '(wrt, wstart, wend) := wrtblk in
  let key := (of_, wrt) in
  if bool_decide (is_Some (_subjacs_info self !! key)) then
    let abs_key := (_get_abs_key system self key).1 in
    let '(r, self) := get_metadata system self key in
    subjac ← r;
    ak ← of_option KeyError abs_key;
    subj ← slice2d jac start end_ wstart wend;
    v ← match cols subjac with
         | None =>
             (* dense *)
             a ← as_array (val subjac);
             match shape a with
             | [_; _] => assign_all a subj
             | _ => Raise IndexError
             end
         | Some cs =>
             (* our COO format *)
             src ← match rows subjac with
                   | Some rs =>
                       d ← gather2d subj rs cs; Ok (NdArray [length d] d)
                   | None =>
                       (* subj[None, cols]: a new first axis, then the rows
                          [cols] of the block *)
                       match shape subj with
                       | [R; C] =>
                           sel ← gather (chunks R C (data subj)) cs;
                           Ok (NdArray [1; length cs; C] (concat sel))
                       | _ => Raise IndexError
                       end
                   end;
             a ← as_array (val subjac);
             assign_all a src
         end;
    Ok (with_subjacs_info self
          (<[ak := set_val subjac (PyArray v)]> (_subjacs_info self)))
  else Ok self.

(** [set_dense_jac(system, jac)] *)
Definition set_dense_jac (system : System) (self : Jacobian) (jac : ndarray)
  : result Jacobian :=
  self ← match _col_varnames self with
         | None => _setup_index_maps system self
         | Some _ => Ok self
         end;
  let wrtiter := _jac_wrt_iter system in
  for_each (λ self ofblk, for_each (set_dense_jac_block system jac ofblk) self wrtiter)
           self (_jac_of_iter system).

End Jac.

(** ** openmdao/approximation_schemes/approximation_scheme.py *)

Module Approx.

(** A vector is its [_views_flat]: the flat array of each variable, by
    absolute name. *)
Abbreviation Vector := (gmap string (list Z)).

(** The system as [_run_point] sees it. *)
Record System : Type := {
  _inputs : Vector;
  _outputs : Vector;
  _residuals : Vector;
}.

(** The two evaluation entry points of a system.  What they do is the
    model's business: an evaluation changes the vectors in place and may
    raise. *)
Inductive entry_point : Type := run_solve_nonlinear | run_apply_nonlinear.

Definition Model : Type := entry_point → System → option exn * System.

(** The objects [_run_point] works on: the system, the two buffers given by
    the caller, and the record of the evaluations made so far. *)
Record World : Type := {
  system : System;
  cache : Vector;
  results : Vector;
  calls : list entry_point;
}.

(** Statements: they change the world and may raise; what was changed
    before an exception stays changed. *)
Definition M (A : Type) : Type := World → result A * World.

Definition ret {A} (a : A) : M A := λ w, (Ok a, w).

Definition raise {A} (e : exn) : M A := λ w, (Raise e, w).

Definition bind {A B} (m : M A) (k : A → M B) : M B :=
  λ w, match m w with
       | (Ok a, w') => k a w'
       | (Raise e, w') => (Raise e, w')
       end.

Global Instance M_bind : MBind M := λ A B k m, bind m k.

Notation "m1 ;; m2" := (bind m1 (λ _, m2))
  (at level 100, m2 at level 200, right associativity).

Definition lift {A} (r : result A) : M A := λ w, (r, w).

Definition set_system (f : System → System) : M unit :=
  λ w, (Ok (), {| system := f (system w); cache := cache w;
                  results := results w; calls := calls w |}).

Definition set_inputs (v : Vector) (s : System) : System :=
  {| _inputs := v; _outputs := _outputs s; _residuals := _residuals s |}.

Definition set_outputs (v : Vector) (s : System) : System :=
  {| _inputs := _inputs s; _outputs := v; _residuals := _residuals s |}.

Definition set_residuals (v : Vector) (s : System) : System :=
  {| _inputs := _inputs s; _outputs := _outputs s; _residuals := v |}.

(** [for x in l: f(x)] *)
Fixpoint for_ {X} (l : list X) (f : X → M unit) : M unit :=
  match l with
  | [] => ret ()
  | x :: l' => f x ;; for_ l' f
  end.

(** Calling an entry point of the model. *)
Definition call (model : Model) (ep : entry_point) : M unit :=
  λ w, let '(e, s) := model ep (system w) in
       (match e with
        | None => Ok ()
        | Some e => Raise e
        end,
        {| system := s; cache := cache w; results := results w;
           calls := calls w ++ [ep] |}).

(** The vector observed by an approximation: the outputs for total
    derivatives, the residuals for partial ones. *)
Inductive which_vec : Type := Outputs | Residuals.

Definition get_vec (v : which_vec) (s : System) : Vector :=
  match v with
  | Outputs => _outputs s
  | Residuals => _residuals s
  end.

Definition set_vec_of (v : which_vec) (x : Vector) (s : System) : System :=
  match v with
  | Outputs => set_outputs x s
  | Residuals => set_residuals x s
  end.

(** Modelled from the spec: [Vector.get_data], [Vector.set_vec] and
    [Vector.set_data] are not among the sources.  [get_data(cache)] copies
    the data of the vector into the cache buffer, [results.set_vec(vec)]
    copies the data of [vec] into [results], and [set_data(cache)] copies the
    cache buffer back into the vector. *)
Definition get_data (v : which_vec) : M unit :=
  λ w, (Ok (), {| system := system w; cache := get_vec v (system w);
                  results := results w; calls := calls w |}).

Definition set_vec (v : which_vec) : M unit :=
  λ w, (Ok (), {| system := system w; cache := cache w;
                  results := get_vec v (system w); calls := calls w |}).

Definition set_data (v : which_vec) : M unit :=
  λ w, (Ok (), {| system := set_vec_of v (cache w) (system w); cache := cache w;
                  results := results w; calls := calls w |}).

(** [a[idxs] += delta] and [a[idxs] -= delta] for an index array: the
    selected entries are read, changed, and written back. *)
Definition inplace (op : Z → Z → Z) (a : list Z) (idxs : list nat) (delta : Z)
  : result (list Z) :=
  vals ← gather a idxs;
  scatter a idxs ((λ x, op x delta) <$> vals).

(** The body of the two loops over [input_deltas]. *)
Definition perturb (op : Z → Z → Z) (d : string * list nat * Z) : M unit :=
  λ w,
    let '(in_name, idxs, delta) := d in
    match _outputs (system w) !! in_name with
    | Some a =>
        (a' ← lift (inplace op a idxs delta);
         set_system (λ s, set_outputs (<[in_name := a']> (_outputs s)) s)) w
    | None =>
        (a ← lift (of_option KeyError (_inputs (system w) !! in_name));
         a' ← lift (inplace op a idxs delta);
         set_system (λ s, set_inputs (<[in_name := a']> (_inputs s)) s)) w
    end.

(** [ApproximationScheme._run_point(system, input_deltas, cache, results,
    deriv_type)]; the system and the two buffers are in the world. *)
Definition _run_point (model : Model) (input_deltas : list (string * list nat * Z))
    (deriv_type : string) : M Vector :=
  sel ← (if decide (deriv_type = "total") then ret (run_solve_nonlinear, Outputs)
         else if decide (deriv_type = "partial") then ret (run_apply_nonlinear, Residuals)
         else raise ValueError);
  let run_model := sel.1 in
  let results_vec := sel.2 in
  for_ input_deltas (perturb Z.add) ;;
  get_data results_vec ;;
  call model run_model ;;
  set_vec results_vec ;;
  set_data results_vec ;;
  for_ input_deltas (perturb Z.sub) ;;
  (λ w, (Ok (results w), w)).

End Approx.

(** ** openmdao/vectors/petsc_vector.py *)

Module Petsc.

(** What a vector reads from its owning system: the size of the
    communicator and the rank of this process in it, the ['distributed']
    flag of each variable ([_var_allprocs_abs2meta]) and the rank that owns
    each variable ([_owning_rank]). *)
Record System : Type := {
  comm_size : nat;
  comm_rank : nat;
  var_distributed : gmap string bool;
  _owning_rank : gmap string nat;
}.

(** Modelled from the spec: [DefaultVector], whose [ranges()], [asarray()]
    and [_get_data()] are used here, is not among the sources.  A vector is
    the ordered list of the flat arrays of its variables; its data array is
    their concatenation, and [ranges()] yields, for each variable, its name
    and the bounds of its part of the data array. *)
Record PETScVector : Type := {
  _views_flat : list (string * list Z);
  _dup_inds : list nat;
  _dup_scratch : option (list Z);
}.

Definition asarray (self : PETScVector) : list Z :=
  concat ((_views_flat self).*2).

Definition _get_data (self : PETScVector) : list Z := asarray self.

Fixpoint ranges_from (start : nat) (views : list (string * list Z))
  : list (string * nat * nat) :=
  match views with
  | [] => []
  | (name, a) :: rest =>
      (name, start, start + length a) :: ranges_from (start + length a) rest
  end.

Definition ranges (self : PETScVector) : list (string * nat * nat) :=
  ranges_from 0 (_views_flat self).

(** The body of the loop of [_init_dup_inds]. *)
Definition dup_step (system : System) (dup_inds : list nat) (r : string * nat * nat)
  : result (list nat) :=
  let '(name, start, stop) := r in
  owning_rank ← of_option KeyError (_owning_rank system !! name);
  distributed ← of_option KeyError (var_distributed system !! name);
  if negb distributed && negb (owning_rank =? comm_rank system)
  then Ok (dup_inds ++ seq start (stop - start))
  else Ok dup_inds.

(** [_init_dup_inds(system)]; [np.empty(stop)] is taken to hold zeros and
    [stop] is the end of the last range. *)
Definition _init_dup_inds (system : System) (self : PETScVector)
  : result PETScVector :=
  if 1 <? comm_size system then
    dup_inds ← for_each (dup_step system) [] (ranges self);
    Ok {| _views_flat := _views_flat self;
          _dup_inds := dup_inds;
          _dup_scratch :=
            if 0 <? length dup_inds then
              match last (ranges self) with
              | Some r => Some (replicate r.2 0%Z)
              | None => _dup_scratch self
              end
            else _dup_scratch self |}
  else
    Ok {| _views_flat := _views_flat self; _dup_inds := [];
          _dup_scratch := _dup_scratch self |}.

Definition set_scratch (self : PETScVector) (scratch : list Z) : PETScVector :=
  {| _views_flat := _views_flat self; _dup_inds := _dup_inds self;
     _dup_scratch := Some scratch |}.

(** [_get_nodup()]: the data array itself when nothing is duplicated,
    else the scratch array filled with the data and zeroed at
    [_dup_inds]. *)
Definition _get_nodup (self : PETScVector) : result (list Z) * PETScVector :=
  if 0 <? length (_dup_inds self) then
    match _dup_scratch self with
    | None => (Raise TypeError, self)
    | Some scratch =>
        (* self._dup_scratch[:] = self.asarray() *)
        if length scratch =? length (asarray self) then
          let scratch := asarray self in
          (* self._dup_scratch[self._dup_inds] = 0.0 *)
          match scatter scratch (_dup_inds self)
                        (replicate (length (_dup_inds self)) 0%Z) with
          | Ok scratch' => (Ok scratch', set_scratch self scratch')
          | Raise e => (Raise e, set_scratch self scratch)
          end
        else if length (asarray self) =? 1 then
          let scratch := replicate (length scratch) (default 0%Z (asarray self !! 0)) in
          match scatter scratch (_dup_inds self)
                        (replicate (length (_dup_inds self)) 0%Z) with
          | Ok scratch' => (Ok scratch', set_scratch self scratch')
          | Raise e => (Raise e, set_scratch self scratch)
          end
        else (Raise ValueError, self)
    end
  else (Ok (_get_data self), self).

(** [np.sum(a ** 2)] and [np.dot(a, b)] on 1-D arrays. *)
Definition sum_sq (a : list Z) : Z := sumZ ((λ x, x * x)%Z <$> a).

Definition np_dot (a b : list Z) : result Z :=
  if length a =? length b then Ok (sumZ (zip_with Z.mul a b))
  else Raise ValueError.

(** [comm.allreduce] with the default sum: every process contributes its
    local value and all receive the total. *)
Definition allreduce (locals : list Z) : Z := sumZ locals.

(** The first exception among the local computations, or all their
    values. *)
Fixpoint collect {A} (rs : list (result A)) : result (list A) :=
  match rs with
  | [] => Ok []
  | r :: rs' => a ← r; l ← collect rs'; Ok (a :: l)
  end.

(** The local argument of the reduction in [get_norm]. *)
Definition norm_local (self : PETScVector) : result Z * PETScVector :=
  let '(r, self) := _get_nodup self in
  (a ← r; Ok (sum_sq a), self).

(** [get_norm()], called by the processes of the communicator on their
    vectors [vecs]: the common result, and the vectors after the call. *)
Definition get_norm (vecs : list PETScVector) : result R * list PETScVector :=
  let rs := norm_local <$> vecs in
  (locals ← collect (rs.*1); Ok (sqrt (IZR (allreduce locals))), rs.*2).

(** The local argument of the reduction in [dot(vec)]. *)
Definition dot_local (sv : PETScVector * PETScVector) : result Z * PETScVector :=
  let '(r, self) := _get_nodup sv.1 in
  (a ← r; np_dot a (_get_data sv.2), self).

(** [dot(vec)], called by the processes on their pairs (self, vec). *)
Definition dot (pairs : list (PETScVector * PETScVector))
  : result Z * list PETScVector :=
  let rs := dot_local <$> pairs in
  (locals ← collect (rs.*1); Ok (allreduce locals), rs.*2).

End Petsc.

(** ** The coloring lifecycle: minimum improvement *)

Module Coloring.

(** Modelled from the spec: the lifecycle manager and the coloring engine
    are not among the sources (only their tests are).  A coloring is a list
    of colors, each a list of column indices, for [num_columns] columns; its
    improvement is [1 - num_colors / num_columns].  The manager of a block is
    in one of the states of the lifecycle; it keeps the configured minimum
    improvement and the warnings it has emitted. *)
Record Coloring : Type := {
  colors : list (list nat);
  num_columns : nat;
}.

Definition num_colors (c : Coloring) : nat := length (colors c).

Definition improvement_pct (c : Coloring) : Q :=
  (1 - inject_Z (Z.of_nat (num_colors c)) / inject_Z (Z.of_nat (num_columns c)))%Q.

Inductive state : Type :=
| UNCOLORED
| PROBING
| COLORED (c : Coloring)
| ACTIVE (c : Coloring)
| DEACTIVATED
| STATIC_LOADED (c : Coloring).

(** A warning names the block and reports the measured and the required
    improvement. *)
Record warning : Type := {
  block : string;
  measured : Q;
  required : Q;
}.

Record manager : Type := {
  owner : string;
  columns : nat;
  min_improve_pct : Q;
  st : state;
  warnings : list warning;
}.

Definition set_state (m : manager) (s : state) (ws : list warning) : manager :=
  {| owner := owner m; columns := columns m; min_improve_pct := min_improve_pct m;
     st := s; warnings := ws |}.

(** Modelled from the spec: the transitions out of [COLORED].  With an
    improvement of at least the minimum the coloring becomes [ACTIVE];
    below it the coloring is [DEACTIVATED] and a warning is emitted.  Neither
    raises. *)
Definition finalize (m : manager) : result manager :=
  match st m with
  | COLORED c =>
      if Qlt_le_dec (improvement_pct c) (min_improve_pct m) then
        Ok (set_state m DEACTIVATED
              (warnings m ++ [{| block := owner m; measured := improvement_pct c;
                                 required := min_improve_pct m |}]))
      else Ok (set_state m (ACTIVE c) (warnings m))
  | _ => Ok m
  end.

(** The coloring the manager retains. *)
Definition coloring (m : manager) : option Coloring :=
  match st m with
  | ACTIVE c => Some c
  | _ => None
  end.

(** Modelled from the spec: the colors an evaluation goes through, the
    retained coloring's or, without one, one color per column; each color is
    one invocation of the runner. *)
Definition colors_used (m : manager) : list (list nat) :=
  match coloring m with
  | Some c => colors c
  | None => (λ j, [j]) <$> seq 0 (columns m)
  end.

(** One Jacobian evaluation: the number of model runs, and the manager
    after it. *)
Definition evaluate (m : manager) : nat * manager :=
  (length (colors_used m), m).

(** [n] evaluations in sequence: the runs of each. *)
Fixpoint evaluations (n : nat) (m : manager) : list nat * manager :=
  match n with
  | 0 => ([], m)
  | S n' =>
      let '(r, m1) := evaluate m in
      let '(rs, m2) := evaluations n' m1 in
      (r :: rs, m2)
  end.

End Coloring.

(** ** openmdao/utils/array_utils.py, continued

    The functions on sizes, offsets and index arrays.  An assertion that
    fails is the outcome [AssertionError]. *)

Module ArrayUtils2.

Inductive asserted (A : Type) : Type :=
| Passed (a : A)
| AssertionError.
Arguments Passed {A} a.
Arguments AssertionError {A}.

(** [a[i]] for a Python int [i]: a negative index counts from the end. *)
Definition np_index {A} (a : list A) (i : Z) : result A :=
  let n := Z.of_nat (length a) in
  if (0 <=? i)%Z && (i <? n)%Z then of_option IndexError (a !! Z.to_nat i)
  else if (- n <=? i)%Z && (i <? 0)%Z then of_option IndexError (a !! Z.to_nat (i + n))
  else Raise IndexError.

(** [get_evenly_distributed_size(comm, full_size)], for a communicator of
    [comm_size] processes on the process of rank [comm_rank]. *)
Definition get_evenly_distributed_size (comm_size comm_rank full_size : Z) : result Z :=
  if (comm_size =? 0)%Z then Raise ZeroDivisionError
  else
    let base := (full_size `div` comm_size)%Z in
    let leftover := (full_size `mod` comm_size)%Z in
    if (comm_size <? 0)%Z then Raise ValueError
    else
      let sizes := replicate (Z.to_nat comm_size) base in
      (* sizes[:leftover] += 1 *)
      let sizes := ((λ x, x + 1)%Z <$> take (Z.to_nat leftover) sizes)
                     ++ drop (Z.to_nat leftover) sizes in
      np_index sizes comm_rank.

(** [take_nth(rank, size, seq)], for a rank and a size that are not
    negative: the values the generator yields.  [proc] is the loop variable
    of [for proc in range(size)], which [while True] restarts. *)
Fixpoint take_nth_loop {A} (rank size proc : nat) (seq : list A) : list A :=
  match seq with
  | [] => []
  | x :: rest =>
      let next := if S proc =? size then 0 else S proc in
      if rank =? proc then x :: take_nth_loop rank size next rest
      else take_nth_loop rank size next rest
  end.

Definition take_nth {A} (rank size : nat) (seq : list A) : asserted (list A) :=
  if rank <? size then Passed (take_nth_loop rank size 0 seq)
  else AssertionError.

(** [get_input_idx_split(full_idxs, inputs, outputs, use_full_cols,
    is_total)]; the two vectors are only passed on, [len_outputs] is
    [len(outputs)]. *)
Definition get_input_idx_split {V} (full_idxs : list Z) (inputs outputs : V)
    (len_outputs : Z) (use_full_cols is_total : bool) : asserted (list (V * list Z)) :=
  if negb (0 <? length full_idxs) then AssertionError
  else if use_full_cols then
    let out_size := len_outputs in
    let out_idxs := filter (λ i, (i < out_size)%Z) full_idxs in
    let in_idxs := (λ i, (i - out_size)%Z) <$> filter (λ i, (out_size ≤ i)%Z) full_idxs in
    let full := [(outputs, out_idxs); (inputs, in_idxs)] in
    Passed (filter (λ vi, 0 < length vi.2) full)
  else if is_total then Passed [(outputs, full_idxs)]
  else Passed [(inputs, full_idxs)].

(** [convert_neg(arr, size)]: [arr[arr < 0] += size]. *)
Definition convert_neg (arr : list Z) (size : Z) : list Z :=
  (λ i, if (i <? 0)%Z then (i + size)%Z else i) <$> arr.

(** An integer array of any shape: its shape and its entries in row-major
    order. *)
Record zarray : Type := ZArray { zshape : list nat; zdata : list Z }.

(** [sizes2offsets(size_array)] *)
Definition sizes2offsets (size_array : zarray) : zarray :=
  let size := length (zdata size_array) in
  let offsets := replicate size 0%Z in
  (* offsets[1:] = np.cumsum(size_array.flat)[:-1] *)
  let offsets := take 1 offsets ++ removelast (ArrayUtils.cumsum (zdata size_array)) in
  ZArray (zshape size_array) offsets.

(** [identity_column_iter(column)].  The generator yields the one array it
    was given, changed in place between two yields: the outcome is the
    content of that array at each yield, and its content at the end.
    [column[i - 1]] is the last entry when [i] is 0. *)
Definition identity_column_step (n i : nat) (column : list Z) : list Z :=
  <[i := 1%Z]> (<[(if i =? 0 then n - 1 else i - 1) := 0%Z]> column).

Fixpoint identity_column_loop (n : nat) (range : list nat) (column : list Z)
  : list (list Z) * list Z :=
  match range with
  | [] => ([], column)
  | i :: range' =>
      let column := identity_column_step n i column in
      let '(yields, final) := identity_column_loop n range' column in
      (column :: yields, final)
  end.

Definition identity_column_iter (column : list Z) : list (list Z) * list Z :=
  let n := length column in
  identity_column_loop n (seq 0 n) (replicate n 0%Z).

(** [allzero(a)], in the version used without numba ([not np.any(a)]) and
    in the compiled version, which returns at the first entry that is not
    zero. *)
Definition allzero_np (a : list Q) : bool :=
  negb (existsb (λ x, negb (Qeq_bool x 0)) a).

Fixpoint allzero (a : list Q) : bool :=
  match a with
  | [] => true
  | x :: a' => if negb (Qeq_bool x 0) then false else allzero a'
  end.

(** The compiled [allclose(a, b, rtol, atol)]. *)
Definition Qltb (x y : Q) : bool := if Qlt_le_dec x y then true else false.

Fixpoint allclose_loop (ab : list (Q * Q)) (rtol atol : Q) : bool :=
  match ab with
  | [] => true
  | (aval, bval) :: rest =>
      let abs_err := (aval - bval)%Q in
      let abs_err := if Qltb abs_err 0 then (- abs_err)%Q else abs_err in
      if Qltb atol abs_err then false
      else
        let bval := if Qltb bval 0 then (- bval)%Q else bval in
        if Qltb (atol + rtol * bval) abs_err then false
        else allclose_loop rest rtol atol
  end.

Definition allclose (a b : list Q) (rtol atol : Q) : bool :=
  if negb (length a =? length b) then false
  else allclose_loop (zip a b) rtol atol.

(** The integer types [get_index_dtype] chooses from, and the largest
    value of each ([np.iinfo(dtype).max]). *)
Inductive dtype : Type :=
| uint8 | uint16 | uint32 | uint64 | int8 | int16 | int32 | int64.

Definition iinfo_max (d : dtype) : Z :=
  match d with
  | uint8 => 2 ^ 8 - 1 | uint16 => 2 ^ 16 - 1
  | uint32 => 2 ^ 32 - 1 | uint64 => 2 ^ 64 - 1
  | int8 => 2 ^ 7 - 1 | int16 => 2 ^ 15 - 1
  | int32 => 2 ^ 31 - 1 | int64 => 2 ^ 63 - 1
  end%Z.

Definition iinfo_min (d : dtype) : Z :=
  match d with
  | uint8 | uint16 | uint32 | uint64 => 0
  | int8 => - 2 ^ 7 | int16 => - 2 ^ 15 | int32 => - 2 ^ 31 | int64 => - 2 ^ 63
  end%Z.

Definition _unsigned : list dtype := [uint8; uint16; uint32; uint64].
Definition _signed : list dtype := [int8; int16; int32; int64].

Fixpoint first_fitting (size : Z) (dtypes : list dtype) : result dtype :=
  match dtypes with
  | [] => Raise ValueError
  | d :: rest => if (size <=? iinfo_max d + 1)%Z then Ok d else first_fitting size rest
  end.

(** [get_index_dtype(size, allow_negative)] *)
Definition get_index_dtype (size : Z) (allow_negative : bool) : result dtype :=
  let dtypes := if allow_negative then _signed else _unsigned in
  first_fitting size dtypes.

(** [shape_to_len(shape)] for a shape that is not [None], in unbounded
    integers. *)
Definition shape_to_len (shape : list Z) : Z := foldl Z.mul 1%Z shape.

(** [np.where(ashape > 1)[0]]: the positions of the entries above 1,
    counted from [i]. *)
Fixpoint where_gt1 (i : nat) (ashape : list Z) : list nat :=
  match ashape with
  | [] => []
  | x :: rest => (if (1 <? x)%Z then [i] else []) ++ where_gt1 (S i) rest
  end.

(** [np.min] and [np.max] of an index array that is not empty. *)
Definition np_min (l : list nat) : nat := foldr Nat.min (hd 0 l) l.
Definition np_max (l : list nat) : nat := foldr Nat.max (hd 0 l) l.

(** The part of a shape between its first and its last entry above 1. *)
Definition fundamental_shape (ashape : list Z) : list Z :=
  let nz := where_gt1 0 ashape in
  if 0 <? length nz then slice (np_min nz) (np_max nz + 1) ashape
  else [1%Z].

(** [array_connection_compatible(shape1, shape2)] *)
Definition array_connection_compatible (shape1 shape2 : list Z) : bool :=
  let size1 := shape_to_len shape1 in
  let size2 := shape_to_len shape2 in
  (* Shapes are not connection-compatible if size is different *)
  if negb (size1 =? size2)%Z then false
  else
    let fundamental_shape1 := fundamental_shape shape1 in
    let fundamental_shape2 := fundamental_shape shape2 in
    if negb (length fundamental_shape1 =? length fundamental_shape2) then false
    else forallb (λ xy : Z * Z, (xy.1 =? xy.2)%Z) (zip fundamental_shape1 fundamental_shape2).

(** [a[mask]] for a boolean mask of the length of [a], and [np.sort] of
    an integer array. *)
Definition mask_select {A} (a : list A) (mask : list bool) : list A :=
  (filter (λ xm : A * bool, xm.2 = true) (zip a mask)).*1.

Definition np_sort (a : list Z) : list Z := merge_sort Z.le a.

(** [sparse_subinds(orig, inds)] *)
Definition sparse_subinds (orig inds : list Z) : list Z * list bool :=
  let mask := replicate (length orig) false in
  (* mask |= orig == i *)
  let mask := foldl (λ mask i, zip_with orb mask ((λ x, (x =? i)%Z) <$> orig)) mask inds in
  let newsp := mask_select orig mask in
  (* newsp[newsp == i] = r *)
  let newsp := foldl (λ newsp ri, (λ x, if (x =? ri.2)%Z then Z.of_nat ri.1 else x) <$> newsp)
                     newsp (imap pair (np_sort inds)) in
  (newsp, mask).

(** An argument that is an integer or a shape tuple ([np.ndim] 0 or more). *)
Inductive int_or_shape : Type :=
| AnInt (n : Z)
| AShape (s : list Z).

(** A scalar or a 1-D array of values. *)
Inductive scalar_or_array : Type :=
| AScalar (q : Q)
| AnArray (d : list Q).

(** [a + b] on 1-D integer arrays: they have the same length, or one of
    them has a single entry, which is repeated. *)
Definition np_add1d (a b : list Z) : result (list Z) :=
  if length a =? length b then Ok (zip_with Z.add a b)
  else if length a =? 1 then Ok ((λ y, default 0 (a !! 0%nat) + y)%Z <$> b)
  else if length b =? 1 then Ok ((λ x, x + default 0 (b !! 0%nat))%Z <$> a)
  else Raise ValueError.

(** [np.tile(a, n)] and [np.repeat(np.arange(n), k)] for 1-D arrays. *)
Definition np_tile {A} (a : list A) (n : nat) : list A := concat (replicate n a).

Definition repeat_arange (n k : nat) : list Z :=
  flat_map (λ i, replicate k (Z.of_nat i)) (seq 0 n).

(** [tile_sparse_jac(data, rows, cols, nrow, ncol, num_nodes)], for a
    number of nodes that is not negative. *)
Definition tile_sparse_jac (data : scalar_or_array) (rows cols : list Z)
    (nrow ncol : int_or_shape) (num_nodes : nat)
  : result (list Q * list Z * list Z) :=
  let nnz := length rows in
  let data := match data with
              | AScalar q => (λ one, q * one)%Q <$> replicate nnz 1%Q
              | AnArray d => d
              end in
  let nrow := match nrow with AnInt n => n | AShape s => shape_to_len s end in
  let ncol := match ncol with AnInt n => n | AShape s => shape_to_len s end in
  let repeat_arr := repeat_arange num_nodes nnz in
  let data := np_tile data num_nodes in
  rows ← np_add1d (np_tile rows num_nodes) ((λ i, i * nrow)%Z <$> repeat_arr);
  cols ← np_add1d (np_tile cols num_nodes) ((λ i, i * ncol)%Z <$> repeat_arr);
  Ok (data, rows, cols).

(** [_global2local_offsets(global_offsets)].  The dict is the list of its
    items in order; an array of offsets is 2-D and given by its rows, one per
    process.  [goff[0]] raises [IndexError] when there is no row. *)
Definition localize (goff : list (list Z)) : result (list (list Z)) :=
  first ← of_option IndexError (goff !! 0%nat);
  if 0 <? length first then
    (* offsets[type_] -= goff[:, 0].reshape((goff.shape[0], 1)) *)
    Ok ((λ row : list Z, (λ x, x - default 0 (row !! 0%nat))%Z <$> row) <$> goff)
  else Ok goff.

Fixpoint _global2local_offsets (global_offsets : list (string * list (list Z)))
  : result (list (string * list (list Z))) :=
  match global_offsets with
  | [] => Ok []
  | (type_, goff) :: rest =>
      off ← localize goff;
      offsets ← _global2local_offsets rest;
      Ok ((type_, off) :: offsets)
  end.

End ArrayUtils2.

(** ** openmdao/core/tests/test_partial_color.py

    The part of [setup_vars] that splits the columns (or the rows) of the
    sparsity matrix among the variables. *)

Module PartialColorTest.

(** The loop [for i, sz in enumerate(sizes)] of [setup_vars]: the items it
    adds to [slices], as (name, (start, end)); [i] and [start] are the values
    of the loop variables on entry. *)
Fixpoint var_slices (prefix : string) (i : nat) (start : Z) (sizes : list Z)
  : list (string * (Z * Z)) :=
  match sizes with
  | [] => []
  | sz :: rest =>
      let end_ := (start + sz)%Z in
      (prefix +:+ pretty i, (start, end_)) :: var_slices prefix (S i) end_ rest
  end.

(** The slices of the inputs [x0], [x1], ... for [isplit] inputs and a
    matrix of [ncols] columns; the offsets returned by [evenly_distrib_idxs]
    are dropped. *)
Definition input_slices (isplit ncols : Z) : result (list (string * (Z * Z))) :=
  r ← ArrayUtils.evenly_distrib_idxs isplit ncols;
  let isizes := r.1 in
  Ok (var_slices "x" 0 0 isizes).

End PartialColorTest.

(** * Properties *)

Lemma sumZ_app (l k : list Z) : sumZ (l ++ k) = (sumZ l + sumZ k)%Z.
Proof. induction l as [|x l IH]; simpl; [done | rewrite IH; lia]. Qed.

Lemma sumZ_replicate (n : nat) (x : Z) : sumZ (replicate n x) = (Z.of_nat n * x)%Z.
Proof. induction n as [|n IH]; [done |]. simpl replicate. simpl sumZ. rewrite IH. lia. Qed.

Lemma sumZ_take_S (l : list Z) (i : nat) (x : Z) :
  l !! i = Some x → sumZ (take (S i) l) = (sumZ (take i l) + x)%Z.
Proof.
  intros Hi. rewrite (take_S_r l i x Hi), sumZ_app. simpl. lia.
Qed.

(** ** Properties of [array_utils] *)

Section ArrayUtilsFacts.
Import ArrayUtils.

Lemma cumsum_from_length acc l : length (cumsum_from acc l) = length l.
Proof. revert acc; induction l as [|x l IH]; intros acc; simpl; [done | by rewrite IH]. Qed.

Lemma cumsum_from_lookup acc l i :
  i < length l →
  cumsum_from acc l !! i = Some (acc + sumZ (take (S i) l))%Z.
Proof.
  revert acc i; induction l as [|x l IH]; intros acc i Hi; simpl in *; [lia |].
  destruct i as [|i]; simpl.
  - f_equal. lia.
  - rewrite IH by lia. f_equal. simpl. lia.
Qed.

Lemma removelast_take {A} (l : list A) : removelast l = take (length l - 1) l.
Proof.
  induction l as [|x l IH]; [done |].
  destruct l as [|y l]; [done |].
  change (removelast (x :: y :: l)) with (x :: removelast (y :: l)).
  rewrite IH. simpl. by rewrite Nat.sub_0_r.
Qed.

(** The sizes array after the in-place increment of its first [leftover]
    entries. *)
Lemma sizes_shape (n r : nat) (b : Z) :
  r ≤ n →
  ((λ x, x + 1)%Z <$> take r (replicate n b)) ++ drop r (replicate n b)
  = replicate r (b + 1)%Z ++ replicate (n - r) b.
Proof.
  intros Hr. rewrite take_replicate, drop_replicate, fmap_replicate.
  by rewrite Nat.min_l.
Qed.

Lemma sizes_lookup (n r : nat) (b : Z) (i : nat) :
  r ≤ n → i < n →
  (replicate r (b + 1)%Z ++ replicate (n - r) b) !! i
  = Some (if decide (i < r) then (b + 1)%Z else b).
Proof.
  intros Hr Hi. case_decide.
  - rewrite lookup_app_l by (rewrite length_replicate; lia).
    by apply lookup_replicate_2.
  - rewrite lookup_app_r by (rewrite length_replicate; lia).
    apply lookup_replicate_2. rewrite length_replicate. lia.
Qed.

(** Every offset is the sum of the sizes before it. *)
Lemma offsets_lookup (sizes : list Z) (i : nat) :
  i < length sizes →
  (take 1 (replicate (length sizes) 0%Z) ++ removelast (cumsum sizes)) !! i
  = Some (sumZ (take i sizes)).
Proof.
  intros Hi. destruct sizes as [|x sizes]; simpl in Hi; [lia |].
  change (take 1 (replicate (length (x :: sizes)) 0%Z)) with [0%Z].
  destruct i as [|i]; [done |].
  change (([0%Z] ++ removelast (cumsum (x :: sizes))) !! S i)
    with (removelast (cumsum (x :: sizes)) !! i).
  rewrite removelast_take. unfold cumsum.
  rewrite cumsum_from_length. simpl length.
  rewrite lookup_take_lt by lia.
  rewrite cumsum_from_lookup by (simpl; lia). f_equal.
Qed.



(** C10 — [ValueRepeater.__getitem__(idx)] raises [IndexError] exactly when
    [idx >= size]; every negative index, also one below [-size], returns
    [val]. *)
Theorem ValueRepeater_getitem_spec {A} (self : ValueRepeater A) (idx : Z) :
  (0 ≤ size self)%Z →
  (__getitem__ self idx = Raise IndexError ↔ (size self ≤ idx)%Z)
  ∧ ((idx < size self)%Z → __getitem__ self idx = Ok (val self))
  ∧ ((idx < 0)%Z → __getitem__ self idx = Ok (val self)).
Proof.
  intros Hsz. unfold __getitem__.
  destruct (Z.ltb_spec idx 0) as [Hneg|Hpos].
  - destruct (Z.geb_spec (idx + size self) (size self)) as [Hge|Hlt]; [lia |].
    split; [split; [done | lia] | done].
  - destruct (Z.geb_spec idx (size self)) as [Hge|Hlt].
    + split; [split; [lia | done] | split; intros; lia].
    + split; [split; [done | lia] | done].
Qed.

Lemma ValueRepeater_getitem_spec_witness :
  let r := {| val := 7%Z; size := 2%Z |} in
  __getitem__ r 2 = Raise IndexError ∧ __getitem__ r (-5) = Ok 7%Z.
Proof.
  intros r.
  destruct (ValueRepeater_getitem_spec r 2 ltac:(simpl; lia)) as [[_ H2] _].
  destruct (ValueRepeater_getitem_spec r (-5) ltac:(simpl; lia)) as (_ & _ & H5).
  split; [apply H2; simpl; lia | apply H5; lia].
Defined.

End ArrayUtilsFacts.

(** ** Facts about the array operations *)

Section NumpyFacts.

Lemma chunks_concat {A} (n sz : nat) (l : list A) :
  length l = n * sz → concat (chunks n sz l) = l.
Proof.
  revert l; induction n as [|n IH]; intros l Hl; simpl in *.
  - by destruct l.
  - rewrite IH; [apply take_drop |]. rewrite length_drop. lia.
Qed.

Lemma chunks_lengths {A} (n sz : nat) (l : list A) :
  length l = n * sz → Forall (λ c, length c = sz) (chunks n sz l).
Proof.
  revert l; induction n as [|n IH]; intros l Hl; simpl in *; constructor.
  - rewrite length_take. lia.
  - apply IH. rewrite length_drop. lia.
Qed.

Lemma mapM_id_Forall {A} (f : list A → option (list A)) (l : list (list A)) :
  Forall (λ c, f c = Some c) l → mapM f l = Some l.
Proof.
  intros H. apply mapM_Some_2. induction H; constructor; done.
Qed.

Lemma concat_replicate_single {A} (n : nat) (x : A) :
  concat (replicate n [x]) = replicate n x.
Proof. induction n as [|n IH]; simpl; [done | by rewrite IH]. Qed.

Lemma concat_replicate_replicate {A} (n m : nat) (x : A) :
  concat (replicate n (replicate m x)) = replicate (n * m) x.
Proof.
  induction n as [|n IH]; simpl; [done |].
  by rewrite IH, replicate_add.
Qed.

Lemma broadcast_cons (d s : nat) (ds ss : list nat) (dat : list Q) :
  length ss = length ds →
  broadcast (d :: ds) (s :: ss) dat
  = if s =? d then
      rs ← mapM (broadcast ds ss) (chunks s (size_of ss) dat); Some (concat rs)
    else if s =? 1 then
      r ← broadcast ds ss dat; Some (concat (replicate d r))
    else None.
Proof. intros H. cbn [broadcast length]. by rewrite H, Nat.ltb_irrefl. Qed.

(** A source of the destination's own shape is copied as it is. *)
Lemma broadcast_same (s : list nat) (d : list Q) :
  length d = size_of s → broadcast s s d = Some d.
Proof.
  revert d; induction s as [|n s IH]; intros d Hd; [done |].
  rewrite broadcast_cons, Nat.eqb_refl by done.
  cbn [size_of foldr] in Hd. fold (size_of s) in Hd.
  rewrite (mapM_id_Forall (broadcast s s)).
  - cbn. by rewrite chunks_concat.
  - eapply Forall_impl; [by apply chunks_lengths |].
    intros c Hc. by apply IH.
Qed.

(** A single entry fills a 1-D destination. *)
Lemma broadcast_1d_one (n : nat) (q : Q) :
  broadcast [n] [1] [q] = Some (replicate n q).
Proof.
  rewrite broadcast_cons by done.
  destruct (Nat.eqb_spec 1 n) as [<-|Hn]; [done |].
  cbn. by rewrite concat_replicate_single.
Qed.

Lemma broadcast_1d_scalar (n : nat) (q : Q) :
  broadcast [n] [] [q] = Some (replicate n q).
Proof. cbn. by rewrite concat_replicate_single. Qed.

(** A 1-D source of [k] entries fits a 1-D destination of [n] entries only
    when [k = n] or [k = 1]. *)
Lemma broadcast_1d_mismatch (n k : nat) (d : list Q) :
  k ≠ n → k ≠ 1 → broadcast [n] [k] d = None.
Proof.
  intros Hn H1. rewrite broadcast_cons by done.
  destruct (Nat.eqb_spec k n); [done |]. by destruct (Nat.eqb_spec k 1).
Qed.

(** A 1x1 source fills a 2-D destination. *)
Lemma broadcast_2d_one (R C : nat) (q : Q) :
  broadcast [R; C] [1; 1] [q] = Some (replicate (R * C) q).
Proof.
  rewrite broadcast_cons by done.
  destruct (Nat.eqb_spec 1 R) as [<-|HR].
  - change (chunks 1 (size_of [1]) [q]) with [[q]].
    rewrite (mapM_Some_2 _ _ [replicate C q]).
    + cbn. by rewrite app_nil_r, Nat.add_0_r.
    + repeat constructor. apply broadcast_1d_one.
  - rewrite Nat.eqb_refl, broadcast_1d_one. cbn.
    by rewrite concat_replicate_replicate.
Qed.

Lemma assign_all_same (dst src : ndarray) :
  shape src = shape dst → wf_ndarray src →
  assign_all dst src = Ok (NdArray (shape dst) (data src)).
Proof.
  intros Hs Hwf. unfold assign_all. rewrite Hs, Nat.sub_diag. cbn [strip_leading].
  rewrite broadcast_same; [done |]. by rewrite <- Hs.
Qed.

End NumpyFacts.

(** ** Access to sub-Jacobians: [__getitem__] and [__setitem__] *)

Section JacobianAccess.
Import Jac.

(** A key is declared when it resolves (through the cache or the resolver)
    to a pair that has metadata. *)
Definition declared (system : System) (self : Jacobian) (k : key) : Prop :=
  ∃ ak, (_get_abs_key system self k).1 = Some ak
        ∧ is_Some (_subjacs_info self !! ak).

Lemma _get_abs_key_subjacs_info system self k :
  _subjacs_info (_get_abs_key system self k).2 = _subjacs_info self.
Proof.
  unfold _get_abs_key. destruct (_abs_keys self !! k); [done |].
  by destruct (any2abs_key system k).
Qed.

Lemma setitem_unfold system self k ak meta subjac :
  (_get_abs_key system self k).1 = Some ak →
  _subjacs_info self !! ak = Some meta →
  match setitem_value system ak meta subjac with
  | Ok v =>
      (__setitem__ system self k subjac).1 = Ok ()
      ∧ _subjacs_info (__setitem__ system self k subjac).2
        = <[ak := set_val meta v]> (_subjacs_info self)
  | Raise e =>
      (__setitem__ system self k subjac).1 = Raise e
      ∧ _subjacs_info (__setitem__ system self k subjac).2 = _subjacs_info self
  end.
Proof.
  intros Hk Hm. unfold __setitem__.
  pose proof (_get_abs_key_subjacs_info system self k) as Hinfo.
  destruct (_get_abs_key system self k) as [abs self']. simpl in *. subst abs.
  rewrite Hinfo, Hm. destruct (setitem_value system ak meta subjac); simpl; by rewrite ?Hinfo.
Qed.

(** C7 — for a key pair that was never declared, [__getitem__] and
    [__setitem__] both return [KeyError] from the call itself, and the failed
    [__setitem__] leaves every stored sub-Jacobian as it was. *)
Theorem undeclared_key_raises system self k subjac :
  ¬ declared system self k →
  (__getitem__ system self k).1 = Raise KeyError
  ∧ (__setitem__ system self k subjac).1 = Raise KeyError
  ∧ _subjacs_info (__setitem__ system self k subjac).2 = _subjacs_info self
  ∧ _subjacs_info (__getitem__ system self k).2 = _subjacs_info self.
Proof.
  intros Hu. unfold declared in Hu. unfold __getitem__, __setitem__.
  pose proof (_get_abs_key_subjacs_info system self k) as Hinfo.
  destruct (_get_abs_key system self k) as [[ak|] self']; simpl in *; [| done].
  rewrite Hinfo.
  destruct (_subjacs_info self !! ak) as [meta|] eqn:Hm; [| done].
  exfalso. apply Hu. exists ak. by rewrite Hm.
Qed.

Definition demo_system : System :=
  {| any2abs_key := λ k, if decide (k.1 = "nope") then None else Some k;
     abs2meta_input := {[ "x" := 2 ]};
     abs2meta_output := {[ "y" := 2 ]};
     _jac_of_iter := [("y", 0, 2)];
     _jac_wrt_iter := [("x", 0, 2); ("z", 2, 5)] |}.

Definition demo_dense : subjac_meta :=
  {| rows := None; cols := None;
     val := PyArray (NdArray [2; 2] [1; 2; 3; 4]%Q);
     dependent := true; sparsity := None |}.

Definition demo_coo : subjac_meta :=
  {| rows := Some [0; 1; 1]; cols := Some [0; 1; 2];
     val := PyArray (NdArray [3] [1; 2; 3]%Q);
     dependent := true; sparsity := None |}.

Definition demo_jac : Jacobian :=
  __init__ (<[("y", "x") := demo_dense]> (<[("y", "z") := demo_coo]> ∅)).

Lemma undeclared_key_raises_witness :
  (__getitem__ demo_system demo_jac ("y", "w")).1 = Raise KeyError
  ∧ (__setitem__ demo_system demo_jac ("nope", "x") (PyScalar 1)).1 = Raise KeyError.
Proof.
  split.
  - apply (undeclared_key_raises demo_system demo_jac ("y", "w") PyNone).
    intros (ak & Hak & Hsome). vm_compute in Hak. injection Hak as <-.
    vm_compute in Hsome. by destruct Hsome.
  - apply (undeclared_key_raises demo_system demo_jac ("nope", "x") (PyScalar 1)).
    intros (ak & Hak & _). vm_compute in Hak. discriminate.
Defined.


End JacobianAccess.

Section JacobianAccessExamples.
Import Jac.



End JacobianAccessExamples.

(** ** Scattering a column: [set_col] *)

Section SetCol.
Import Jac.

(** Blocks (name, start, end) that follow each other without a gap. *)
Fixpoint contiguous (start : nat) (blks : list (string * nat * nat)) : Prop :=
  match blks with
  | [] => True
  | blk :: rest => blk.1.2 = start ∧ start ≤ blk.2 ∧ contiguous blk.2 rest
  end.

Definition names (blks : list (string * nat * nat)) : list string :=
  (λ blk, blk.1.1) <$> blks.

Lemma dict_set_fresh {V} (k : string) (v : V) (d : list (string * V)) :
  k ∉ d.*1 → dict_set k v d = d ++ [(k, v)].
Proof.
  induction d as [|[k' v'] d IH]; intros Hk; simpl; [done |].
  rewrite fmap_cons, not_elem_of_cons in Hk. destruct Hk as [Hne Hk].
  rewrite decide_False by done. by rewrite IH.
Qed.

Lemma dict_get_lookup {V} (d : list (string * V)) (j : nat) (k : string) (v : V) :
  NoDup d.*1 → d !! j = Some (k, v) → dict_get k d = Some v.
Proof.
  revert j; induction d as [|[k' v'] d IH]; intros j Hnd Hj; [done |].
  rewrite fmap_cons in Hnd. apply NoDup_cons in Hnd as [Hk' Hnd]. simpl.
  destruct j as [|j]; simpl in Hj.
  - simplify_eq. by rewrite decide_True.
  - case_decide as Hk; [| by eapply IH].
    subst k'. exfalso. apply Hk'. apply list_elem_of_fmap.
    exists (k, v). split; [done |]. by eapply list_elem_of_lookup_2.
Qed.

(** The offset table built by [_setup_index_maps] lists the column blocks
    in order when their names are distinct. *)
Lemma col_var_offset_fold (acc : list (string * nat)) (blks : list (string * nat * nat)) :
  NoDup (acc.*1 ++ names blks) →
  foldl (λ d blk, dict_set blk.1.1 blk.1.2 d) acc blks
  = acc ++ ((λ blk, (blk.1.1, blk.1.2)) <$> blks).
Proof.
  revert acc; induction blks as [|blk blks IH]; intros acc Hnd; simpl.
  - by rewrite app_nil_r.
  - unfold names in Hnd. rewrite fmap_cons in Hnd.
    rewrite dict_set_fresh.
    + rewrite IH; [by rewrite <- app_assoc |].
      rewrite fmap_app, <- app_assoc. exact Hnd.
    + apply NoDup_app in Hnd as (_ & Hn & _). intros Hin.
      apply (Hn _ Hin). by left.
Qed.

Lemma slice_fill_length {A} (s e : nat) (i : A) (a : list A) :
  length (slice_fill s e i a) = length a.
Proof. unfold slice_fill. by rewrite length_imap. Qed.

Lemma slice_fill_lookup {A} (s e : nat) (i : A) (a : list A) (k : nat) :
  slice_fill s e i a !! k
  = if (s <=? k) && (k <? e) then (λ _, i) <$> a !! k else a !! k.
Proof.
  unfold slice_fill. rewrite list_lookup_imap.
  destruct ((s <=? k) && (k <? e)); by destruct (a !! k).
Qed.

Definition fill_step (st : list nat * nat) (ie : nat * nat) : list nat * nat :=
  (slice_fill st.2 ie.2 ie.1 st.1, ie.2).

Lemma fill_below (blks : list (string * nat * nat)) (off start : nat)
    (c : list nat) (k : nat) :
  contiguous start blks → k < start →
  (foldl fill_step (c, start)
         (imap (λ i e, (off + i, e)) ((λ blk, blk.2) <$> blks))).1 !! k
  = c !! k.
Proof.
  revert off start c; induction blks as [|blk blks IH]; intros off start c Hc Hk; [done |].
  destruct Hc as (Hs & Hle & Hc). rewrite fmap_cons, imap_cons. cbn [foldl].
  unfold fill_step at 2. cbn [fst snd].
  rewrite (imap_ext _ (λ i e, (S off + i, e))).
  2:{ intros i e _. simpl. f_equal. lia. }
  rewrite IH by (done || lia).
  rewrite slice_fill_lookup.
  destruct (Nat.leb_spec start k); [lia | done].
Qed.

Lemma fill_lookup (blks : list (string * nat * nat)) (off start : nat)
    (c : list nat) (k j : nat) (blk : string * nat * nat) :
  contiguous start blks → blks !! j = Some blk →
  blk.1.2 ≤ k < blk.2 → k < length c →
  (foldl fill_step (c, start)
         (imap (λ i e, (off + i, e)) ((λ blk, blk.2) <$> blks))).1 !! k
  = Some (off + j).
Proof.
  revert off start c j; induction blks as [|b blks IH];
    intros off start c j Hc Hj Hk Hlen; [done |].
  destruct Hc as (Hs & Hle & Hc). rewrite fmap_cons, imap_cons. cbn [foldl].
  unfold fill_step at 2. cbn [fst snd].
  rewrite (imap_ext _ (λ i e, (S off + i, e))).
  2:{ intros i e _. simpl. f_equal. lia. }
  destruct j as [|j]; simpl in Hj.
  - simplify_eq. rewrite fill_below by (done || lia).
    rewrite slice_fill_lookup.
    destruct (Nat.leb_spec (blk.1.2) k); [| lia].
    destruct (Nat.ltb_spec k (blk.2)); [| lia]. simpl.
    by destruct (lookup_lt_is_Some_2 c k Hlen) as [x ->].
  - rewrite (IH (S off) (b.2) _ j) by (done || by rewrite slice_fill_length).
    f_equal. lia.
Qed.

Lemma contiguous_last_le (blks : list (string * nat * nat)) (start j : nat)
    (blk : string * nat * nat) (e : nat) :
  contiguous start blks → blks !! j = Some blk →
  last ((λ blk, blk.2) <$> blks) = Some e → blk.2 ≤ e.
Proof.
  revert start j blk; induction blks as [|b blks IH]; intros start j blk Hc Hj Hl; [done |].
  destruct Hc as (Hs & Hle & Hc).
  destruct blks as [|b' blks].
  - destruct j; simpl in *; simplify_eq. lia.
  - rewrite !fmap_cons, last_cons_cons, <- fmap_cons in Hl.
    destruct j as [|j]; simpl in Hj.
    + simplify_eq. destruct Hc as (Hs' & Hle' & Hc').
      etrans; [exact Hle' |].
      eapply (IH _ 0 b'); [split; [exact Hs' | split; [exact Hle' | exact Hc']] | done | done].
    + by eapply IH.
Qed.

(** The index maps send a column [icol] of block [j] = (wrt, s, e) to the
    name [wrt] and to the offset [s]. *)
Lemma setup_index_maps_spec system self (j : nat) (wrt : string) (s e icol : nat) :
  contiguous 0 (_jac_wrt_iter system) →
  NoDup (names (_jac_wrt_iter system)) →
  _jac_wrt_iter system !! j = Some (wrt, s, e) →
  s ≤ icol < e →
  ∃ self', _setup_index_maps system self = Ok self'
    ∧ _subjacs_info self' = _subjacs_info self
    ∧ ∃ nms, _col_varnames self' = Some nms
      ∧ _col2name_ind self' !! icol = Some j
      ∧ nms !! j = Some wrt
      ∧ dict_get wrt (_col_var_offset self') = Some s.
Proof.
  intros Hc Hnd Hj Hi. unfold _setup_index_maps.
  destruct (last ((λ blk, blk.2) <$> _jac_wrt_iter system)) as [e_last|] eqn:Hlast.
  2:{ apply last_None in Hlast. apply fmap_nil_inv in Hlast.
      by rewrite Hlast in Hj. }
  eexists. split; [done |]. cbn [_subjacs_info _col_varnames _col2name_ind _col_var_offset].
  split; [done |]. eexists. split; [done |].
  rewrite col_var_offset_fold by done. cbn [app].
  assert (Hoff : ((λ blk : string * nat * nat, (blk.1.1, blk.1.2)) <$> _jac_wrt_iter system) !! j
                 = Some (wrt, s)).
  { by rewrite list_lookup_fmap, Hj. }
  split; [|split].
  - pose proof (contiguous_last_le _ _ _ _ _ Hc Hj Hlast) as Hle. simpl in Hle.
    pose proof (fill_lookup (_jac_wrt_iter system) 0 0 (replicate e_last 0) icol j
                  (wrt, s, e) Hc Hj ltac:(simpl; lia)
                  ltac:(rewrite length_replicate; lia)) as Hf.
    exact Hf.
  - rewrite list_lookup_fmap, Hoff. done.
  - eapply dict_get_lookup; [| exact Hoff].
    rewrite <- list_fmap_compose. exact Hnd.
Qed.

(** *** One block of the loop *)

Lemma slice_lookup {A} (start stop : nat) (l : list A) (r : nat) :
  r < stop - start → slice start stop l !! r = l !! (start + r).
Proof. intros Hr. unfold slice. by rewrite lookup_take_lt, lookup_drop. Qed.

Lemma slice_length {A} (start stop : nat) (l : list A) :
  stop ≤ length l → length (slice start stop l) = stop - start.
Proof. intros H. unfold slice. rewrite length_take, length_drop. lia. Qed.

Lemma set_column_spec (R C : nat) (d src : list Q) (j : nat) :
  j < C → length src = R → length d = R * C →
  ∃ d', set_column (NdArray [R; C] d) j src = Ok (NdArray [R; C] d')
    ∧ length d' = length d
    ∧ ∀ r c, r < R → c < C →
        d' !! (r * C + c) = if decide (c = j) then src !! r else d !! (r * C + c).
Proof.
  intros Hj Hsrc Hd. unfold set_column. cbn [shape data].
  destruct (Nat.ltb_spec j C) as [_|]; [| lia]. cbn [negb].
  rewrite (proj2 (Nat.eqb_eq _ _) Hsrc). cbn [orb].
  eexists. split; [done |]. split; [by rewrite length_imap |].
  intros r c Hr Hc. rewrite list_lookup_imap.
  assert (Hlt : r * C + c < length d) by nia.
  destruct (lookup_lt_is_Some_2 d _ Hlt) as [x Hx]. rewrite Hx. cbn [fmap option_fmap option_map].
  assert (Hmod : (r * C + c) mod C = c).
  { rewrite Nat.add_comm, Nat.Div0.mod_add. by apply Nat.mod_small. }
  assert (Hdiv : (r * C + c) / C = r).
  { rewrite Nat.add_comm, Nat.div_add by lia. rewrite Nat.div_small by done. lia. }
  rewrite Hmod, Hdiv. case_decide as Hcj.
  - subst c. rewrite Nat.eqb_refl.
    assert (Hidx : (if length src =? 1 then 0 else r) = r).
    { destruct (Nat.eqb_spec (length src) 1); [lia | done]. }
    rewrite Hidx.
    destruct (lookup_lt_is_Some_2 src r ltac:(lia)) as [y ->]. done.
  - by rewrite (proj2 (Nat.eqb_neq _ _) Hcj).
Qed.

Lemma elem_of_match_inds (cs : list nat) (j k : nat) :
  k ∈ match_inds cs j ↔ cs !! k = Some j.
Proof.
  unfold match_inds. rewrite list_elem_of_filter, elem_of_seq.
  split; [by intros [? _] |]. intros H. split; [done |].
  apply lookup_lt_Some in H. lia.
Qed.

Lemma gather_Ok {A} (src : list A) (idx : list nat) :
  Forall (λ i, i < length src) idx →
  ∃ vals, gather src idx = Ok vals
          ∧ Forall2 (λ i v, src !! i = Some v) idx vals.
Proof.
  intros Hidx. unfold gather.
  destruct (mapM (λ i, src !! i) idx) as [vals|] eqn:Hm.
  - exists vals. split; [done |]. by apply mapM_Some_1.
  - exfalso. apply mapM_None_1 in Hm. apply Exists_exists in Hm as (i & Hi & Hn).
    rewrite Forall_forall in Hidx. specialize (Hidx i Hi).
    apply lookup_lt_is_Some_2 in Hidx. rewrite Hn in Hidx. by destruct Hidx.
Qed.

(** Writing, at each index of [idx], a value that depends on the index
    only. *)
Lemma scatter_fun_lookup {A} (g : nat → option A) (idx : list nat) (vals : list A)
    (dst : list A) (p : nat) :
  Forall2 (λ i v, g i = Some v) idx vals →
  Forall (λ i, i < length dst) idx →
  foldl (λ acc iv, <[iv.1 := iv.2]> acc) dst (zip idx vals) !! p
  = if decide (p ∈ idx) then g p else dst !! p.
Proof.
  intros HF. revert dst. induction HF as [|i v idx vals Hg HF IH]; intros dst Hlt.
  - case_decide as Hp; [by apply elem_of_nil in Hp | done].
  - apply Forall_cons in Hlt as [Hi Hlt]. cbn [zip zip_with foldl fst snd].
    rewrite IH by (eapply Forall_impl; [exact Hlt |]; intros ? ?; by rewrite length_insert).
    destruct (decide (p ∈ idx)) as [Hin|Hnin].
    + rewrite decide_True; [done | by right].
    + destruct (decide (p = i)) as [->|Hne].
      * rewrite decide_True by (by left). by rewrite list_lookup_insert_eq.
      * rewrite decide_False by (by intros [?|?]%elem_of_cons).
        by rewrite list_lookup_insert_ne.
Qed.

Lemma scatter_length {A} (dst : list A) (ivs : list (nat * A)) :
  length (foldl (λ acc iv, <[iv.1 := iv.2]> acc) dst ivs) = length dst.
Proof.
  revert dst; induction ivs as [|iv ivs IH]; intros dst; simpl; [done |].
  by rewrite IH, length_insert.
Qed.

Lemma forallb_ltb (n : nat) (idx : list nat) :
  Forall (λ i, i < n) idx → forallb (λ i, i <? n) idx = true.
Proof.
  intros H. apply forallb_forall. intros i Hi. apply Nat.ltb_lt.
  rewrite Forall_forall in H. apply H. by apply list_elem_of_In.
Qed.

(** What [set_col] requires of a declared sub-Jacobian for the row block
    [start, stop): a dense value has one row per entry of the block and has
    the column; a COO value is parallel to its [rows] and [cols], and its
    rows lie in the block. *)
Definition wf_entry (loc_idx start stop : nat) (column : list Q) (m : subjac_meta)
  : Prop :=
  start ≤ stop ≤ length column ∧
  match cols m with
  | None => ∃ C d, val m = PyArray (NdArray [stop - start; C] d)
                   ∧ length d = (stop - start) * C ∧ loc_idx < C
  | Some cs => ∃ rs d, rows m = Some rs ∧ length rs = length cs
                       ∧ val m = PyArray (NdArray [length cs] d)
                       ∧ length d = length cs
                       ∧ Forall (λ r, r < stop - start) rs
  end.

(** The effect of [set_col] on one declared sub-Jacobian: only its value
    changes; a dense value has its column [loc_idx] replaced by the block of
    the column vector; a COO value has the entries whose column is [loc_idx]
    replaced by the entry of the block at their row. *)
Definition col_written (loc_idx start : nat) (column : list Q) (m m' : subjac_meta)
  : Prop :=
  match cols m with
  | None =>
      ∃ R C d d', val m = PyArray (NdArray [R; C] d)
        ∧ m' = set_val m (PyArray (NdArray [R; C] d'))
        ∧ length d' = length d
        ∧ ∀ r c, r < R → c < C →
            d' !! (r * C + c)
            = if decide (c = loc_idx) then column !! (start + r)
              else d !! (r * C + c)
  | Some cs =>
      ∃ rs d d', rows m = Some rs
        ∧ val m = PyArray (NdArray [length cs] d)
        ∧ m' = set_val m (PyArray (NdArray [length cs] d'))
        ∧ length d' = length d
        ∧ ∀ k, d' !! k
               = if decide (cs !! k = Some loc_idx)
                 then r ← rs !! k; column !! (start + r)
                 else d !! k
  end.

Lemma set_val_id (m : subjac_meta) (v : pyval) : val m = v → set_val m v = m.
Proof. intros <-. by destruct m. Qed.

Lemma set_col_block_spec (wrt : string) (loc_idx : nat) (column : list Q)
    (info : gmap key subjac_meta) (of_ : string) (start stop : nat) (m : subjac_meta) :
  info !! (of_, wrt) = Some m →
  wf_entry loc_idx start stop column m →
  ∃ m', set_col_block wrt loc_idx column info (of_, start, stop)
        = Ok (<[(of_, wrt) := m']> info)
        ∧ col_written loc_idx start column m m'.
Proof.
  intros Hm [Hrange Hwf]. unfold set_col_block, col_written. rewrite Hm.
  destruct (cols m) as [cs|].
  - destruct Hwf as (rs & d & Hrows & Hlen & Hval & Hd & Hrs).
    destruct (Nat.ltb_spec 0 (length (match_inds cs loc_idx))) as [Hpos|Hzero].
    + rewrite Hrows. cbn [of_option mbind result_bind rbind].
      destruct (gather_Ok rs (match_inds cs loc_idx)) as (ri & -> & Hri).
      { apply Forall_forall. intros k Hk. apply elem_of_match_inds, lookup_lt_Some in Hk. lia. }
      cbn [mbind result_bind rbind].
      destruct (gather_Ok (slice start stop column) ri) as (vs & -> & Hvs).
      { rewrite slice_length by lia. apply Forall_forall. intros r Hr.
        apply list_elem_of_lookup in Hr as [t Ht].
        destruct (Forall2_lookup_r _ _ _ _ _ Hri Ht) as (k & _ & Hk).
        rewrite Forall_forall in Hrs. apply Hrs. by eapply list_elem_of_lookup_2. }
      cbn [mbind result_bind rbind]. rewrite Hval. cbn [as_array mbind result_bind rbind shape data].
      assert (Hmi : Forall (λ i, i < length d) (match_inds cs loc_idx)).
      { apply Forall_forall. intros k Hk. apply elem_of_match_inds, lookup_lt_Some in Hk. lia. }
      unfold scatter. rewrite forallb_ltb by done. cbn [mbind result_bind rbind].
      eexists. split; [done |].
      exists rs, d. eexists. split; [done |]. split; [done |]. split; [done |].
      split; [apply scatter_length |].
      intros k.
      rewrite (scatter_fun_lookup (λ k, r ← rs !! k; column !! (start + r))); [| | done].
      * destruct (decide (k ∈ match_inds cs loc_idx)) as [Hin|Hnin].
        -- rewrite decide_True; [done | by apply elem_of_match_inds].
        -- rewrite decide_False; [done | by rewrite <- elem_of_match_inds].
      * clear -Hri Hvs Hrs. revert vs Hvs.
        induction Hri as [|k r mi ri Hk Hri IH]; intros vs Hvs.
        -- apply Forall2_nil_inv_l in Hvs as ->. constructor.
        -- apply Forall2_cons_inv_l in Hvs as (v & vs' & Hv & Hvs & ->).
           constructor; [| by apply IH].
           rewrite Hk. cbn [mbind option_bind]. rewrite <- Hv. symmetry.
           apply slice_lookup. rewrite Forall_forall in Hrs. apply Hrs.
           by eapply list_elem_of_lookup_2.
    + exists m. split; [by rewrite insert_id |].
      exists rs, d, d. split; [done |]. split; [done |].
      split; [by rewrite set_val_id |]. split; [done |].
      intros k. rewrite decide_False; [done |].
      intros Hk. apply elem_of_match_inds in Hk.
      destruct (match_inds cs loc_idx); [by apply elem_of_nil in Hk | simpl in Hzero; lia].
  - destruct Hwf as (C & d & Hval & Hd & Hloc). rewrite Hval.
    cbn [as_array mbind result_bind rbind].
    destruct (set_column_spec (stop - start) C d (slice start stop column) loc_idx)
      as (d' & -> & Hlen & Hlk); [done | by apply slice_length; lia | done |].
    cbn [mbind result_bind rbind]. eexists. split; [done |].
    exists (stop - start), C, d, d'. split; [done |]. split; [done |]. split; [done |].
    intros r c Hr Hc. rewrite Hlk by done. case_decide; [| done].
    by apply slice_lookup.
Qed.

(** *** The loop over the row blocks *)

Lemma for_each_set_col (wrt : string) (loc_idx : nat) (column : list Q)
    (blks : list (string * nat * nat)) (info : gmap key subjac_meta) :
  NoDup (names blks) →
  (∀ of_ start stop m,
     (of_, start, stop) ∈ blks → info !! (of_, wrt) = Some m →
     wf_entry loc_idx start stop column m) →
  ∃ info', for_each (set_col_block wrt loc_idx column) info blks = Ok info'
    ∧ (∀ k : key, k.2 ≠ wrt ∨ k.1 ∉ names blks → info' !! k = info !! k)
    ∧ (∀ k : key, info !! k = None → info' !! k = None)
    ∧ (∀ of_ start stop m,
         (of_, start, stop) ∈ blks → info !! (of_, wrt) = Some m →
         ∃ m', info' !! (of_, wrt) = Some m'
               ∧ col_written loc_idx start column m m').
Proof.
  revert info; induction blks as [|[[of_ start] stop] blks IH]; intros info Hnd Hwf.
  - exists info. split; [done |]. split; [done |]. split; [done |].
    intros ???? Hin. by apply elem_of_nil in Hin.
  - unfold names in Hnd. rewrite fmap_cons in Hnd. cbn [fst] in Hnd.
    apply NoDup_cons in Hnd as [Hfresh Hnd]. fold (names blks) in Hfresh, Hnd.
    cbn [for_each].
    assert (Hother : ∀ o a b, (o, a, b) ∈ blks → o ≠ of_).
    { intros o a b Hin ->. apply Hfresh. unfold names.
      apply list_elem_of_fmap. by exists (of_, a, b). }
    destruct (info !! (of_, wrt)) as [m|] eqn:Hm.
    + destruct (set_col_block_spec wrt loc_idx column info of_ start stop m Hm)
        as (m' & -> & Hw).
      { apply (Hwf of_ start stop m); [by left | done]. }
      cbn [mbind result_bind rbind].
      destruct (IH (<[(of_, wrt) := m']> info) Hnd) as (info' & -> & Hsame & Hnone & Hpost).
      { intros o a b m2 Hin Hlk. rewrite lookup_insert_ne in Hlk.
        - apply (Hwf o a b m2); [by right | done].
        - intros [= <-]. by eapply Hother. }
      exists info'. split; [done |]. split; [|split].
      * intros k Hk. rewrite Hsame.
        -- apply lookup_insert_ne. intros <-. cbn [fst snd] in Hk.
           destruct Hk as [Hk|Hk]; [done |]. apply Hk. unfold names.
           rewrite fmap_cons. by left.
        -- destruct Hk as [Hk|Hk]; [by left | right].
           intros Hin. apply Hk. unfold names. rewrite fmap_cons. by right.
      * intros k Hk. apply Hnone. rewrite lookup_insert_ne; [done |].
        intros <-. congruence.
      * intros o a b m2 Hin Hlk. apply elem_of_cons in Hin as [Heq|Hin].
        -- injection Heq as -> -> ->. assert (m2 = m) as -> by congruence.
           exists m'. split; [| done].
           rewrite Hsame by (by right). apply lookup_insert_eq.
        -- apply (Hpost o a b m2); [done |]. rewrite lookup_insert_ne; [done |].
           intros [= <-]. by eapply Hother.
    + assert (set_col_block wrt loc_idx column info (of_, start, stop) = Ok info) as ->.
      { unfold set_col_block. by rewrite Hm. }
      cbn [mbind result_bind rbind].
      destruct (IH info Hnd) as (info' & -> & Hsame & Hnone & Hpost).
      { intros o a b m2 Hin Hlk. apply (Hwf o a b m2); [by right | done]. }
      exists info'. split; [done |]. split; [|split].
      * intros k [Hk|Hk]; [apply Hsame; by left |].
        destruct (decide (k = (of_, wrt))) as [->|Hne].
        -- rewrite Hm. by apply Hnone.
        -- destruct (decide (k.2 = wrt)) as [Hw|Hw]; [| apply Hsame; by left].
           apply Hsame. right. intros Hin. apply Hk. unfold names.
           rewrite fmap_cons. by right.
      * done.
      * intros o a b m2 Hin Hlk. apply elem_of_cons in Hin as [Heq|Hin].
        -- injection Heq as -> -> ->. congruence.
        -- by apply (Hpost o a b m2).
Qed.

(** The index maps of the Jacobian are either still to be built, or were
    built by [_setup_index_maps] for this system. *)
Definition index_maps_current (system : System) (self : Jacobian) : Prop :=
  _col_varnames self = None
  ∨ ∃ self0 selfm, _setup_index_maps system self0 = Ok selfm
      ∧ is_Some (_col_varnames self)
      ∧ _col_varnames self = _col_varnames selfm
      ∧ _col2name_ind self = _col2name_ind selfm
      ∧ _col_var_offset self = _col_var_offset selfm.


End SetCol.

Section SetColExamples.
Import Jac.


Example set_col_dense_example :
  ∃ self', set_col demo_system demo_jac 1 [10; 20]%Q = Ok self'
    ∧ _subjacs_info self' !! ("y", "x")
      = Some (set_val demo_dense (PyArray (NdArray [2; 2] [1; 10; 3; 20]%Q)))
    ∧ _subjacs_info self' !! ("y", "z") = Some demo_coo.
Proof. eexists. split; [by vm_compute |]. split; by vm_compute. Qed.

End SetColExamples.

(** ** Random sub-Jacobians: [_randomize_subjac] *)

Section Randomize.
Import Jac.

(** The generator draws from the half-open interval [0, 1). *)
Definition unit_interval (g : randgen) : Prop :=
  ∀ i, (0 <= draws g i)%Q ∧ (draws g i < 1)%Q.

(** What is claimed of a random entry: it is a draw plus one, so it lies in
    [1, 2) and is not zero. *)
Definition random_entry (g : randgen) (x : Q) : Prop :=
  (∃ i, x = (draws g i + 1)%Q) ∧ (1 <= x)%Q ∧ (x < 2)%Q ∧ ¬ (x == 0)%Q.

Lemma random_entry_intro (g : randgen) (i : nat) :
  unit_interval g → random_entry g (draws g i + 1)%Q.
Proof.
  intros Hu. destruct (Hu i) as [H0 H1].
  split; [by exists i |]. split; [Lqa.lra |]. split; [Lqa.lra |].
  intros Hz. Lqa.lra.
Qed.

Lemma random_entries (g : randgen) (n : nat) :
  unit_interval g →
  length (add_one (random n g).1) = n
  ∧ Forall (random_entry g) (add_one (random n g).1).
Proof.
  intros Hu. unfold add_one, random. cbn [fst]. split.
  - by rewrite !length_fmap, length_seq.
  - rewrite <- list_fmap_compose. apply Forall_fmap, Forall_forall.
    intros i _. by apply random_entry_intro.
Qed.

(** Writing values at indices that may repeat: an index that is not
    written keeps its entry, an index that is written holds one of the values
    written at it. *)
Lemma scatter_lookup {A} (idx : list nat) (vals dst : list A) (p : nat) :
  length idx = length vals →
  Forall (λ i, i < length dst) idx →
  let r := foldl (λ acc iv, <[iv.1 := iv.2]> acc) dst (zip idx vals) in
  (p ∉ idx → r !! p = dst !! p)
  ∧ (p ∈ idx → ∃ t v, idx !! t = Some p ∧ vals !! t = Some v ∧ r !! p = Some v).
Proof.
  revert vals dst; induction idx as [|i idx IH]; intros vals dst Hlen Hlt r.
  - split; [done |]. intros Hp. by apply elem_of_nil in Hp.
  - destruct vals as [|v vals]; [done |]. simpl in Hlen.
    apply Forall_cons in Hlt as [Hi Hlt].
    assert (Hlt' : Forall (λ i0, i0 < length (<[i:=v]> dst)) idx).
    { eapply Forall_impl; [exact Hlt |]. intros ? ?. by rewrite length_insert. }
    destruct (IH vals (<[i:=v]> dst) ltac:(lia) Hlt') as [IHout IHin].
    subst r. cbn [zip zip_with foldl fst snd]. split.
    + intros Hp. apply not_elem_of_cons in Hp as [Hne Hp].
      rewrite IHout by done. by apply list_lookup_insert_ne.
    + intros Hp. destruct (decide (p ∈ idx)) as [Hin|Hnin].
      * destruct (IHin Hin) as (t & w & Ht & Hw & Hr).
        by exists (S t), w.
      * apply elem_of_cons in Hp as [->|Hp]; [| done].
        exists 0, v. split; [done |]. split; [done |].
        rewrite IHout by done. by apply list_lookup_insert_eq.
Qed.

Lemma flat_index_inj (C r c r' c' : nat) :
  c < C → c' < C → r * C + c = r' * C + c' → r = r' ∧ c = c'.
Proof.
  intros Hc Hc' Heq.
  assert (Hr : r = (r * C + c) / C) by (apply (Nat.div_unique _ C r c); lia).
  assert (Hr' : r' = (r' * C + c') / C) by (apply (Nat.div_unique _ C r' c'); lia).
  rewrite Heq, <- Hr' in Hr. subst r'. split; [done | lia].
Qed.

(** [r[rows, cols] = vals] on an array of zeros. *)
Lemma set_coords_zeros (R C : nat) (rows cols : list nat) (vals : list Q) :
  length rows = length cols → length vals = length rows →
  Forall (λ i, i < R) rows → Forall (λ j, j < C) cols →
  ∃ d, set_coords (np_zeros [R; C]) rows cols vals = Ok (NdArray [R; C] d)
    ∧ length d = R * C
    ∧ ∀ r c, r < R → c < C →
        ((r, c) ∉ zip rows cols → d !! (r * C + c) = Some 0%Q)
        ∧ ((r, c) ∈ zip rows cols → ∃ v, v ∈ vals ∧ d !! (r * C + c) = Some v).
Proof.
  intros Hlen Hvals Hrows Hcols. unfold set_coords, np_zeros. cbn [shape data].
  rewrite (proj2 (Nat.eqb_eq _ _) Hlen). cbn [negb].
  rewrite !forallb_ltb by done. cbn [andb].
  assert (Hsz : size_of [R; C] = R * C) by (cbn; lia). rewrite Hsz.
  set (idx := zip_with (λ i j, i * C + j) rows cols).
  assert (Hidx : Forall (λ i, i < length (replicate (R * C) 0%Q)) idx).
  { rewrite length_replicate. subst idx. apply Forall_forall. intros p Hp.
    apply list_elem_of_lookup in Hp as [t Ht].
    apply lookup_zip_with_Some in Ht as (i & j & -> & Hi & Hj).
    rewrite Forall_forall in Hrows, Hcols.
    pose proof (Hrows i ltac:(by eapply list_elem_of_lookup_2)).
    pose proof (Hcols j ltac:(by eapply list_elem_of_lookup_2)). nia. }
  unfold scatter. rewrite forallb_ltb by done. cbn [mbind result_bind rbind].
  eexists. split; [done |]. split; [by rewrite scatter_length, length_replicate |].
  intros r c Hr Hc.
  assert (Hmem : r * C + c ∈ idx ↔ (r, c) ∈ zip rows cols).
  { subst idx. rewrite !list_elem_of_lookup. split; intros [t Ht]; exists t.
    - apply lookup_zip_with_Some in Ht as (i & j & Heq & Hi & Hj).
      rewrite Forall_forall in Hcols.
      pose proof (Hcols j ltac:(by eapply list_elem_of_lookup_2)).
      destruct (flat_index_inj C r c i j) as [-> ->]; [done | done | done |].
      apply lookup_zip_with_Some. by exists i, j.
    - apply lookup_zip_with_Some in Ht as (i & j & Heq & Hi & Hj).
      injection Heq as -> ->. apply lookup_zip_with_Some. by exists i, j. }
  destruct (scatter_lookup idx vals (replicate (R * C) 0%Q) (r * C + c)) as [Hout Hin];
    [subst idx; rewrite length_zip_with; lia | done |].
  split.
  - intros Hn. rewrite Hout by (by rewrite Hmem).
    apply lookup_replicate_2. nia.
  - intros Hy. destruct Hin as (t & v & _ & Hv & Hd); [by rewrite Hmem |].
    exists v. split; [by eapply list_elem_of_lookup_2 | done].
Qed.

(** C4 (amended) — [_randomize_subjac]: for a scipy sparse value, every
    stored entry of the returned copy is a draw plus one (in [1, 2), not
    zero), whatever the metadata records; for any other value, with a
    recorded ['sparsity'] (rows, cols, shape) the result is an array of that
    shape that is zero outside the recorded coordinates and holds a draw plus
    one at each recorded coordinate; and for an array with no recorded
    sparsity every entry of the dense block is a draw plus one. *)
Theorem randomize_subjac_spec (self : Jacobian) (rg : randgen) (subjac : pyval) (k : key) :
  unit_interval rg →
  (∀ m, subjac = PySparse m →
     ∃ d, (_randomize_subjac self rg subjac k).1
          = Ok (PySparse (SpMatrix (sp_shape m) (sp_coords m) d))
          ∧ length d = length (sp_data m)
          ∧ Forall (random_entry rg) d)
  ∧ (∀ meta, issparse subjac = false → _subjacs_info self !! k = Some meta →
       (∀ rows cols R C,
          sparsity meta = Some (rows, cols, (R, C)) →
          length rows = length cols →
          Forall (λ i, i < R) rows → Forall (λ j, j < C) cols →
          ∃ d, (_randomize_subjac self rg subjac k).1 = Ok (PyArray (NdArray [R; C] d))
            ∧ length d = R * C
            ∧ ∀ r c, r < R → c < C →
                ((r, c) ∉ zip rows cols → d !! (r * C + c) = Some 0%Q)
                ∧ ((r, c) ∈ zip rows cols →
                   ∃ x, d !! (r * C + c) = Some x ∧ random_entry rg x))
       ∧ (∀ a, subjac = PyArray a → sparsity meta = None →
          ∃ d, (_randomize_subjac self rg subjac k).1
               = Ok (PyArray (NdArray (shape a) d))
            ∧ length d = size_of (shape a)
            ∧ Forall (random_entry rg) d)).
Proof.
  intros Hu. split.
  - intros m ->. unfold _randomize_subjac.
    destruct (random_entries rg (length (sp_data m)) Hu) as [Hlen Hall].
    destruct (random (length (sp_data m)) rg) as [d rg'] eqn:Hr. cbn [fst] in *.
    by exists (add_one d).
  - intros meta Hns Hmeta. split.
    + intros rows cols R C Hsp Hlen Hrows Hcols.
      assert (Hrun : _randomize_subjac self rg subjac k
                     = (a ← set_coords (np_zeros [R; C]) rows cols
                                       (add_one (random (length rows) rg).1);
                        Ok (PyArray a), (random (length rows) rg).2)).
      { unfold _randomize_subjac. rewrite Hmeta, Hsp.
        destruct (random (length rows) rg) as [v rg'].
        by destruct subjac. }
      rewrite Hrun. cbn [fst].
      destruct (random_entries rg (length rows) Hu) as [Hvlen Hall].
      destruct (set_coords_zeros R C rows cols (add_one (random (length rows) rg).1)
                  Hlen Hvlen Hrows Hcols) as (d & -> & Hd & Hlk).
      exists d. split; [done |]. split; [done |].
      intros r c Hr' Hc'. destruct (Hlk r c Hr' Hc') as [H0 H1]. split; [done |].
      intros Hin. destruct (H1 Hin) as (x & Hx & Hdx). exists x. split; [done |].
      rewrite Forall_forall in Hall. by apply Hall.
    + intros a -> Hsp. unfold _randomize_subjac. rewrite Hmeta, Hsp.
      destruct (random_entries rg (size_of (shape a)) Hu) as [Hvlen Hall].
      destruct (random (size_of (shape a)) rg) as [v rg'] eqn:Hr. cbn [fst] in *.
      by exists (add_one v).
Qed.

End Randomize.

Section RandomizeExamples.
Import Jac.

Definition demo_randgen : randgen :=
  {| draws := λ i, if Nat.even i then (1 # 2)%Q else (1 # 3)%Q; pos := 0 |}.

Lemma demo_randgen_unit_interval : unit_interval demo_randgen.
Proof.
  intros i. unfold demo_randgen. cbn [draws].
  destruct (Nat.even i); split; Lqa.lra.
Qed.

Definition demo_colored : subjac_meta :=
  {| rows := None; cols := None;
     val := PyArray (NdArray [2; 2] [1; 2; 3; 4]%Q);
     dependent := true; sparsity := Some ([0; 1], [1; 0], (2, 2)) |}.

Definition demo_colored_jac : Jacobian :=
  __init__ (<[("y", "x") := demo_colored]> ∅).

Lemma randomize_subjac_spec_witness :
  ∃ d, (_randomize_subjac demo_colored_jac demo_randgen
          (PyArray (NdArray [2; 2] [1; 2; 3; 4]%Q)) ("y", "x")).1
       = Ok (PyArray (NdArray [2; 2] d))
    ∧ d = [0; (1 # 2) + 1; (1 # 3) + 1; 0]%Q.
Proof.
  destruct (randomize_subjac_spec demo_colored_jac demo_randgen
              (PyArray (NdArray [2; 2] [1; 2; 3; 4]%Q)) ("y", "x")
              demo_randgen_unit_interval) as [_ Hdense].
  destruct (Hdense demo_colored eq_refl ltac:(by vm_compute)) as [Hsp _].
  destruct (Hsp [0; 1] [1; 0] 2 2 eq_refl eq_refl
              ltac:(repeat constructor) ltac:(repeat constructor))
    as (d & Hd & _).
  exists d. split; [exact Hd |].
  vm_compute in Hd. by injection Hd as <-.
Defined.

(** A scipy sparse value that stores the diagonal of a 2x2 block. *)
Definition demo_sparse_val : spmatrix :=
  {| sp_shape := (2, 2); sp_coords := [(0, 0); (1, 1)]; sp_data := [5; 7]%Q |}.

(** C4 as stated fails: the metadata records a sparsity (the anti-diagonal),
    the value is a scipy sparse matrix, and the result holds random entries at
    the stored coordinates of the matrix (the diagonal), which are outside
    the recorded sparsity. *)
Lemma randomize_sparse_ignores_sparsity :
  _subjacs_info demo_colored_jac !! ("y", "x") = Some demo_colored
  ∧ sparsity demo_colored = Some ([0; 1], [1; 0], (2, 2))
  ∧ (_randomize_subjac demo_colored_jac demo_randgen (PySparse demo_sparse_val)
       ("y", "x")).1
    = Ok (PySparse {| sp_shape := (2, 2); sp_coords := [(0, 0); (1, 1)];
                      sp_data := [(1 # 2) + 1; (1 # 3) + 1]%Q |})
  ∧ ((0, 0) ∉ zip [0; 1] [1; 0])
  ∧ ¬ Qeq ((1 # 2) + 1)%Q 0%Q.
Proof.
  split; [by vm_compute |]. split; [done |]. split; [by vm_compute |]. split.
  - intros Hin. apply elem_of_cons in Hin as [Hin|Hin]; [done |].
    apply elem_of_cons in Hin as [Hin|Hin]; [done |]. by apply elem_of_nil in Hin.
  - intros Hz. vm_compute in Hz. discriminate.
Qed.

End RandomizeExamples.

(** ** The perturbation runner: what [_run_point] leaves behind *)

Section RunPoint.
Import Approx.

(** The entries at [idxs] changed by [op _ delta], the others kept. *)
Definition shift (op : Z → Z → Z) (idxs : list nat) (delta : Z) (a : list Z)
  : list Z :=
  imap (λ k x, if bool_decide (k ∈ idxs) then op x delta else x) a.

(** The system after one step of a perturbation loop that does not raise:
    a name that is an output is changed in the outputs, any other name in
    the inputs. *)
Definition shift_sys (op : Z → Z → Z) (d : string * list nat * Z) (s : System)
  : System :=
  if decide (is_Some (_outputs s !! d.1.1))
  then set_outputs (alter (shift op d.1.2 d.2) d.1.1 (_outputs s)) s
  else set_inputs (alter (shift op d.1.2 d.2) d.1.1 (_inputs s)) s.

(** A delta is valid when its name is a variable of the system and its
    indices are indices of that variable. *)
Definition valid_delta (s : System) (d : string * list nat * Z) : bool :=
  match _outputs s !! d.1.1 with
  | Some a => forallb (λ i, i <? length a) d.1.2
  | None =>
      match _inputs s !! d.1.1 with
      | Some a => forallb (λ i, i <? length a) d.1.2
      | None => false
      end
  end.

Definition with_system (w : World) (s : System) : World :=
  {| system := s; cache := cache w; results := results w; calls := calls w |}.

Lemma forallb_ltb_inv (n : nat) (idx : list nat) :
  forallb (λ i, i <? n) idx = true → Forall (λ i, i < n) idx.
Proof.
  intros H. apply Forall_forall. intros i Hi.
  rewrite forallb_forall in H. apply Nat.ltb_lt, H. by apply list_elem_of_In.
Qed.

Lemma inplace_valid (op : Z → Z → Z) (a : list Z) (idxs : list nat) (delta : Z) :
  forallb (λ i, i <? length a) idxs = true →
  inplace op a idxs delta = Ok (shift op idxs delta a).
Proof.
  intros Hv. pose proof (forallb_ltb_inv _ _ Hv) as Hlt. unfold inplace.
  destruct (gather_Ok a idxs Hlt) as (vals & -> & HF).
  cbn [mbind result_bind rbind]. unfold scatter. rewrite Hv. f_equal.
  apply list_eq. intros p.
  rewrite (scatter_fun_lookup (λ k, (λ x, op x delta) <$> a !! k)); [| | done].
  - unfold shift. rewrite list_lookup_imap.
    case_decide.
    + rewrite bool_decide_true by done. by destruct (a !! p).
    + rewrite bool_decide_false by done. by destruct (a !! p).
  - apply Forall2_fmap_r. eapply Forall2_impl; [exact HF |].
    intros i v Hi. by rewrite Hi.
Qed.

Lemma insert_as_alter (v : Vector) (n : string) (a : list Z) (f : list Z → list Z) :
  v !! n = Some a → <[n := f a]> v = alter f n v.
Proof.
  intros Hn. apply map_eq. intros k. rewrite lookup_alter.
  destruct (decide (n = k)) as [<-|Hne].
  - by rewrite lookup_insert_eq, Hn.
  - by rewrite lookup_insert_ne.
Qed.

Lemma perturb_valid (op : Z → Z → Z) (d : string * list nat * Z) (w : World) :
  valid_delta (system w) d = true →
  perturb op d w = (Ok (), with_system w (shift_sys op d (system w))).
Proof.
  destruct d as [[n idxs] delta]. unfold valid_delta, perturb, shift_sys. cbn [fst snd].
  destruct (_outputs (system w) !! n) as [a|] eqn:Ho.
  - intros Hv. rewrite decide_True by done.
    unfold mbind, M_bind, bind, lift. rewrite inplace_valid by done.
    unfold set_system, with_system. by rewrite (insert_as_alter _ _ _ _ Ho).
  - rewrite decide_False by (by intros [? ?]).
    destruct (_inputs (system w) !! n) as [a|] eqn:Hi; [| done].
    intros Hv. unfold mbind, M_bind, bind, lift. cbn [of_option].
    rewrite inplace_valid by done.
    unfold set_system, with_system. by rewrite (insert_as_alter _ _ _ _ Hi).
Qed.

Lemma shift_length op idxs delta a : length (shift op idxs delta a) = length a.
Proof. unfold shift. by rewrite length_imap. Qed.

Lemma valid_delta_shift_sys op d' s d :
  valid_delta (shift_sys op d' s) d = valid_delta s d.
Proof.
  unfold valid_delta, shift_sys. case_decide; cbn [_outputs _inputs set_outputs set_inputs].
  - rewrite lookup_alter. case_decide as Hn.
    + rewrite <- Hn. destruct (_outputs s !! d'.1.1); [| done]. simpl.
      by rewrite shift_length.
    + done.
  - destruct (_outputs s !! d.1.1); [done |].
    rewrite lookup_alter. case_decide as Hn; [| done].
    rewrite <- Hn. destruct (_inputs s !! d'.1.1); [| done]. simpl.
    by rewrite shift_length.
Qed.

(** A perturbation loop over valid deltas does not raise. *)
Lemma for_perturb_valid (op : Z → Z → Z) (l : list (string * list nat * Z)) (w : World) :
  Forall (λ d, valid_delta (system w) d = true) l →
  for_ l (perturb op) w
  = (Ok (), with_system w (foldl (λ s d, shift_sys op d s) (system w) l)).
Proof.
  revert w; induction l as [|d l IH]; intros w Hv.
  - by destruct w.
  - apply Forall_cons in Hv as [Hd Hv]. cbn [for_ foldl]. unfold bind.
    rewrite perturb_valid by done. rewrite IH.
    + done.
    + cbn [with_system system]. eapply Forall_impl; [exact Hv |].
      intros d' Hd'. by rewrite valid_delta_shift_sys.
Qed.

Lemma valid_delta_foldl op l s d :
  valid_delta (foldl (λ s d, shift_sys op d s) s l) d = valid_delta s d.
Proof.
  revert s; induction l as [|d' l IH]; intros s; [done |].
  cbn [foldl]. by rewrite IH, valid_delta_shift_sys.
Qed.

(** *** Subtracting undoes adding *)

Definition inverse_ops (op1 op2 : Z → Z → Z) : Prop :=
  (∀ x d, op2 (op1 x d) d = x)
  ∧ (∀ x d e, op1 (op1 x e) d = op1 (op1 x d) e).

Lemma add_sub_inverse : inverse_ops Z.add Z.sub.
Proof. split; intros; lia. Qed.

Lemma shift_undo op1 op2 idxs delta a :
  inverse_ops op1 op2 →
  shift op2 idxs delta (shift op1 idxs delta a) = a.
Proof.
  intros [Hinv _]. apply list_eq. intros k. unfold shift.
  rewrite !list_lookup_imap. destruct (a !! k); [| done]. simpl.
  case_bool_decide; by rewrite ?Hinv.
Qed.

Lemma shift_comm op1 op2 idxs1 idxs2 d1 d2 a :
  inverse_ops op1 op2 →
  shift op1 idxs1 d1 (shift op1 idxs2 d2 a) = shift op1 idxs2 d2 (shift op1 idxs1 d1 a).
Proof.
  intros [_ Hcomm]. apply list_eq. intros k. unfold shift.
  rewrite !list_lookup_imap. destruct (a !! k); [| done]. simpl.
  repeat case_bool_decide; try done. f_equal. apply Hcomm.
Qed.

Lemma is_Some_alter (f : list Z → list Z) (n k : string) (v : Vector) :
  is_Some (alter f n v !! k) ↔ is_Some (v !! k).
Proof.
  rewrite lookup_alter. case_decide; [subst | done]. by rewrite fmap_is_Some.
Qed.

Lemma System_eq (s t : System) :
  _inputs s = _inputs t → _outputs s = _outputs t → _residuals s = _residuals t →
  s = t.
Proof. destruct s, t; simpl; by intros -> -> ->. Qed.

Lemma alter_undo op1 op2 idxs delta n (v : Vector) :
  inverse_ops op1 op2 →
  alter (shift op2 idxs delta) n (alter (shift op1 idxs delta) n v) = v.
Proof.
  intros Hinv. apply map_eq. intros k. rewrite !lookup_alter.
  repeat case_decide; subst; try done. destruct (v !! k); [| done]. simpl.
  by rewrite shift_undo.
Qed.

Lemma alter_shift_comm op1 op2 i1 i2 d1 d2 n1 n2 (v : Vector) :
  inverse_ops op1 op2 →
  alter (shift op1 i1 d1) n1 (alter (shift op1 i2 d2) n2 v)
  = alter (shift op1 i2 d2) n2 (alter (shift op1 i1 d1) n1 v).
Proof.
  intros Hinv. apply map_eq. intros k. rewrite !lookup_alter.
  repeat case_decide; subst; try done.
  destruct (v !! k); [| done]. simpl. by rewrite (shift_comm op1 op2).
Qed.

Lemma shift_sys_out op d s :
  is_Some (_outputs s !! d.1.1) →
  shift_sys op d s = set_outputs (alter (shift op d.1.2 d.2) d.1.1 (_outputs s)) s.
Proof. intros H. unfold shift_sys. by rewrite decide_True. Qed.

Lemma shift_sys_in op d s :
  ¬ is_Some (_outputs s !! d.1.1) →
  shift_sys op d s = set_inputs (alter (shift op d.1.2 d.2) d.1.1 (_inputs s)) s.
Proof. intros H. unfold shift_sys. by rewrite decide_False. Qed.

Ltac shift_sys_cases s :=
  repeat first
    [ rewrite (shift_sys_out _ _ s) by done
    | rewrite (shift_sys_in _ _ s) by done ];
  repeat first
    [ rewrite shift_sys_out
        by (cbn [_outputs set_outputs set_inputs]; rewrite ?is_Some_alter; done)
    | rewrite shift_sys_in
        by (cbn [_outputs set_outputs set_inputs]; rewrite ?is_Some_alter; done) ].

Lemma shift_sys_undo op1 op2 d s :
  inverse_ops op1 op2 → shift_sys op2 d (shift_sys op1 d s) = s.
Proof.
  intros Hinv.
  destruct (decide (is_Some (_outputs s !! d.1.1))) as [Ho|Ho]; shift_sys_cases s.
  - apply System_eq; cbn; [done | by apply alter_undo | done].
  - apply System_eq; cbn; [by apply alter_undo | done | done].
Qed.

Lemma shift_sys_comm op1 op2 d1 d2 s :
  inverse_ops op1 op2 →
  shift_sys op1 d1 (shift_sys op1 d2 s) = shift_sys op1 d2 (shift_sys op1 d1 s).
Proof.
  intros Hinv.
  destruct (decide (is_Some (_outputs s !! d1.1.1))) as [H1|H1];
    destruct (decide (is_Some (_outputs s !! d2.1.1))) as [H2|H2];
    shift_sys_cases s;
    apply System_eq; cbn; try done; by apply (alter_shift_comm op1 op2).
Qed.

Lemma foldl_shift_comm op1 op2 d l s :
  inverse_ops op1 op2 →
  foldl (λ s d, shift_sys op1 d s) (shift_sys op1 d s) l
  = shift_sys op1 d (foldl (λ s d, shift_sys op1 d s) s l).
Proof.
  intros Hinv. revert s; induction l as [|d' l IH]; intros s; [done |].
  cbn [foldl]. rewrite <- IH. f_equal. by apply (shift_sys_comm op1 op2).
Qed.

(** The second loop undoes the first. *)
Lemma foldl_shift_undo op1 op2 l s :
  inverse_ops op1 op2 →
  foldl (λ s d, shift_sys op2 d s) (foldl (λ s d, shift_sys op1 d s) s l) l = s.
Proof.
  intros Hinv. revert s; induction l as [|d l IH]; intros s; [done |].
  cbn [foldl]. rewrite (foldl_shift_comm op1 op2) by done.
  rewrite shift_sys_undo by done. apply IH.
Qed.

(** The loops do not touch the residuals. *)
Lemma shift_sys_set_residuals op d R s :
  shift_sys op d (set_residuals R s) = set_residuals R (shift_sys op d s).
Proof. unfold shift_sys. cbn [set_residuals _outputs _inputs]. by case_decide. Qed.

Lemma foldl_shift_set_residuals op l R s :
  foldl (λ s d, shift_sys op d s) (set_residuals R s) l
  = set_residuals R (foldl (λ s d, shift_sys op d s) s l).
Proof.
  revert s; induction l as [|d l IH]; intros s; [done |].
  cbn [foldl]. by rewrite shift_sys_set_residuals, IH.
Qed.

Lemma foldl_shift_residuals op l s :
  _residuals (foldl (λ s d, shift_sys op d s) s l) = _residuals s.
Proof.
  revert s; induction l as [|d l IH]; intros s; [done |].
  cbn [foldl]. rewrite IH. unfold shift_sys. by case_decide.
Qed.

Lemma valid_delta_set_residuals R s d :
  valid_delta (set_residuals R s) d = valid_delta s d.
Proof. done. Qed.

(** The mode of a call: the entry point that is run and the vector that is
    observed. *)
Definition mode_of (deriv_type : string) (ep : entry_point) (vec : which_vec) : Prop :=
  (deriv_type = "total" ∧ ep = run_solve_nonlinear ∧ vec = Outputs)
  ∨ (deriv_type = "partial" ∧ ep = run_apply_nonlinear ∧ vec = Residuals).

(** The system after the first loop. *)
Definition perturbed (s : System) (input_deltas : list (string * list nat * Z))
  : System :=
  foldl (λ s d, shift_sys Z.add d s) s input_deltas.

Lemma run_point_unfold model input_deltas deriv_type ep vec w :
  mode_of deriv_type ep vec →
  _run_point model input_deltas deriv_type w
  = (for_ input_deltas (perturb Z.add) ;;
     get_data vec ;;
     call model ep ;;
     set_vec vec ;;
     set_data vec ;;
     for_ input_deltas (perturb Z.sub) ;;
     (λ w, (Ok (results w), w))) w.
Proof.
  intros [(-> & -> & ->) | (-> & -> & ->)]; unfold _run_point.
  - by rewrite decide_True.
  - rewrite decide_False by done. by rewrite decide_True.
Qed.

(** C1 (amended) — when the model evaluation raises, the exception is what
    [_run_point] returns, and nothing that follows the evaluation is run: the
    system is left as the failed evaluation left the perturbed system (no
    delta is subtracted), the cache holds the perturbed observed vector, the
    results buffer is untouched, and the entry point was called once. *)
Theorem run_point_raises (model : Model) (input_deltas : list (string * list nat * Z))
    (deriv_type : string) (ep : entry_point) (vec : which_vec) (w : World)
    (e : exn) (s2 : System) :
  mode_of deriv_type ep vec →
  Forall (λ d, valid_delta (system w) d = true) input_deltas →
  model ep (perturbed (system w) input_deltas) = (Some e, s2) →
  _run_point model input_deltas deriv_type w
  = (Raise e,
     {| system := s2;
        cache := get_vec vec (perturbed (system w) input_deltas);
        results := results w;
        calls := calls w ++ [ep] |}).
Proof.
  intros Hmode Hvalid Hmodel. rewrite (run_point_unfold _ _ _ ep vec) by done.
  unfold bind. rewrite for_perturb_valid by done.
  unfold get_data, call. cbn [with_system system cache results calls].
  fold (perturbed (system w) input_deltas). by rewrite Hmodel.
Qed.


End RunPoint.

Section RunPointExamples.
Import Approx.

Definition demo_vectors : System :=
  {| _inputs := {[ "x" := [1; 2]%Z ]};
     _outputs := {[ "y" := [5]%Z ]};
     _residuals := {[ "y" := [7]%Z ]} |}.

Definition demo_world : World :=
  {| system := demo_vectors; cache := ∅; results := ∅; calls := [] |}.

(** An explicit component [y = sum(x)]: solving it writes the output and
    zeroes the residual; evaluating its residual writes [y - sum(x)]. *)
Definition demo_model : Model :=
  λ ep s,
    let sum_x := sumZ (default [] (_inputs s !! "x")) in
    match ep with
    | run_solve_nonlinear =>
        (None, set_residuals {[ "y" := [0%Z] ]} (set_outputs {[ "y" := [sum_x] ]} s))
    | run_apply_nonlinear =>
        let y := sumZ (default [] (_outputs s !! "y")) in
        (None, set_residuals {[ "y" := [(y - sum_x)%Z] ]} s)
    end.

(** A model whose evaluation fails without touching anything. *)
Definition demo_failing_model : Model :=
  λ ep s, (Some (AnalysisError "diverged"), s).

Definition demo_deltas : list (string * list nat * Z) := [("x", [0], 10%Z)].

Lemma demo_deltas_valid :
  Forall (λ d, valid_delta (system demo_world) d = true) demo_deltas.
Proof. repeat constructor. Qed.

Lemma run_point_raises_witness :
  (_run_point demo_failing_model demo_deltas "total" demo_world).1
  = Raise (AnalysisError "diverged")
  ∧ system (_run_point demo_failing_model demo_deltas "total" demo_world).2
    = perturbed demo_vectors demo_deltas.
Proof.
  rewrite (run_point_raises demo_failing_model demo_deltas "total"
             run_solve_nonlinear Outputs demo_world (AnalysisError "diverged")
             (perturbed demo_vectors demo_deltas)
             ltac:(by left) demo_deltas_valid eq_refl).
  done.
Defined.

(** C1 as stated fails: the evaluation raises, the exception reaches the
    caller, and the input that was perturbed still holds its delta. *)
Lemma run_point_failure_stays_perturbed :
  (_run_point demo_failing_model demo_deltas "total" demo_world).1
  = Raise (AnalysisError "diverged")
  ∧ _inputs (system demo_world) !! "x" = Some [1; 2]%Z
  ∧ _inputs (system (_run_point demo_failing_model demo_deltas "total" demo_world).2)
      !! "x" = Some [11; 2]%Z
  ∧ _inputs (system (_run_point demo_failing_model demo_deltas "total" demo_world).2)
    ≠ _inputs (system demo_world).
Proof.
  split; [by vm_compute |]. split; [by vm_compute |]. split; [by vm_compute |].
  intros Heq. apply (f_equal (λ v : Vector, v !! "x")) in Heq.
  vm_compute in Heq. discriminate.
Qed.



End RunPointExamples.

(** ** Distributed reductions: [get_norm] and [dot] *)

Section PetscFacts.
Import Petsc.

(** A variable is a duplicate on a process when the communicator has more
    than one process, the variable is not distributed, and another rank
    owns it. *)
Definition loop_cond (system : System) (name : string) : bool :=
  match _owning_rank system !! name, var_distributed system !! name with
  | Some o, Some d => negb d && negb (o =? comm_rank system)
  | _, _ => false
  end.

Definition is_dup (system : System) (name : string) : bool :=
  (1 <? comm_size system) && loop_cond system name.

(** The data array with the duplicated variables zeroed, and the entries
    of the variables that are not duplicates. *)
Definition zeroed (system : System) (views : list (string * list Z)) : list Z :=
  flat_map (λ v, if is_dup system v.1 then replicate (length v.2) 0%Z else v.2) views.

Definition owned_entries (system : System) (self : PETScVector) : list Z :=
  flat_map (λ v, if is_dup system v.1 then [] else v.2) (_views_flat self).

Definition dups_of (cond : string → bool) (rs : list (string * nat * nat)) : list nat :=
  flat_map (λ r, if cond r.1.1 then seq r.1.2 (r.2 - r.1.2) else []) rs.

Lemma dup_step_eq system acc name start stop :
  dup_step system acc (name, start, stop)
  = match _owning_rank system !! name, var_distributed system !! name with
    | Some _, Some _ =>
        Ok (acc ++ if loop_cond system name then seq start (stop - start) else [])
    | _, _ => Raise KeyError
    end.
Proof.
  unfold dup_step, loop_cond.
  destruct (_owning_rank system !! name) as [o|]; [| done].
  destruct (var_distributed system !! name) as [d|]; [| done].
  cbn [of_option mbind result_bind rbind].
  destruct (negb d && negb (o =? comm_rank system)); [done |].
  by rewrite app_nil_r.
Qed.

Lemma for_each_dup_step_inv system acc rs dups :
  for_each (dup_step system) acc rs = Ok dups →
  dups = acc ++ dups_of (loop_cond system) rs.
Proof.
  revert acc; induction rs as [|[[name start] stop] rs IH]; intros acc H.
  - cbn in H. injection H as <-. by rewrite app_nil_r.
  - cbn [for_each] in H. rewrite dup_step_eq in H.
    unfold dups_of. cbn [flat_map fst snd]. fold (dups_of (loop_cond system) rs).
    destruct (_owning_rank system !! name) as [o|]; [| done].
    destruct (var_distributed system !! name) as [d|]; [| done].
    cbn [mbind result_bind rbind] in H. apply IH in H. rewrite H.
    by rewrite <- app_assoc.
Qed.

Lemma dups_of_bounds cond o views x :
  x ∈ dups_of cond (ranges_from o views) →
  o ≤ x < o + length (concat (views.*2)).
Proof.
  revert o; induction views as [|[name a] views IH]; intros o Hx.
  - by apply elem_of_nil in Hx.
  - cbn [ranges_from] in Hx. unfold dups_of in Hx. cbn [flat_map fst snd] in Hx.
    fold (dups_of cond (ranges_from (o + length a) views)) in Hx.
    rewrite fmap_cons. cbn [concat snd]. rewrite length_app.
    apply elem_of_app in Hx as [Hx|Hx].
    + destruct (cond name); [| by apply elem_of_nil in Hx].
      apply elem_of_seq in Hx. lia.
    + apply IH in Hx. lia.
Qed.

Lemma ranges_from_last o views r :
  last (ranges_from o views) = Some r → r.2 = o + length (concat (views.*2)).
Proof.
  revert o; induction views as [|[name a] views IH]; intros o H; [done |].
  cbn [ranges_from] in H. rewrite fmap_cons. cbn [concat snd]. rewrite length_app.
  destruct views as [|v views].
  - cbn in H. injection H as <-. cbn. lia.
  - destruct v as [n' a']. cbn [ranges_from] in H. rewrite last_cons_cons in H.
    change ((n', o + length a, o + length a + length a')
              :: ranges_from (o + length a + length a') views)
      with (ranges_from (o + length a) ((n', a') :: views)) in H.
    apply IH in H. lia.
Qed.

(** Zeroing the duplicate indices is zeroing the duplicated variables. *)
Lemma zero_out_views system o views :
  (1 <? comm_size system) = true →
  imap (λ k x, if bool_decide (o + k ∈ dups_of (loop_cond system) (ranges_from o views))
               then 0%Z else x) (concat (views.*2))
  = zeroed system views.
Proof.
  intros Hsz. revert o; induction views as [|[name a] views IH]; intros o; [done |].
  rewrite fmap_cons. cbn [concat snd ranges_from]. unfold zeroed, dups_of.
  cbn [flat_map fst snd].
  fold (dups_of (loop_cond system) (ranges_from (o + length a) views)).
  fold (zeroed system views).
  rewrite imap_app. f_equal.
  - unfold is_dup. rewrite Hsz. cbn [andb].
    replace (o + length a - o) with (length a) by lia.
    apply list_eq. intros k. rewrite list_lookup_imap.
    destruct (a !! k) as [x|] eqn:Hk.
    + pose proof (lookup_lt_Some _ _ _ Hk) as Hlt. simpl.
      destruct (loop_cond system name).
      * rewrite bool_decide_true.
        -- symmetry. f_equal. by apply lookup_replicate_2.
        -- apply elem_of_app. left. apply elem_of_seq. lia.
      * rewrite bool_decide_false; [done |].
        intros Hin. apply elem_of_app in Hin as [Hin|Hin];
          [by apply elem_of_nil in Hin |].
        apply dups_of_bounds in Hin. lia.
    + simpl. apply lookup_ge_None in Hk. symmetry.
      destruct (loop_cond system name).
      * apply lookup_ge_None. by rewrite length_replicate.
      * by apply lookup_ge_None.
  - rewrite <- (IH (o + length a)). apply imap_ext. intros k x _. simpl.
    replace (o + (length a + k)) with (o + length a + k) by lia.
    erewrite bool_decide_ext; [reflexivity |].
    rewrite elem_of_app. split; [| by right].
    intros [Hin|Hin]; [| done].
    destruct (loop_cond system name); [| by apply elem_of_nil in Hin].
    apply elem_of_seq in Hin. lia.
Qed.

Lemma sum_sq_app a b : sum_sq (a ++ b) = (sum_sq a + sum_sq b)%Z.
Proof. unfold sum_sq. by rewrite fmap_app, sumZ_app. Qed.

Lemma sum_sq_zeros n : sum_sq (replicate n 0%Z) = 0%Z.
Proof. unfold sum_sq. rewrite fmap_replicate, sumZ_replicate. lia. Qed.

Lemma sum_sq_nonneg a : (0 ≤ sum_sq a)%Z.
Proof.
  unfold sum_sq. induction a as [|x a IH]; [done |].
  rewrite fmap_cons. change (sumZ ((x * x)%Z :: ((λ x, x * x)%Z <$> a)))
    with (x * x + sumZ ((λ x, x * x)%Z <$> a))%Z.
  pose proof (Z.square_nonneg x). lia.
Qed.

(** The zeroed entries add nothing to the sum of squares. *)
Lemma sum_sq_zeroed system self :
  sum_sq (zeroed system (_views_flat self)) = sum_sq (owned_entries system self).
Proof.
  unfold zeroed, owned_entries.
  induction (_views_flat self) as [|[name a] views IH]; [done |].
  cbn [flat_map fst snd]. rewrite !sum_sq_app, IH.
  destruct (is_dup system name); [| done].
  by rewrite sum_sq_zeros.
Qed.

(** After [_init_dup_inds], [_get_nodup] returns the zeroed data array and
    leaves the variables of the vector as they are. *)
Lemma get_nodup_spec system self0 self :
  _init_dup_inds system self0 = Ok self →
  ∃ self', _get_nodup self = (Ok (zeroed system (_views_flat self)), self')
           ∧ _views_flat self' = _views_flat self.
Proof.
  unfold _init_dup_inds. destruct (1 <? comm_size system) eqn:Hsz.
  - destruct (for_each (dup_step system) [] (ranges self0)) as [dups|] eqn:Hfe; [| done].
    cbn [mbind result_bind rbind]. intros [= <-].
    apply for_each_dup_step_inv in Hfe. cbn [app] in Hfe. unfold ranges in *.
    unfold _get_nodup. cbn [_dup_inds _dup_scratch _views_flat asarray].
    pose proof (zero_out_views system 0 (_views_flat self0) Hsz) as Hz.
    cbn [Nat.add] in Hz. rewrite <- Hfe in Hz.
    destruct (0 <? length dups) eqn:Hlen.
    + destruct (last (ranges_from 0 (_views_flat self0))) as [r|] eqn:Hlast.
      2:{ apply last_None in Hlast. rewrite Hlast in Hfe. cbn in Hfe. by subst dups. }
      apply ranges_from_last in Hlast. cbn [Nat.add] in Hlast.
      unfold asarray. cbn [_views_flat]. rewrite length_replicate, Hlast, Nat.eqb_refl.
      assert (Hlt : Forall (λ i, i < length (concat (_views_flat self0).*2)) dups).
      { apply Forall_forall. intros x Hx. rewrite Hfe in Hx.
        apply dups_of_bounds in Hx. lia. }
      unfold scatter. rewrite forallb_ltb by done.
      assert (Heq : foldl (λ acc iv, <[iv.1 := iv.2]> acc)
                      (concat (_views_flat self0).*2)
                      (zip dups (replicate (length dups) 0%Z))
                    = zeroed system (_views_flat self0)).
      { rewrite <- Hz. apply list_eq. intros p.
        rewrite (scatter_fun_lookup (λ _, Some 0%Z)); [| | done].
        * rewrite list_lookup_imap. case_decide as Hp.
          -- rewrite bool_decide_true by done.
             rewrite Forall_forall in Hlt. specialize (Hlt p Hp).
             by destruct (lookup_lt_is_Some_2 _ _ Hlt) as [x ->].
          -- rewrite bool_decide_false by done. by destruct (_ !! p).
        * apply Forall2_replicate_r; [done |]. by apply Forall_forall. }
      rewrite Heq. eexists. split; [reflexivity | done].
    + assert (Heq : concat (_views_flat self0).*2 = zeroed system (_views_flat self0)).
      { rewrite <- Hz. destruct dups; [| done].
        apply list_eq. intros p. rewrite list_lookup_imap.
        rewrite bool_decide_false by apply not_elem_of_nil. by destruct (_ !! p). }
      unfold _get_data, asarray. cbn [_views_flat]. rewrite Heq.
      eexists. split; [reflexivity | done].
  - intros [= <-]. unfold _get_nodup. cbn [_dup_inds length Nat.ltb Nat.leb].
    assert (Heq : _get_data {| _views_flat := _views_flat self0; _dup_inds := [];
                               _dup_scratch := _dup_scratch self0 |}
                  = zeroed system (_views_flat self0)).
    { unfold _get_data, asarray, zeroed, is_dup. cbn [_views_flat]. rewrite Hsz. cbn [andb].
      induction (_views_flat self0) as [|[n a] views IH]; [done |].
      rewrite fmap_cons. cbn [concat flat_map snd]. by rewrite IH. }
    rewrite Heq. eexists. split; [reflexivity | done].
Qed.

(** A process: its system and its vector, set up by [_init_dup_inds]. *)
Definition initialised (p : System * PETScVector) : Prop :=
  ∃ v0, _init_dup_inds p.1 v0 = Ok p.2.

(** The de-duplicated full vector: the entries of every process that are
    not duplicates there. *)
Definition dedup_full (procs : list (System * PETScVector)) : list Z :=
  flat_map (λ p, owned_entries p.1 p.2) procs.

Definition dotZ (a b : list Z) : Z := sumZ (zip_with Z.mul a b).

Lemma norm_local_spec (p : System * PETScVector) :
  initialised p →
  ∃ v', norm_local p.2 = (Ok (sum_sq (owned_entries p.1 p.2)), v')
        ∧ asarray v' = asarray p.2.
Proof.
  intros [v0 Hinit]. destruct (get_nodup_spec _ _ _ Hinit) as (v' & Hnd & Hviews).
  exists v'. unfold norm_local. rewrite Hnd. cbn [mbind result_bind rbind].
  rewrite sum_sq_zeroed. split; [done |]. unfold asarray. by rewrite Hviews.
Qed.

Lemma zeroed_length system views :
  length (zeroed system views) = length (concat (views.*2)).
Proof.
  unfold zeroed. induction views as [|[n a] views IH]; [done |].
  rewrite fmap_cons. cbn [flat_map concat fst snd]. rewrite !length_app, IH.
  destruct (is_dup system n); [by rewrite length_replicate | done].
Qed.

Lemma dot_local_spec (p : System * PETScVector) (other : PETScVector) :
  initialised p →
  length (asarray other) = length (asarray p.2) →
  ∃ v', dot_local (p.2, other)
        = (Ok (dotZ (zeroed p.1 (_views_flat p.2)) (asarray other)), v')
        ∧ asarray v' = asarray p.2.
Proof.
  intros [v0 Hinit] Hlen. destruct (get_nodup_spec _ _ _ Hinit) as (v' & Hnd & Hviews).
  exists v'. unfold dot_local. cbn [fst snd]. rewrite Hnd. cbn [mbind result_bind rbind].
  split; [| unfold asarray; by rewrite Hviews].
  unfold np_dot, _get_data.
  unfold asarray in *. by rewrite zeroed_length, <- Hlen, Nat.eqb_refl.
Qed.

Lemma sum_sq_dedup_full procs :
  sum_sq (dedup_full procs) = sumZ ((λ p, sum_sq (owned_entries p.1 p.2)) <$> procs).
Proof.
  unfold dedup_full. induction procs as [|p procs IH]; [done |].
  cbn [flat_map]. rewrite sum_sq_app, IH. by rewrite fmap_cons.
Qed.

(** C5 — over the processes of a communicator, each with its vector set up
    by [_init_dup_inds]: [get_norm()] is the square root of the sum, over all
    processes, of the squares of the entries that are not duplicates there,
    that is the norm of the de-duplicated full vector; the data array of each
    vector is left as it was; a variable that is not distributed is counted by
    at most one rank; and [dot(vec)] is the sum over all processes of the
    products of the entries, with the duplicated entries of [self] taken as
    zero. *)
Theorem distributed_reductions (procs : list (System * PETScVector)) :
  Forall initialised procs →
  (∃ vecs', get_norm (procs.*2) = (Ok (sqrt (IZR (sum_sq (dedup_full procs)))), vecs')
     ∧ asarray <$> vecs' = asarray <$> procs.*2
     ∧ sum_sq (dedup_full procs)
       = allreduce ((λ p, sum_sq (owned_entries p.1 p.2)) <$> procs))
  ∧ (∀ p q name,
       p ∈ procs → q ∈ procs →
       1 < comm_size p.1 → comm_size q.1 = comm_size p.1 →
       comm_rank p.1 ≠ comm_rank q.1 →
       _owning_rank q.1 = _owning_rank p.1 →
       var_distributed q.1 = var_distributed p.1 →
       is_Some (_owning_rank p.1 !! name) →
       var_distributed p.1 !! name = Some false →
       is_dup p.1 name = true ∨ is_dup q.1 name = true)
  ∧ (∀ others,
       Forall2 (λ p v, length (asarray v) = length (asarray p.2)) procs others →
       ∃ vecs', dot (zip (procs.*2) others)
                = (Ok (allreduce
                         (zip_with (λ p v, dotZ (zeroed p.1 (_views_flat p.2)) (asarray v))
                                   procs others)), vecs')
         ∧ asarray <$> vecs' = asarray <$> procs.*2).
Proof.
  intros Hinit. split; [|split].
  - assert (H : ∃ vecs', (norm_local <$> procs.*2).*2 = vecs'
                ∧ collect ((norm_local <$> procs.*2).*1)
                  = Ok ((λ p, sum_sq (owned_entries p.1 p.2)) <$> procs)
                ∧ asarray <$> vecs' = asarray <$> procs.*2).
    { induction Hinit as [|p procs Hp Hrest IH].
      - by exists [].
      - destruct IH as (vecs' & Hv & Hc & Ha).
        destruct (norm_local_spec p Hp) as (v' & Hn & Hav).
        exists (v' :: vecs'). rewrite !fmap_cons. rewrite Hn. cbn [fst snd collect].
        rewrite Hc. cbn [mbind result_bind rbind].
        split; [by rewrite Hv |]. split; [done |]. by rewrite Hav, Ha. }
    destruct H as (vecs' & Hv & Hc & Ha). exists vecs'.
    split; [| split; [done | by apply sum_sq_dedup_full]].
    unfold get_norm. rewrite Hv, Hc. cbn [mbind result_bind rbind].
    by rewrite sum_sq_dedup_full.
  - intros p q name _ _ Hsz Hszq Hrank Hown Hdist [o Ho] Hd.
    unfold is_dup, loop_cond. rewrite Hszq, Hown, Hdist, Ho, Hd.
    rewrite (proj2 (Nat.ltb_lt _ _) Hsz). cbn [andb negb].
    destruct (Nat.eqb_spec o (comm_rank p.1)) as [->|]; [| by left].
    right. destruct (Nat.eqb_spec (comm_rank p.1) (comm_rank q.1)); [done | done].
  - intros others Hlen.
    assert (H : ∃ vecs', (dot_local <$> zip (procs.*2) others).*2 = vecs'
                ∧ collect ((dot_local <$> zip (procs.*2) others).*1)
                  = Ok (zip_with (λ p v, dotZ (zeroed p.1 (_views_flat p.2)) (asarray v))
                                 procs others)
                ∧ asarray <$> vecs' = asarray <$> procs.*2).
    { induction Hlen as [|p v procs others Hpv Hrest IH].
      - by exists [].
      - apply Forall_cons in Hinit as [Hp Hinit].
        destruct (IH Hinit) as (vecs' & Hv & Hc & Ha).
        destruct (dot_local_spec p v Hp Hpv) as (v' & Hn & Hav).
        exists (v' :: vecs'). rewrite fmap_cons. cbn [zip zip_with]. rewrite !fmap_cons.
        rewrite Hn. cbn [fst snd collect].
        fold (zip (procs.*2) others). rewrite Hc. cbn [mbind result_bind rbind].
        split; [by rewrite Hv |]. split; [done |]. by rewrite Hav, Ha. }
    destruct H as (vecs' & Hv & Hc & Ha). exists vecs'. split; [| done].
    unfold dot. by rewrite Hv, Hc.
Qed.

End PetscFacts.

Section PetscExamples.
Import Petsc.

(** Two processes; ["d"] is distributed, ["r"] is replicated on both and
    owned by rank 0. *)
Definition demo_comm (rank : nat) : System :=
  {| comm_size := 2; comm_rank := rank;
     var_distributed := {[ "d" := true; "r" := false ]};
     _owning_rank := {[ "d" := 0; "r" := 0 ]} |}.

Definition demo_raw (d : Z) : PETScVector :=
  {| _views_flat := [("d", [d]); ("r", [2%Z])]; _dup_inds := [];
     _dup_scratch := None |}.

Definition demo_vec (rank : nat) (d : Z) : PETScVector :=
  match _init_dup_inds (demo_comm rank) (demo_raw d) with
  | Ok v => v
  | Raise _ => demo_raw d
  end.

Definition demo_procs : list (System * PETScVector) :=
  [(demo_comm 0, demo_vec 0 3); (demo_comm 1, demo_vec 1 4)].

Lemma demo_procs_initialised : Forall initialised demo_procs.
Proof.
  repeat constructor.
  - exists (demo_raw 3). by vm_compute.
  - exists (demo_raw 4). by vm_compute.
Qed.

Lemma distributed_reductions_witness :
  (get_norm (demo_procs.*2)).1 = Ok (sqrt 29)
  ∧ asarray <$> (get_norm (demo_procs.*2)).2 = [[3; 2]; [4; 2]]%Z.
Proof.
  destruct (distributed_reductions demo_procs demo_procs_initialised)
    as [(vecs' & Hnorm & Hdata & _) _].
  rewrite Hnorm. cbn [fst snd]. split.
  - replace (sum_sq (dedup_full demo_procs)) with 29%Z by (by vm_compute). done.
  - rewrite Hdata. by vm_compute.
Defined.

Example demo_dup_inds :
  _dup_inds (demo_vec 0 3) = [] ∧ _dup_inds (demo_vec 1 4) = [1]
  ∧ (_get_nodup (demo_vec 1 4)).1 = Ok [4; 0]%Z.
Proof. split; [by vm_compute |]. split; by vm_compute. Qed.

End PetscExamples.

(** ** The coloring lifecycle: falling back below the minimum improvement *)

Section ColoringFacts.
Import Coloring.

Lemma evaluations_deactivated (n : nat) (m : manager) :
  st m = DEACTIVATED →
  evaluations n m = (replicate n (columns m), m).
Proof.
  intros Hst. induction n as [|n IH]; [done |].
  cbn [evaluations evaluate]. rewrite IH. cbn [replicate]. f_equal. f_equal.
  unfold colors_used, coloring. rewrite Hst.
  by rewrite length_fmap, length_seq.
Qed.


(** The block of [test_partials_min_improvement]: 6 columns, 5 colors, a
    minimum of 20%. *)
Definition demo_coloring : Coloring :=
  {| colors := [[0; 3]; [1]; [2]; [4]; [5]]; num_columns := 6 |}.

Definition demo_manager : manager :=
  {| owner := "'comp' <class SparseCompExplicit>"; columns := 6;
     min_improve_pct := (20 # 100)%Q; st := COLORED demo_coloring; warnings := [] |}.


End ColoringFacts.

(** ** More of [array_utils]: sizes, offsets and index arrays *)

Section ArrayUtils2Facts.
Import ArrayUtils ArrayUtils2.

Lemma np_index_nonneg {A} (a : list A) (i : Z) (x : A) :
  (0 ≤ i)%Z → a !! Z.to_nat i = Some x → np_index a i = Ok x.
Proof.
  intros Hi Hx. unfold np_index. pose proof (lookup_lt_Some _ _ _ Hx) as Hlt.
  destruct (Z.leb_spec 0 i); [| lia].
  destruct (Z.ltb_spec i (Z.of_nat (length a))); [| lia].
  cbn [andb]. by rewrite Hx.
Qed.

Lemma sizes_list (N R : nat) (b : Z) :
  R ≤ N →
  replicate R (b + 1)%Z ++ replicate (N - R) b
  = (λ r, if decide (r < R) then (b + 1)%Z else b) <$> seq 0 N.
Proof.
  intros HR. apply list_eq. intros i. rewrite list_lookup_fmap.
  destruct (decide (i < N)) as [Hi|Hi].
  - rewrite sizes_lookup by done. by rewrite lookup_seq_lt.
  - rewrite lookup_seq_ge by lia. apply lookup_ge_None.
    rewrite length_app, !length_replicate. lia.
Qed.



(** The distance from the loop variable [proc] to the next turn of
    [rank]. *)
Definition turns_to (rank size proc : nat) : nat :=
  if decide (proc ≤ rank) then rank - proc else rank + size - proc.

Lemma take_nth_loop_lookup {A} (rank size proc : nat) (seq : list A) (j : nat) :
  rank < size → proc < size →
  take_nth_loop rank size proc seq !! j = seq !! (turns_to rank size proc + j * size).
Proof.
  intros Hr. revert proc j. induction seq as [|x rest IH]; intros proc j Hp; [done |].
  cbn [take_nth_loop].
  set (next := if S proc =? size then 0 else S proc).
  assert (Hnext : next < size).
  { subst next. destruct (Nat.eqb_spec (S proc) size); lia. }
  assert (Hturn : rank ≠ proc → turns_to rank size proc = S (turns_to rank size next)).
  { intros Hne. unfold turns_to; subst next.
    destruct (Nat.eqb_spec (S proc) size); repeat case_decide; lia. }
  assert (Hwrap : rank = proc → turns_to rank size next = size - 1).
  { intros ->. unfold turns_to; subst next.
    destruct (Nat.eqb_spec (S proc) size); repeat case_decide; lia. }
  destruct (Nat.eqb_spec rank proc) as [Heq|Hne].
  - assert (turns_to rank size proc = 0) as -> by (unfold turns_to; case_decide; lia).
    destruct j as [|j]; [done |].
    cbn [lookup list_lookup]. rewrite IH by done. rewrite Hwrap by done.
    replace (0 + S j * size) with (S (size - 1 + j * size)) by lia. done.
  - rewrite IH by done. rewrite Hturn by done. done.
Qed.

(** X2 — [take_nth(rank, size, seq)] with [rank < size] yields, in order,
    the entries of [seq] at the positions [rank], [rank + size],
    [rank + 2 size], ...; so the entry at any position [i] goes to the rank
    [i mod size], as its yield number [i div size], and to no other rank. *)
Theorem take_nth_spec {A} (rank size : nat) (seq : list A) :
  rank < size →
  ∃ out, take_nth rank size seq = Passed out
    ∧ (∀ j, out !! j = seq !! (rank + j * size))
    ∧ (∀ i, i `mod` size = rank → out !! (i `div` size) = seq !! i)
    ∧ (∀ j x, out !! j = Some x → ∃ i, seq !! i = Some x ∧ i `mod` size = rank).
Proof.
  intros Hr. exists (take_nth_loop rank size 0 seq).
  assert (Hlk : ∀ j, take_nth_loop rank size 0 seq !! j = seq !! (rank + j * size)).
  { intros j. rewrite take_nth_loop_lookup by lia.
    unfold turns_to. rewrite decide_True by lia. by rewrite Nat.sub_0_r. }
  split; [|split; [done |split]].
  - unfold take_nth. by rewrite (proj2 (Nat.ltb_lt _ _) Hr).
  - intros i Hi. rewrite Hlk. f_equal.
    pose proof (Nat.div_mod i size ltac:(lia)). lia.
  - intros j x Hj. rewrite Hlk in Hj. exists (rank + j * size). split; [done |].
    rewrite Nat.Div0.mod_add. by apply Nat.mod_small.
Qed.

Lemma take_nth_spec_witness :
  take_nth 1 3 [10; 11; 12; 13; 14; 15; 16]%Z = Passed [11; 14]%Z.
Proof.
  destruct (take_nth_spec 1 3 [10; 11; 12; 13; 14; 15; 16]%Z ltac:(lia))
    as (out & Hout & _).
  rewrite Hout. vm_compute in Hout. injection Hout as <-. reflexivity.
Defined.

Lemma filter_split_length (P : Z → Prop) `{∀ x, Decision (P x)} (Q : Z → Prop)
    `{∀ x, Decision (Q x)} (l : list Z) :
  (∀ x, P x ↔ ¬ Q x) →
  length (filter P l) + length (filter Q l) = length l.
Proof.
  intros HPQ. induction l as [|x l IH]; [done |].
  rewrite !filter_cons. destruct (decide (P x)) as [HP|HP];
    destruct (decide (Q x)) as [HQ|HQ]; simpl; try lia.
  - by apply HPQ in HP.
  - exfalso. apply HP. by apply HPQ.
Qed.

(** X3 — [get_input_idx_split]: an empty index array fails the assertion.
    Otherwise, with [use_full_cols], the indices below [len(outputs)] go to
    the outputs as they are and the others go to the inputs, shifted by
    [len(outputs)] (so none of these is negative); no index is lost, a vector
    with no index is left out, and the result is never empty. *)
Theorem get_input_idx_split_spec {V} (full_idxs : list Z) (inputs outputs : V)
    (n : Z) (is_total : bool) :
  get_input_idx_split [] inputs outputs n true is_total = AssertionError
  ∧ (full_idxs ≠ [] →
     let outs := filter (λ i, (i < n)%Z) full_idxs in
     let ins := filter (λ i, (n ≤ i)%Z) full_idxs in
     ∃ res, get_input_idx_split full_idxs inputs outputs n true is_total = Passed res
       ∧ res = (if decide (outs = []) then [] else [(outputs, outs)])
               ++ (if decide (ins = []) then [] else [(inputs, (λ i, (i - n)%Z) <$> ins)])
       ∧ res ≠ []
       ∧ Forall (λ vi, vi.2 ≠ []) res
       ∧ length outs + length ins = length full_idxs
       ∧ Forall (λ i, (0 ≤ i)%Z) ((λ i, (i - n)%Z) <$> ins)).
Proof.
  split; [done |]. intros Hne outs ins.
  assert (Hlen : length outs + length ins = length full_idxs).
  { apply filter_split_length. intros x. lia. }
  eexists. split.
  { unfold get_input_idx_split. destruct full_idxs; [done |]. reflexivity. }
  fold outs ins.
  assert (Hres : filter (λ vi : V * list Z, 0 < length vi.2)
                   [(outputs, outs); (inputs, (λ i, (i - n)%Z) <$> ins)]
                 = (if decide (outs = []) then [] else [(outputs, outs)])
                   ++ (if decide (ins = []) then [] else [(inputs, (λ i, (i - n)%Z) <$> ins)])).
  { rewrite !filter_cons, filter_nil. cbn [snd]. rewrite length_fmap.
    destruct outs as [|o outs']; destruct ins as [|i ins']; simpl; done. }
  rewrite Hres. split; [done |]. split; [|split; [|split; [done |]]].
  - destruct outs; destruct ins; simpl in *; try done.
    destruct full_idxs; [done | simpl in Hlen; lia].
  - destruct outs; destruct ins; simpl; repeat constructor; done.
  - apply Forall_fmap, Forall_forall. intros i Hi.
    apply list_elem_of_filter in Hi as [Hi _]. simpl. lia.
Qed.

Lemma get_input_idx_split_spec_witness :
  get_input_idx_split [0; 5; 2; 7]%Z "inputs" "outputs" 3 true false
  = Passed [("outputs", [0; 2]%Z); ("inputs", [2; 4]%Z)].
Proof.
  destruct (get_input_idx_split_spec [0; 5; 2; 7]%Z "inputs" "outputs" 3 false)
    as [_ H].
  destruct (H ltac:(done)) as (res & Hres & Heq & _).
  rewrite Hres. f_equal. rewrite Heq. reflexivity.
Defined.

(** X4 — [convert_neg(arr, size)] on indices in [-size, size): every
    result is the index modulo [size], hence in [0, size); an index that is
    not negative is kept; converting twice is converting once; and reading an
    array of [size] entries at a converted index is reading it at the
    index. *)
Theorem convert_neg_spec (arr : list Z) (size : Z) :
  Forall (λ i, (- size ≤ i < size)%Z) arr →
  convert_neg arr size = (λ i, i `mod` size)%Z <$> arr
  ∧ Forall (λ i, (0 ≤ i < size)%Z) (convert_neg arr size)
  ∧ convert_neg (convert_neg arr size) size = convert_neg arr size
  ∧ (∀ {A} (a : list A), Z.of_nat (length a) = size →
       (λ i, np_index a i) <$> convert_neg arr size = (λ i, np_index a i) <$> arr).
Proof.
  intros Hall. unfold convert_neg.
  split; [|split; [|split]].
  - apply Forall_fmap_ext_1. eapply Forall_impl; [exact Hall |].
    intros i Hi. simpl in *. destruct (Z.ltb_spec i 0).
    + apply Z.mod_unique with (-1)%Z; lia.
    + symmetry. apply Z.mod_small. lia.
  - apply Forall_fmap. eapply Forall_impl; [exact Hall |].
    intros i Hi. simpl in *. destruct (Z.ltb_spec i 0); lia.
  - rewrite <- list_fmap_compose. apply Forall_fmap_ext_1.
    eapply Forall_impl; [exact Hall |]. intros i Hi. simpl in *.
    destruct (Z.ltb_spec i 0); [| by destruct (Z.ltb_spec i 0); [lia |]].
    destruct (Z.ltb_spec (i + size) 0); [lia | done].
  - intros A a Ha. rewrite <- list_fmap_compose. apply Forall_fmap_ext_1.
    eapply Forall_impl; [exact Hall |]. intros i Hi. simpl in *.
    destruct (Z.ltb_spec i 0) as [Hneg|]; [| done].
    unfold np_index. rewrite Ha.
    destruct (Z.leb_spec 0 (i + size)); [| lia].
    destruct (Z.ltb_spec (i + size) size); [| lia].
    destruct (Z.leb_spec 0 i); [lia |].
    destruct (Z.leb_spec (- size) i); [| lia].
    destruct (Z.ltb_spec i 0); [| lia]. done.
Qed.

Lemma convert_neg_spec_witness :
  convert_neg [-1; 0; 2; -3]%Z 3 = [2; 0; 2; 0]%Z.
Proof.
  destruct (convert_neg_spec [-1; 0; 2; -3]%Z 3
              ltac:(repeat constructor; lia)) as [H _].
  rewrite H. reflexivity.
Defined.


(** Column [i] of the identity matrix of size [n]. *)
Definition unit_column (n i : nat) : list Z := <[i := 1%Z]> (replicate n 0%Z).

Lemma identity_column_step_unit (n i : nat) :
  i < n →
  identity_column_step n i (if i =? 0 then replicate n 0%Z else unit_column n (i - 1))
  = unit_column n i.
Proof.
  intros Hi. unfold identity_column_step, unit_column.
  destruct (Nat.eqb_spec i 0) as [->|Hne].
  - f_equal. apply list_insert_id. apply lookup_replicate_2. lia.
  - f_equal. rewrite list_insert_insert_eq.
    apply list_insert_id. apply lookup_replicate_2. lia.
Qed.

Lemma identity_column_loop_spec (n len start : nat) (column : list Z) :
  start + len ≤ n →
  column = (if start =? 0 then replicate n 0%Z else unit_column n (start - 1)) →
  identity_column_loop n (seq start len) column
  = (unit_column n <$> seq start len,
     if len =? 0 then column else unit_column n (start + len - 1)).
Proof.
  revert start column; induction len as [|len IH]; intros start column Hle Hcol; [done |].
  cbn [seq identity_column_loop]. rewrite Hcol.
  rewrite identity_column_step_unit by lia.
  rewrite (IH (S start)); [| lia | cbn; by rewrite Nat.sub_0_r].
  rewrite fmap_cons. f_equal.
  change (S len =? 0) with false. cbv iota.
  destruct (Nat.eqb_spec len 0) as [Hl|_]; f_equal; lia.
Qed.

(** X6 — [identity_column_iter(column)] on an array of [n] entries yields
    [n] times; at its yield number [i] the array holds column [i] of the
    identity matrix, whatever it held before; and since every yield hands out
    the same array, after the last yield that array holds the last column:
    every earlier column is gone from it. *)
Theorem identity_column_iter_spec (column : list Z) :
  let n := length column in
  let yields := (identity_column_iter column).1 in
  let final := (identity_column_iter column).2 in
  length yields = n
  ∧ (∀ i, i < n → yields !! i = Some (unit_column n i))
  ∧ (∀ i j c, yields !! i = Some c →
       c !! j = Some (if decide (i = j) then 1%Z else 0%Z) ∨ n ≤ j)
  ∧ final = (if n =? 0 then [] else unit_column n (n - 1))
  ∧ (∀ i c, yields !! i = Some c → S i < n → c ≠ final).
Proof.
  intros n yields final. subst yields final. unfold identity_column_iter. fold n.
  rewrite (identity_column_loop_spec n n 0 (replicate n 0%Z)) by done.
  cbn [fst snd Nat.add].
  assert (Hlk : ∀ i, i < n → (unit_column n <$> seq 0 n) !! i = Some (unit_column n i)).
  { intros i Hi. by rewrite list_lookup_fmap, lookup_seq_lt. }
  assert (Hentry : ∀ i j, i < n → j < n →
            unit_column n i !! j = Some (if decide (i = j) then 1%Z else 0%Z)).
  { intros i j Hi Hj. unfold unit_column. case_decide as Hij.
    - subst j. apply list_lookup_insert_eq. by rewrite length_replicate.
    - rewrite list_lookup_insert_ne by done. by apply lookup_replicate_2. }
  split; [by rewrite length_fmap, length_seq |]. split; [done |].
  split; [|split].
  - intros i j c Hc. pose proof (lookup_lt_Some _ _ _ Hc) as Hi.
    rewrite length_fmap, length_seq in Hi. rewrite Hlk in Hc by done.
    injection Hc as <-. destruct (decide (j < n)); [left | right; lia].
    by apply Hentry.
  - destruct (Nat.eqb_spec n 0) as [Hn|Hn]; [| done].
    rewrite Hn. by destruct column.
  - intros i c Hc Hlt. rewrite Hlk in Hc by lia. injection Hc as <-.
    destruct (Nat.eqb_spec n 0); [lia |].
    intros Heq. apply (f_equal (λ l, l !! i)) in Heq.
    rewrite !Hentry in Heq by lia. rewrite decide_True in Heq by done.
    rewrite decide_False in Heq by lia. discriminate.
Qed.

(** X7 — the two versions of [allzero] agree, and both say whether every
    entry is zero. *)
Theorem allzero_spec (a : list Q) :
  allzero a = allzero_np a
  ∧ (allzero a = true ↔ Forall (λ x, x == 0)%Q a).
Proof.
  induction a as [|x a [IH1 IH2]]; [by split |].
  cbn [allzero]. unfold allzero_np in *. cbn [existsb].
  destruct (Qeq_bool x 0) eqn:Hx; cbn [negb orb].
  - split; [done |]. rewrite IH2. split.
    + intros Ha. constructor; [by apply Qeq_bool_iff | done].
    + intros Ha. by apply Forall_cons in Ha as [_ Ha].
  - split; [done |]. split; [done |]. intros Ha.
    apply Forall_cons in Ha as [Ha _]. apply Qeq_bool_iff in Ha. congruence.
Qed.

Lemma Qltb_true (x y : Q) : Qltb x y = true ↔ (x < y)%Q.
Proof.
  unfold Qltb. destruct (Qlt_le_dec x y) as [H|H]; split; try done.
  intros Hlt. exfalso. by apply (Qle_not_lt _ _ H).
Qed.

Lemma Qltb_false (x y : Q) : Qltb x y = false ↔ (y <= x)%Q.
Proof.
  unfold Qltb. destruct (Qlt_le_dec x y) as [H|H]; split; try done.
  intros Hle. exfalso. by apply (Qle_not_lt _ _ Hle).
Qed.

Lemma allclose_loop_spec (ab : list (Q * Q)) (rtol atol : Q) :
  (0 <= rtol)%Q →
  allclose_loop ab rtol atol = true
  ↔ Forall (λ p, (- atol <= p.1 - p.2)%Q ∧ (p.1 - p.2 <= atol)%Q) ab.
Proof.
  intros Hr. induction ab as [|[x y] ab IH]; [done |].
  cbn [allclose_loop]. rewrite Forall_cons. cbn [fst snd].
  set (e := if Qltb (x - y) 0 then (- (x - y))%Q else (x - y)%Q).
  set (b := if Qltb y 0 then (- y)%Q else y).
  assert (He : (e <= atol)%Q ↔ (- atol <= x - y)%Q ∧ (x - y <= atol)%Q).
  { subst e. destruct (Qltb (x - y) 0) eqn:Hs.
    - apply Qltb_true in Hs. split; [intros; split |intros [? ?]]; Lqa.lra.
    - apply Qltb_false in Hs. split; [intros; split |intros [? ?]]; Lqa.lra. }
  assert (Hb : (0 <= b)%Q).
  { subst b. destruct (Qltb y 0) eqn:Hs.
    - apply Qltb_true in Hs. Lqa.lra.
    - by apply Qltb_false in Hs. }
  destruct (Qltb atol e) eqn:H1.
  - apply Qltb_true in H1. split; [done |]. intros [Hxy _].
    apply He in Hxy. Lqa.lra.
  - apply Qltb_false in H1.
    assert (Hprod : (0 <= rtol * b)%Q) by (by apply Qmult_le_0_compat).
    destruct (Qltb (atol + rtol * b) e) eqn:H2.
    + apply Qltb_true in H2. Lqa.lra.
    + rewrite IH. split; [intros Hrest; split; [by apply He | done] | by intros [_ ?]].
Qed.



(** X9 — [get_index_dtype(size, allow_negative)] returns the first type,
    among the unsigned ones (or the signed ones with [allow_negative]), whose
    largest value plus one is at least [size]: every index in [0, size) fits
    in it (with [allow_negative], every index in [-size, size)), and no
    narrower type of the list would do.  It raises [ValueError] exactly when
    [size] exceeds 2^64 (2^63 with [allow_negative]). *)
Theorem get_index_dtype_spec (size : Z) (allow_negative : bool) :
  (∀ d, get_index_dtype size allow_negative = Ok d →
     d ∈ (if allow_negative then _signed else _unsigned)
     ∧ (∀ i, (0 ≤ i < size)%Z → (iinfo_min d ≤ i ≤ iinfo_max d)%Z)
     ∧ (allow_negative = true →
        ∀ i, (- size ≤ i < size)%Z → (iinfo_min d ≤ i ≤ iinfo_max d)%Z)
     ∧ (∀ d', d' ∈ (if allow_negative then _signed else _unsigned) →
          (iinfo_max d' < iinfo_max d)%Z → (iinfo_max d' + 1 < size)%Z))
  ∧ (get_index_dtype size allow_negative = Raise ValueError
     ↔ ((if allow_negative then 2 ^ 63 else 2 ^ 64) < size)%Z).
Proof.
  unfold get_index_dtype, _signed, _unsigned.
  assert (Hpow : (2 ^ 7 = 128 ∧ 2 ^ 8 = 256 ∧ 2 ^ 15 = 32768 ∧ 2 ^ 16 = 65536
                  ∧ 2 ^ 31 = 2147483648 ∧ 2 ^ 32 = 4294967296
                  ∧ 2 ^ 63 = 9223372036854775808
                  ∧ 2 ^ 64 = 18446744073709551616)%Z) by (repeat split).
  destruct Hpow as (P7 & P8 & P15 & P16 & P31 & P32 & P63 & P64).
  assert (Hcases : ∀ d : dtype, ∀ a b c e, d ∈ [a; b; c; e] → d = a ∨ d = b ∨ d = c ∨ d = e).
  { intros d a b c e Hd. repeat (apply elem_of_cons in Hd as [Hd|Hd]; [tauto |]).
    by apply elem_of_nil in Hd. }
  destruct allow_negative; cbn [first_fitting iinfo_max];
    rewrite ?P7, ?P8, ?P15, ?P16, ?P31, ?P32, ?P63, ?P64.
  - destruct (Z.leb_spec size (128 - 1 + 1)); [| destruct (Z.leb_spec size (32768 - 1 + 1));
      [| destruct (Z.leb_spec size (2147483648 - 1 + 1));
         [| destruct (Z.leb_spec size (9223372036854775808 - 1 + 1))]]].
    all: split; [| split; intros; (done || lia)].
    all: try (intros d Hd; discriminate).
    all: intros d [= <-]; split; [set_solver |].
    all: cbn [iinfo_min iinfo_max]; rewrite ?P7, ?P15, ?P31, ?P63.
    all: split; [intros; lia |]; split; [intros; lia |].
    all: intros d' Hd'; apply Hcases in Hd' as [->|[->|[->| ->]]];
      cbn [iinfo_max]; rewrite ?P7, ?P15, ?P31, ?P63; lia.
  - destruct (Z.leb_spec size (256 - 1 + 1)); [| destruct (Z.leb_spec size (65536 - 1 + 1));
      [| destruct (Z.leb_spec size (4294967296 - 1 + 1));
         [| destruct (Z.leb_spec size (18446744073709551616 - 1 + 1))]]].
    all: split; [| split; intros; (done || lia)].
    all: try (intros d Hd; discriminate).
    all: intros d [= <-]; split; [set_solver |].
    all: cbn [iinfo_min iinfo_max]; rewrite ?P8, ?P16, ?P32, ?P64.
    all: split; [intros; lia |]; split; [intros; done |].
    all: intros d' Hd'; apply Hcases in Hd' as [->|[->|[->| ->]]];
      cbn [iinfo_max]; rewrite ?P8, ?P16, ?P32, ?P64; lia.
Qed.

Example get_index_dtype_examples :
  get_index_dtype 256 false = Ok uint8
  ∧ get_index_dtype 257 false = Ok uint16
  ∧ get_index_dtype 129 true = Ok int16
  ∧ get_index_dtype (2 ^ 64 + 1) false = Raise ValueError.
Proof. repeat split. Qed.

End ArrayUtils2Facts.

(** ** [ValueRepeater] as a sequence *)

Section ValueRepeaterFacts.
Import ArrayUtils.



End ValueRepeaterFacts.

(** ** The dictionary interface of the Jacobian *)

Section JacobianDict.
Import Jac.

Lemma _get_abs_key_hit system self k ak :
  _abs_keys self !! k = Some ak → _get_abs_key system self k = (Some ak, self).
Proof. intros H. unfold _get_abs_key. by rewrite H. Qed.

Lemma _get_abs_key_cached system self k ak :
  (_get_abs_key system self k).1 = Some ak →
  _abs_keys (_get_abs_key system self k).2 !! k = Some ak.
Proof.
  unfold _get_abs_key. destruct (_abs_keys self !! k) as [c|] eqn:Hc.
  - by intros [= <-].
  - destruct (any2abs_key system k) as [r|]; [| done].
    intros [= <-]. cbn. apply lookup_insert_eq.
Qed.

(** X11 — [_get_abs_key] never touches the sub-Jacobians.  A key that
    resolved once is answered from the cache from then on, whatever the
    resolver says later, and no other cache entry changes; a key that did not
    resolve is not cached, so the resolver is asked again at the next call. *)
Theorem get_abs_key_cache system self k :
  let r := _get_abs_key system self k in
  _subjacs_info r.2 = _subjacs_info self
  ∧ (∀ ak, r.1 = Some ak →
       _abs_keys r.2 !! k = Some ak
       ∧ (∀ k', k' ≠ k → _abs_keys r.2 !! k' = _abs_keys self !! k')
       ∧ ∀ system', _get_abs_key system' r.2 k = (Some ak, r.2))
  ∧ (r.1 = None →
       r.2 = self
       ∧ ∀ system', (_get_abs_key system' self k).1 = any2abs_key system' k).
Proof.
  intros r. subst r. split; [apply _get_abs_key_subjacs_info |]. split.
  - intros ak Hak. pose proof (_get_abs_key_cached _ _ _ _ Hak) as Hc.
    split; [done |]. split; [| by intros system'; apply _get_abs_key_hit].
    intros k' Hne. unfold _get_abs_key.
    destruct (_abs_keys self !! k); [done |].
    destruct (any2abs_key system k); [| done].
    cbn. by apply lookup_insert_ne.
  - unfold _get_abs_key. destruct (_abs_keys self !! k) as [c|] eqn:Hc; [done |].
    destruct (any2abs_key system k) as [a|] eqn:Ha; [done |].
    intros _. split; [done |]. intros system'.
    by destruct (any2abs_key system' k).
Qed.

(** X12 — [key in jac] is true exactly when [jac[key]] returns a value, and
    false exactly when [jac[key]] raises [KeyError]; both leave the Jacobian
    in the same state, and [jac[key]] is the ['val'] entry of
    [get_metadata(key)]. *)
Theorem contains_iff_getitem system self k :
  ((__contains__ system self k).1 = true ↔ ∃ v, (__getitem__ system self k).1 = Ok v)
  ∧ ((__contains__ system self k).1 = false
     ↔ (__getitem__ system self k).1 = Raise KeyError)
  ∧ ((__contains__ system self k).1 = true ↔ declared system self k)
  ∧ (__contains__ system self k).2 = (__getitem__ system self k).2
  ∧ (get_metadata system self k).2 = (__getitem__ system self k).2
  ∧ (__getitem__ system self k).1 = (m ← (get_metadata system self k).1; Ok (val m)).
Proof.
  unfold __contains__, __getitem__, get_metadata, declared.
  pose proof (_get_abs_key_subjacs_info system self k) as Hinfo.
  destruct (_get_abs_key system self k) as [[ak|] self1] eqn:Hk; cbn [fst snd] in *.
  - rewrite Hinfo. destruct (_subjacs_info self !! ak) as [meta|] eqn:Hm.
    + rewrite bool_decide_true by done.
      split; [split; [by exists (val meta) | done] |].
      split; [done |]. split; [| done].
      split; [| done]. intros _. exists ak. by rewrite Hm.
    + rewrite bool_decide_false by (by intros [? ?]).
      split; [split; [done | by intros [v ?]] |].
      split; [done |]. split; [| done].
      split; [done |]. intros (ak' & [= <-] & [? ?]). congruence.
  - split; [split; [done | by intros [v ?]] |].
    split; [done |]. split; [| done].
    split; [done |]. by intros (ak' & ? & _).
Qed.

(** X13 — after [jac[key] = subjac] has returned, [jac[key]] (and any other
    name pair that resolves to the same absolute pair) returns the stored
    value: [subjac] itself when it is sparse, else an array of the shape the
    slot had.  The other entries of the metadata, every other sub-Jacobian
    and the set of declared pairs are as before. *)
Theorem setitem_getitem system self k subjac :
  (__setitem__ system self k subjac).1 = Ok () →
  let self' := (__setitem__ system self k subjac).2 in
  ∃ ak meta v,
    (_get_abs_key system self k).1 = Some ak
    ∧ _subjacs_info self !! ak = Some meta
    ∧ _subjacs_info self' !! ak = Some (set_val meta v)
    ∧ (__getitem__ system self' k).1 = Ok v
    ∧ (∀ k', (_get_abs_key system self' k').1 = Some ak →
         (__getitem__ system self' k').1 = Ok v)
    ∧ (issparse subjac = true → v = subjac)
    ∧ (∀ dst, val meta = PyArray dst → issparse subjac = false →
         ∃ a, v = PyArray a ∧ shape a = shape dst)
    ∧ (∀ ak', ak' ≠ ak → _subjacs_info self' !! ak' = _subjacs_info self !! ak')
    ∧ dom (_subjacs_info self') = dom (_subjacs_info self).
Proof.
  intros Hok self'. subst self'. revert Hok. unfold __setitem__.
  pose proof (_get_abs_key_subjacs_info system self k) as Hinfo.
  pose proof (_get_abs_key_cached system self k) as Hcache.
  destruct (_get_abs_key system self k) as [[ak|] self1] eqn:Hk; cbn [fst snd] in *;
    [| done].
  specialize (Hcache ak eq_refl). rewrite Hinfo.
  destruct (_subjacs_info self !! ak) as [meta|] eqn:Hm; [| done].
  destruct (setitem_value system ak meta subjac) as [v|e] eqn:Hv; [| done].
  intros _. cbn [fst snd]. exists ak, meta, v.
  set (self' := with_subjacs_info self1 _).
  assert (Hlk : _subjacs_info self' !! ak = Some (set_val meta v))
    by (cbn; apply lookup_insert_eq).
  assert (Hget : ∀ k', (_get_abs_key system self' k').1 = Some ak →
            (__getitem__ system self' k').1 = Ok v).
  { intros k' Hk'. unfold __getitem__.
    pose proof (_get_abs_key_subjacs_info system self' k') as Hinfo'.
    destruct (_get_abs_key system self' k') as [a s] eqn:Hg. cbn [fst snd] in *.
    subst a. by rewrite Hinfo', Hlk. }
  split; [done |]. split; [done |]. split; [done |].
  split; [apply Hget; by rewrite (_get_abs_key_hit system self' k ak) |].
  split; [done |]. split; [|split; [|split]].
  - intros Hsp. unfold setitem_value in Hv. rewrite Hsp in Hv. congruence.
  - intros dst Hdst Hsp. unfold setitem_value in Hv. rewrite Hsp, Hdst in Hv.
    assert (Hassign : ∀ a r, assign_all dst a = Ok r → shape r = shape dst).
    { intros a r. unfold assign_all.
      destruct (strip_leading _ _); [| done]. destruct (broadcast _ _ _); [| done].
      by intros [= <-]. }
    destruct (rows meta).
    + destruct (as_array subjac) as [a|]; [| done].
      cbn [as_array mbind result_bind rbind] in Hv.
      destruct (assign_all dst a) as [r|] eqn:Hr; [| done].
      injection Hv as <-. exists r. split; [done |]. by eapply Hassign.
    + destruct (as_array subjac) as [a|]; [| done]. cbn [mbind result_bind rbind] in Hv.
      destruct (if bool_decide (shape (atleast_2d a) = [1; 1]) then _ else _) as [a'|];
        [| done].
      cbn [as_array mbind result_bind rbind] in Hv.
      destruct (assign_all dst a') as [r|] eqn:Hr; [| done].
      injection Hv as <-. exists r. split; [done |]. by eapply Hassign.
  - intros ak' Hne. cbn. by apply lookup_insert_ne.
  - cbn. apply dom_insert_lookup_L. by rewrite Hm.
Qed.

Lemma setitem_getitem_witness :
  (__getitem__ demo_system
     (__setitem__ demo_system demo_jac ("y", "z") (PyScalar 5)).2 ("y", "z")).1
  = Ok (PyArray (NdArray [3] [5; 5; 5]%Q)).
Proof.
  destruct (setitem_getitem demo_system demo_jac ("y", "z") (PyScalar 5) eq_refl)
    as (ak & meta & v & Hk & Hm & Hs & Hg & _).
  rewrite Hg. vm_compute in Hk. injection Hk as <-.
  vm_compute in Hm. injection Hm as <-.
  vm_compute in Hs. injection Hs as <-. reflexivity.
Defined.

End JacobianDict.

(** ** [set_col] at its edges *)

Section SetColEdges.
Import Jac.

Lemma fill_length (l : list (nat * nat)) (c : list nat) (s : nat) :
  length (foldl (λ st ie, (slice_fill st.2 ie.2 ie.1 st.1, ie.2)) (c, s) l).1
  = length c.
Proof.
  revert c s; induction l as [|ie l IH]; intros c s; [done |].
  cbn [foldl]. rewrite IH. cbn [fst snd]. apply slice_fill_length.
Qed.

(** X14 — [set_col] on a Jacobian whose index maps are still to be built:
    with a system that yields no column block it raises [UnboundLocalError]
    (the name [end] was never bound), and with a column index at or beyond the
    end of the last column block it raises [IndexError]. *)
Theorem set_col_errors system self (icol : nat) (column : list Q) :
  _col_varnames self = None →
  (_jac_wrt_iter system = [] →
     set_col system self icol column = Raise UnboundLocalError)
  ∧ (∀ e, last ((λ blk, blk.2) <$> _jac_wrt_iter system) = Some e → e ≤ icol →
       set_col system self icol column = Raise IndexError).
Proof.
  intros Hnone. unfold set_col. rewrite Hnone. unfold _setup_index_maps. split.
  - intros ->. done.
  - intros e -> Hle. cbn [mbind result_bind rbind of_option _col_varnames _col2name_ind].
    rewrite (proj2 (lookup_ge_None _ _)); [done |].
    rewrite fill_length, length_replicate. done.
Qed.

Lemma set_col_errors_witness :
  set_col demo_system demo_jac 5 [10; 20]%Q = Raise IndexError
  ∧ set_col {| any2abs_key := Some; abs2meta_input := ∅; abs2meta_output := ∅;
               _jac_of_iter := []; _jac_wrt_iter := [] |} demo_jac 0 []
    = Raise UnboundLocalError.
Proof.
  split.
  - apply (set_col_errors demo_system demo_jac 5 [10; 20]%Q eq_refl) with (e := 5);
      [reflexivity | lia].
  - apply (set_col_errors _ demo_jac 0 [] eq_refl). reflexivity.
Defined.

End SetColEdges.

(** ** [_run_point] with a bad argument *)

Section RunPointErrors.
Import Approx.

(** Whether a name is a variable of the system. *)
Definition known (s : System) (name : string) : bool :=
  match _outputs s !! name, _inputs s !! name with
  | None, None => false
  | _, _ => true
  end.

Lemma gather_out_of_range {A} (a : list A) (idxs : list nat) :
  forallb (λ i, i <? length a) idxs = false → gather a idxs = Raise IndexError.
Proof.
  intros Hf. unfold gather.
  destruct (mapM (λ i, a !! i) idxs) as [vals|] eqn:Hm; [| done].
  exfalso. assert (Hs : is_Some (mapM (λ i, a !! i) idxs)) by (by rewrite Hm).
  apply mapM_is_Some in Hs.
  assert (forallb (λ i, i <? length a) idxs = true); [| congruence].
  apply forallb_ltb. eapply Forall_impl; [exact Hs |].
  intros i Hi. by apply lookup_lt_is_Some.
Qed.

(** A delta that is not valid raises where it is applied, and changes
    nothing. *)
Lemma perturb_invalid (op : Z → Z → Z) (d : string * list nat * Z) (w : World) :
  valid_delta (system w) d = false →
  perturb op d w
  = (Raise (if known (system w) d.1.1 then IndexError else KeyError), w).
Proof.
  destruct d as [[n idxs] delta]. unfold valid_delta, perturb, known. cbn [fst snd].
  destruct (_outputs (system w) !! n) as [a|] eqn:Ho.
  - intros Hv. unfold mbind, M_bind, bind, lift, inplace.
    by rewrite gather_out_of_range.
  - destruct (_inputs (system w) !! n) as [a|] eqn:Hi.
    + intros Hv. unfold mbind, M_bind, bind, lift, inplace. cbn [of_option].
      by rewrite gather_out_of_range.
    + intros _. done.
Qed.

Lemma known_shift_sys op d s name : known (shift_sys op d s) name = known s name.
Proof.
  unfold known, shift_sys. case_decide; cbn [_outputs _inputs set_outputs set_inputs].
  - rewrite lookup_alter. case_decide as Hn; [| done].
    rewrite <- Hn. by destruct (_outputs s !! d.1.1).
  - destruct (_outputs s !! name); [done |].
    rewrite lookup_alter. case_decide as Hn; [| done].
    rewrite <- Hn. by destruct (_inputs s !! d.1.1).
Qed.

Lemma known_foldl op l s name :
  known (foldl (λ s d, shift_sys op d s) s l) name = known s name.
Proof.
  revert s; induction l as [|d l IH]; intros s; [done |].
  cbn [foldl]. by rewrite IH, known_shift_sys.
Qed.

Lemma for_app {X} (l1 l2 : list X) (f : X → M unit) (w : World) :
  for_ (l1 ++ l2) f w = (for_ l1 f ;; for_ l2 f) w.
Proof.
  revert w; induction l1 as [|x l1 IH]; intros w.
  - cbn. unfold bind, ret. done.
  - cbn [app for_]. unfold bind. destruct (f x w) as [[[]|e] w']; [| done].
    rewrite IH. done.
Qed.

(** X15 — [_run_point] with a bad argument.  A [deriv_type] other than
    'total' and 'partial' raises [ValueError] and nothing is changed.  With a
    delta that names no variable of the system ([KeyError]) or has an index
    outside its variable ([IndexError]), the exception is raised from the
    first loop: the model is never evaluated, the cache and the results buffer
    are untouched, and the deltas that came before the bad one stay added to
    the vectors. *)
Theorem run_point_argument_errors (model : Model)
    (input_deltas : list (string * list nat * Z)) (deriv_type : string) (w : World) :
  (deriv_type ≠ "total" → deriv_type ≠ "partial" →
     _run_point model input_deltas deriv_type w = (Raise ValueError, w))
  ∧ (∀ ep vec pre d post,
       mode_of deriv_type ep vec →
       input_deltas = pre ++ d :: post →
       Forall (λ d, valid_delta (system w) d = true) pre →
       valid_delta (system w) d = false →
       _run_point model input_deltas deriv_type w
       = (Raise (if known (system w) d.1.1 then IndexError else KeyError),
          {| system := perturbed (system w) pre; cache := cache w;
             results := results w; calls := calls w |})).
Proof.
  split.
  - intros Ht Hp. unfold _run_point, mbind, M_bind, bind.
    rewrite decide_False by done. by rewrite decide_False by done.
  - intros ep vec pre d post Hmode -> Hpre Hd.
    rewrite (run_point_unfold _ _ _ _ _ _ Hmode).
    unfold bind at 1. rewrite for_app. unfold bind at 1.
    rewrite for_perturb_valid by done.
    cbn [for_]. unfold bind at 1.
    rewrite perturb_invalid
      by (cbn [system with_system]; by rewrite valid_delta_foldl).
    cbn [system with_system]. by rewrite known_foldl.
Qed.

Lemma run_point_argument_errors_witness :
  _run_point demo_model demo_deltas "both" demo_world = (Raise ValueError, demo_world)
  ∧ (_run_point demo_model [("x", [0], 10%Z); ("w", [0], 1%Z)] "total" demo_world).1
    = Raise KeyError
  ∧ _inputs (system (_run_point demo_model [("x", [0], 10%Z); ("x", [2], 1%Z)]
                       "partial" demo_world).2) !! "x"
    = Some [11; 2]%Z.
Proof.
  destruct (run_point_argument_errors demo_model demo_deltas "both" demo_world)
    as [H1 _].
  destruct (run_point_argument_errors demo_model [("x", [0], 10%Z); ("w", [0], 1%Z)]
              "total" demo_world) as [_ H2].
  destruct (run_point_argument_errors demo_model [("x", [0], 10%Z); ("x", [2], 1%Z)]
              "partial" demo_world) as [_ H3].
  split; [apply H1; done |]. split.
  - rewrite (H2 run_solve_nonlinear Outputs [("x", [0], 10%Z)] ("w", [0], 1%Z) []);
      [reflexivity | by left | reflexivity | by repeat constructor | reflexivity].
  - rewrite (H3 run_apply_nonlinear Residuals [("x", [0], 10%Z)] ("x", [2], 1%Z) []);
      [reflexivity | by right | reflexivity | by repeat constructor | reflexivity].
Defined.

End RunPointErrors.

(** ** The duplicate indices of a distributed vector *)

Section PetscSetup.
Import Petsc.

Lemma dups_of_sorted cond o views :
  StronglySorted lt (dups_of cond (ranges_from o views)).
Proof.
  revert o; induction views as [|[name a] views IH]; intros o; [constructor |].
  cbn [ranges_from]. unfold dups_of. cbn [flat_map fst snd].
  fold (dups_of cond (ranges_from (o + length a) views)).
  apply StronglySorted_app_2; [| | apply IH].
  - intros x y Hx Hy. apply dups_of_bounds in Hy.
    destruct (cond name); [| by apply elem_of_nil in Hx].
    apply elem_of_seq in Hx. lia.
  - destruct (cond name); [| constructor].
    generalize (o + length a - o). intros n. revert o.
    induction n as [|n IHn]; intros o; [constructor |].
    cbn [seq]. constructor; [apply IHn |].
    apply Forall_forall. intros x Hx. apply elem_of_seq in Hx. lia.
Qed.

Lemma elem_of_dups_of cond rs i :
  i ∈ dups_of cond rs
  ↔ ∃ name start stop, (name, start, stop) ∈ rs ∧ start ≤ i < stop ∧ cond name = true.
Proof.
  unfold dups_of. rewrite list_elem_of_In, in_flat_map. split.
  - intros ([[name start] stop] & Hr & Hi). cbn [fst snd] in Hi.
    apply list_elem_of_In in Hr, Hi.
    destruct (cond name) eqn:Hc; [| by apply elem_of_nil in Hi].
    apply elem_of_seq in Hi. exists name, start, stop. split; [done |]. split; [lia | done].
  - intros (name & start & stop & Hr & Hi & Hc). exists (name, start, stop).
    split; [by apply list_elem_of_In |]. cbn [fst snd]. rewrite Hc.
    apply list_elem_of_In, elem_of_seq. lia.
Qed.

Lemma for_each_dup_step_Ok system acc views o :
  Forall (λ v, is_Some (_owning_rank system !! v.1)
               ∧ is_Some (var_distributed system !! v.1)) views →
  for_each (dup_step system) acc (ranges_from o views)
  = Ok (acc ++ dups_of (loop_cond system) (ranges_from o views)).
Proof.
  intros Hall. revert acc o; induction Hall as [|[name a] views [[ow Ho] [di Hd]] _ IH];
    intros acc o.
  - cbn. by rewrite app_nil_r.
  - cbn [ranges_from for_each]. rewrite dup_step_eq. cbn [fst] in Ho, Hd.
    rewrite Ho, Hd. cbn [mbind result_bind rbind]. rewrite IH.
    unfold dups_of. cbn [flat_map fst snd]. by rewrite <- app_assoc.
Qed.

Lemma for_each_dup_step_Raise system acc views o :
  Exists (λ v, _owning_rank system !! v.1 = None
               ∨ var_distributed system !! v.1 = None) views →
  for_each (dup_step system) acc (ranges_from o views) = Raise KeyError.
Proof.
  intros Hex. revert acc o; induction views as [|[name a] views IH]; intros acc o.
  - by apply Exists_nil in Hex.
  - cbn [ranges_from for_each]. rewrite dup_step_eq.
    destruct (_owning_rank system !! name) as [ow|] eqn:Ho; [| done].
    destruct (var_distributed system !! name) as [di|] eqn:Hd; [| done].
    cbn [mbind result_bind rbind]. apply IH.
    apply Exists_cons in Hex as [[H|H]|Hex]; cbn [fst] in *; [congruence | congruence | done].
Qed.

(** X16 — [_init_dup_inds].  With one process nothing is a duplicate, and
    [_get_nodup] then returns the data array itself and leaves the vector
    alone.  With more processes, when every variable has an owning rank and
    metadata: [_dup_inds] holds, in increasing order and without repetition,
    exactly the indices of the variables that are not distributed and are
    owned by another rank; they are indices of the data array; and when there
    is one, the scratch array has the length of the data array.  A variable
    without owning rank or metadata raises [KeyError]. *)
Theorem init_dup_inds_spec system self :
  (comm_size system ≤ 1 →
     ∃ self', _init_dup_inds system self = Ok self'
       ∧ _dup_inds self' = []
       ∧ _views_flat self' = _views_flat self
       ∧ _get_nodup self' = (Ok (asarray self), self'))
  ∧ (1 < comm_size system →
       (Forall (λ v, is_Some (_owning_rank system !! v.1)
                     ∧ is_Some (var_distributed system !! v.1)) (_views_flat self) →
        ∃ self', _init_dup_inds system self = Ok self'
          ∧ _views_flat self' = _views_flat self
          ∧ (∀ i, i ∈ _dup_inds self'
                  ↔ ∃ name start stop, (name, start, stop) ∈ ranges self
                      ∧ start ≤ i < stop ∧ is_dup system name = true)
          ∧ StronglySorted lt (_dup_inds self')
          ∧ Forall (λ i, i < length (asarray self)) (_dup_inds self')
          ∧ (_dup_inds self' ≠ [] →
               _dup_scratch self' = Some (replicate (length (asarray self)) 0%Z)))
       ∧ (Exists (λ v, _owning_rank system !! v.1 = None
                       ∨ var_distributed system !! v.1 = None) (_views_flat self) →
          _init_dup_inds system self = Raise KeyError)).
Proof.
  unfold _init_dup_inds. split.
  - intros Hsz. rewrite (proj2 (Nat.ltb_ge _ _) Hsz).
    eexists. split; [done |]. cbn [_dup_inds _views_flat]. split; [done |].
    split; [done |]. unfold _get_nodup. cbn [_dup_inds length]. done.
  - intros Hsz. rewrite (proj2 (Nat.ltb_lt _ _) Hsz). unfold ranges. split.
    + intros Hall. rewrite for_each_dup_step_Ok by done.
      cbn [app mbind result_bind rbind].
      set (dups := dups_of (loop_cond system) (ranges_from 0 (_views_flat self))).
      eexists. split; [done |]. cbn [_dup_inds _views_flat _dup_scratch].
      split; [done |]. split; [|split; [|split]].
      * intros i. subst dups. rewrite elem_of_dups_of. unfold is_dup.
        rewrite (proj2 (Nat.ltb_lt _ _) Hsz). done.
      * apply dups_of_sorted.
      * apply Forall_forall. intros i Hi. apply dups_of_bounds in Hi.
        unfold asarray. lia.
      * intros Hne. destruct dups as [|x dups'] eqn:Hd; [done |]. cbn [length Nat.ltb Nat.leb].
        destruct (last (ranges_from 0 (_views_flat self))) as [r|] eqn:Hlast.
        -- apply ranges_from_last in Hlast. cbn [Nat.add] in Hlast.
           unfold asarray. by rewrite Hlast.
        -- apply last_None in Hlast. subst dups. by rewrite Hlast in Hd.
    + intros Hex. by rewrite for_each_dup_step_Raise.
Qed.

Lemma init_dup_inds_spec_witness :
  (∃ self', _init_dup_inds (demo_comm 1) (demo_raw 4) = Ok self'
     ∧ _dup_inds self' = [1] ∧ _dup_scratch self' = Some [0; 0]%Z)
  ∧ _init_dup_inds {| comm_size := 2; comm_rank := 0; var_distributed := ∅;
                      _owning_rank := ∅ |} (demo_raw 4) = Raise KeyError.
Proof.
  destruct (init_dup_inds_spec (demo_comm 1) (demo_raw 4)) as [_ H].
  destruct (H ltac:(simpl; lia)) as [Hok _].
  destruct Hok as (self' & Hinit & _ & _ & _ & _ & _).
  { repeat constructor; by eexists. }
  split.
  - exists self'. split; [done |]. vm_compute in Hinit. by injection Hinit as <-.
  - destruct (init_dup_inds_spec {| comm_size := 2; comm_rank := 0; var_distributed := ∅;
                                    _owning_rank := ∅ |} (demo_raw 4)) as [_ H'].
    destruct (H' ltac:(simpl; lia)) as [_ Hraise]. apply Hraise.
    apply Exists_cons_hd. by left.
Defined.

Lemma sumZ_cons (x : Z) (l : list Z) : sumZ (x :: l) = (x + sumZ l)%Z.
Proof. done. Qed.

Lemma dotZ_zeroed system views :
  dotZ (zeroed system views) (concat (views.*2))
  = sum_sq (flat_map (λ v, if is_dup system v.1 then [] else v.2) views).
Proof.
  unfold dotZ, zeroed. induction views as [|[name a] views IH]; [done |].
  rewrite fmap_cons. cbn [flat_map concat fst snd].
  rewrite zip_with_app.
  2:{ destruct (is_dup system name); [by rewrite length_replicate | done]. }
  rewrite sumZ_app, IH, sum_sq_app. f_equal.
  destruct (is_dup system name).
  - clear. induction a as [|x a IH]; [done |].
    cbn [length replicate zip_with]. rewrite sumZ_cons, IH. done.
  - unfold sum_sq. clear. induction a as [|x a IH]; [done |].
    cbn [zip_with]. rewrite fmap_cons, !sumZ_cons. by rewrite IH.
Qed.

Lemma collect_Ok {A B S} (f : A → result B * S) (g : A → B) (l : list A) :
  Forall (λ a, (f a).1 = Ok (g a)) l →
  collect ((f <$> l).*1) = Ok (g <$> l).
Proof.
  induction 1 as [|a l Ha _ IH]; [done |].
  rewrite !fmap_cons. cbn [collect]. rewrite Ha, IH. done.
Qed.



End PetscSetup.

(** ** Assigning a dense Jacobian: [set_dense_jac] *)

Section SetDenseJac.
Import Jac.

Lemma chunks_length {A} (n sz : nat) (l : list A) : length (chunks n sz l) = n.
Proof. revert l; induction n as [|n IH]; intros l; [done |]. cbn. by rewrite IH. Qed.

Lemma chunks_lookup {A} (n sz : nat) (l : list A) (r : nat) :
  r < n → chunks n sz l !! r = Some (take sz (drop (r * sz) l)).
Proof.
  revert l r; induction n as [|n IH]; intros l r Hr; [lia |].
  cbn [chunks]. destruct r as [|r]; [done |].
  cbn [lookup list_lookup]. rewrite IH by lia. by rewrite drop_drop.
Qed.

Lemma concat_lookup_uniform {A} (ls : list (list A)) (n r c : nat) :
  Forall (λ l, length l = n) ls → c < n →
  concat ls !! (r * n + c) = ls !! r ≫= (λ l, l !! c).
Proof.
  intros Hall Hc. revert r; induction Hall as [|l ls Hl _ IH]; intros r; [done |].
  cbn [concat]. destruct r as [|r].
  - cbn. rewrite lookup_app_l by lia. done.
  - rewrite lookup_app_r by lia. cbn [lookup list_lookup].
    replace (S r * n + c - length l) with (r * n + c) by lia. apply IH.
Qed.

Lemma concat_length_uniform {A} (ls : list (list A)) (n : nat) :
  Forall (λ l, length l = n) ls → length (concat ls) = length ls * n.
Proof.
  induction 1 as [|l ls Hl _ IH]; [done |]. cbn [concat length].
  rewrite length_app, IH. lia.
Qed.

(** The block [a[r0:r1, c0:c1]] of a 2-D array. *)
Lemma slice2d_spec (a : ndarray) (R C r0 r1 c0 c1 : nat) :
  shape a = [R; C] → length (data a) = R * C →
  r0 ≤ r1 ≤ R → c0 ≤ c1 ≤ C →
  ∃ d, slice2d a r0 r1 c0 c1 = Ok (NdArray [r1 - r0; c1 - c0] d)
    ∧ length d = (r1 - r0) * (c1 - c0)
    ∧ ∀ r c, r < r1 - r0 → c < c1 - c0 →
        d !! (r * (c1 - c0) + c) = data a !! ((r0 + r) * C + (c0 + c)).
Proof.
  intros Hs Hlen Hr Hc. unfold slice2d. rewrite Hs.
  set (rws := slice r0 r1 (chunks R C (data a))).
  assert (Hrl : length rws = r1 - r0).
  { subst rws. unfold slice. rewrite length_take, length_drop, chunks_length. lia. }
  assert (Hrow : ∀ r, r < r1 - r0 →
            (slice c0 c1 <$> rws) !! r
            = Some (slice c0 c1 (take C (drop ((r0 + r) * C) (data a))))).
  { intros r Hlt. rewrite list_lookup_fmap. subst rws.
    rewrite slice_lookup by done. by rewrite chunks_lookup by lia. }
  assert (Hall : Forall (λ l, length l = c1 - c0) (slice c0 c1 <$> rws)).
  { apply Forall_lookup. intros r l Hl.
    pose proof (lookup_lt_Some _ _ _ Hl) as Hlt. rewrite length_fmap, Hrl in Hlt.
    rewrite Hrow in Hl by done. injection Hl as <-.
    unfold slice. rewrite length_take, length_drop, length_take, length_drop. nia. }
  eexists. split; [| split].
  - rewrite Hrl. replace (Nat.min (c1 - c0) (C - c0)) with (c1 - c0) by lia. done.
  - rewrite (concat_length_uniform _ _ Hall), length_fmap, Hrl. done.
  - intros r c Hlt Hct. rewrite (concat_lookup_uniform _ _ _ _ Hall) by done.
    rewrite Hrow by done. cbn [mbind option_bind].
    rewrite slice_lookup by done. rewrite lookup_take_lt by lia.
    by rewrite lookup_drop.
Qed.

Lemma gather2d_spec (a : ndarray) (R C : nat) (rs cs : list nat) :
  shape a = [R; C] → length (data a) = R * C →
  length rs = length cs →
  Forall (λ r, r < R) rs → Forall (λ c, c < C) cs →
  ∃ vals, gather2d a rs cs = Ok vals
    ∧ length vals = length cs
    ∧ ∀ k r c, rs !! k = Some r → cs !! k = Some c →
        vals !! k = data a !! (r * C + c).
Proof.
  intros Hs Hlen Hl Hrs Hcs. unfold gather2d. rewrite Hs, Hl, Nat.eqb_refl.
  cbn [mbind result_bind rbind].
  assert (Hin : Forall (λ rc : nat * nat, rc.1 < R ∧ rc.2 < C) (zip rs cs)).
  { apply Forall_lookup. intros k [r c] Hk.
    apply lookup_zip_with_Some in Hk as (r' & c' & [= -> ->] & Hr & Hc).
    rewrite Forall_lookup in Hrs, Hcs. split; [by eapply Hrs | by eapply Hcs]. }
  rewrite (proj2 (forallb_forall _ _)).
  2:{ intros rc Hrc. apply list_elem_of_In in Hrc. rewrite Forall_forall in Hin.
      destruct (Hin rc Hrc) as [H1 H2].
      by rewrite (proj2 (Nat.ltb_lt _ _) H1), (proj2 (Nat.ltb_lt _ _) H2). }
  destruct (gather_Ok (data a) ((λ rc : nat * nat, rc.1 * C + rc.2) <$> zip rs cs))
    as (vals & Hg & Hv).
  { apply Forall_fmap. eapply Forall_impl; [exact Hin |]. intros [r c] [H1 H2].
    rewrite Hlen. unfold compose. cbn [fst snd] in *. nia. }
  exists vals. split; [done |].
  pose proof (Forall2_length _ _ _ Hv) as Hvl.
  rewrite length_fmap, length_zip_with in Hvl. split; [lia |].
  intros k r c Hr Hc. rewrite Forall2_lookup in Hv. specialize (Hv k).
  rewrite list_lookup_fmap in Hv.
  assert (Hz : zip rs cs !! k = Some (r, c)).
  { apply lookup_zip_with_Some. by exists r, c. }
  rewrite Hz in Hv. cbn in Hv. inversion Hv as [? v Hv' |]. subst. done.
Qed.

(** What [set_dense_jac] requires of a declared sub-Jacobian for a block of
    [R] rows and [C] columns: a dense value is an array of that shape; a COO
    value is parallel to its [rows] and [cols], which lie in the block. *)
Definition wf_cell (R C : nat) (m : subjac_meta) : Prop :=
  match cols m with
  | None => ∃ d, val m = PyArray (NdArray [R; C] d)
  | Some cs => ∃ rs d, rows m = Some rs ∧ length rs = length cs
                       ∧ val m = PyArray (NdArray [length cs] d)
                       ∧ Forall (λ r, r < R) rs ∧ Forall (λ c, c < C) cs
  end.

(** The effect of [set_dense_jac] on one declared sub-Jacobian whose block
    starts at row [start] and column [wstart] of a Jacobian of [NC] columns:
    only its value changes; a dense value becomes the block, a COO value gets,
    for each stored entry, the entry of the block at its row and column. *)
Definition block_written (jac : ndarray) (NC start wstart : nat) (m m' : subjac_meta)
  : Prop :=
  match cols m with
  | None =>
      ∃ R C d d', val m = PyArray (NdArray [R; C] d)
        ∧ m' = set_val m (PyArray (NdArray [R; C] d'))
        ∧ length d' = R * C
        ∧ ∀ r c, r < R → c < C →
            d' !! (r * C + c) = data jac !! ((start + r) * NC + (wstart + c))
  | Some cs =>
      ∃ rs d d', rows m = Some rs
        ∧ val m = PyArray (NdArray [length cs] d)
        ∧ m' = set_val m (PyArray (NdArray [length cs] d'))
        ∧ length d' = length cs
        ∧ ∀ k r c, rs !! k = Some r → cs !! k = Some c →
            d' !! k = data jac !! ((start + r) * NC + (wstart + c))
  end.

Lemma _get_abs_key_cache_frame system self k k' :
  k' ≠ k →
  _abs_keys (_get_abs_key system self k).2 !! k' = _abs_keys self !! k'.
Proof.
  intros Hne. unfold _get_abs_key. destruct (_abs_keys self !! k); [done |].
  destruct (any2abs_key system k); [| done]. cbn. by apply lookup_insert_ne.
Qed.

Lemma _get_abs_key_cache_eq system s1 s2 k :
  _abs_keys s1 !! k = _abs_keys s2 !! k →
  (_get_abs_key system s1 k).1 = (_get_abs_key system s2 k).1.
Proof.
  intros H. unfold _get_abs_key. rewrite H. destruct (_abs_keys s2 !! k); [done |].
  by destruct (any2abs_key system k).
Qed.

Lemma set_dense_jac_block_undeclared system jac self of_ start stop wrt ws we :
  _subjacs_info self !! (of_, wrt) = None →
  set_dense_jac_block system jac (of_, start, stop) self (wrt, ws, we) = Ok self.
Proof.
  intros H. unfold set_dense_jac_block. rewrite H.
  by rewrite bool_decide_false by (by intros [? ?]).
Qed.

Lemma set_dense_jac_block_spec system jac NR NC self of_ start stop wrt ws we m :
  shape jac = [NR; NC] → length (data jac) = NR * NC →
  _subjacs_info self !! (of_, wrt) = Some m →
  start ≤ stop ≤ NR → ws ≤ we ≤ NC →
  (_get_abs_key system self (of_, wrt)).1 = Some (of_, wrt) →
  wf_cell (stop - start) (we - ws) m →
  ∃ self' m',
    set_dense_jac_block system jac (of_, start, stop) self (wrt, ws, we) = Ok self'
    ∧ _subjacs_info self' = <[(of_, wrt) := m']> (_subjacs_info self)
    ∧ (∀ k, k ≠ (of_, wrt) → _abs_keys self' !! k = _abs_keys self !! k)
    ∧ block_written jac NC start ws m m'.
Proof.
  intros Hs Hlen Hm Hr Hc Hres Hwf. unfold set_dense_jac_block.
  rewrite Hm, bool_decide_true by done. unfold get_metadata.
  pose proof (_get_abs_key_subjacs_info system self (of_, wrt)) as Hinfo.
  pose proof (λ k', _get_abs_key_cache_frame system self (of_, wrt) k') as Hframe.
  destruct (_get_abs_key system self (of_, wrt)) as [ak self1] eqn:Hk.
  cbn [fst snd] in *. subst ak. rewrite Hinfo, Hm.
  cbn [of_option mbind result_bind rbind].
  destruct (slice2d_spec jac NR NC start stop ws we Hs Hlen Hr Hc)
    as (bd & Hblock & Hbl & Hbd).
  rewrite Hblock. cbn [mbind result_bind rbind].
  unfold wf_cell in Hwf. unfold block_written.
  destruct (cols m) as [cs|] eqn:Hcols.
  - destruct Hwf as (rs & d & Hrows & Hrl & Hval & Hrs & Hcs). rewrite Hrows, Hval.
    destruct (gather2d_spec (NdArray [stop - start; we - ws] bd) _ _ rs cs
                eq_refl Hbl Hrl Hrs Hcs) as (vals & Hg & Hvl & Hv).
    rewrite Hg. cbn [as_array mbind result_bind rbind].
    rewrite assign_all_same;
      [| cbn [shape]; by rewrite Hvl | unfold wf_ndarray; cbn [shape data size_of foldr]; lia].
    cbn [mbind result_bind rbind shape data].
    eexists _, _. split; [reflexivity |]. cbn [_subjacs_info with_subjacs_info].
    split; [done |]. split; [done |].
    exists rs, d, vals. split; [done |]. split; [done |]. split; [done |].
    split; [done |]. intros k r c Hkr Hkc. rewrite (Hv k r c Hkr Hkc). cbn [data].
    rewrite Forall_lookup in Hrs, Hcs. apply Hbd; [by eapply Hrs | by eapply Hcs].
  - destruct Hwf as (d & Hval). rewrite Hval.
    cbn [as_array mbind result_bind rbind shape].
    rewrite assign_all_same;
      [| done | unfold wf_ndarray; cbn [shape data size_of foldr]; lia].
    cbn [mbind result_bind rbind shape data].
    eexists _, _. split; [reflexivity |]. cbn [_subjacs_info with_subjacs_info].
    split; [done |]. split; [done |].
    exists (stop - start), (we - ws), d, bd. done.
Qed.

(** The cells of one row block. *)
Definition cell_ok (system : System) (self : Jacobian) (NR NC : nat)
    (ofblk wrtblk : string * nat * nat) : Prop :=
  ∀ m, _subjacs_info self !! (ofblk.1.1, wrtblk.1.1) = Some m →
    ofblk.1.2 ≤ ofblk.2 ≤ NR ∧ wrtblk.1.2 ≤ wrtblk.2 ≤ NC
    ∧ (_get_abs_key system self (ofblk.1.1, wrtblk.1.1)).1
      = Some (ofblk.1.1, wrtblk.1.1)
    ∧ wf_cell (ofblk.2 - ofblk.1.2) (wrtblk.2 - wrtblk.1.2) m.

Lemma cell_ok_frame system s1 s2 NR NC ofblk wrtblk :
  _subjacs_info s2 !! (ofblk.1.1, wrtblk.1.1) = _subjacs_info s1 !! (ofblk.1.1, wrtblk.1.1) →
  _abs_keys s2 !! (ofblk.1.1, wrtblk.1.1) = _abs_keys s1 !! (ofblk.1.1, wrtblk.1.1) →
  cell_ok system s1 NR NC ofblk wrtblk → cell_ok system s2 NR NC ofblk wrtblk.
Proof.
  intros Hi Hc Hok m Hm. rewrite Hi in Hm. destruct (Hok m Hm) as (? & ? & Hres & ?).
  split; [done |]. split; [done |]. split; [| done].
  by rewrite (_get_abs_key_cache_eq system s2 s1).
Qed.

Lemma set_dense_jac_row system jac NR NC (ofblk : string * nat * nat)
    (wrts : list (string * nat * nat)) (self : Jacobian) :
  shape jac = [NR; NC] → length (data jac) = NR * NC →
  NoDup (names wrts) →
  (∀ wrtblk, wrtblk ∈ wrts → cell_ok system self NR NC ofblk wrtblk) →
  ∃ self', for_each (set_dense_jac_block system jac ofblk) self wrts = Ok self'
    ∧ (∀ k : key, k.1 ≠ ofblk.1.1 ∨ k.2 ∉ names wrts →
         _subjacs_info self' !! k = _subjacs_info self !! k
         ∧ _abs_keys self' !! k = _abs_keys self !! k)
    ∧ (∀ k : key, _subjacs_info self !! k = None → _subjacs_info self' !! k = None)
    ∧ (∀ wrtblk m, wrtblk ∈ wrts →
         _subjacs_info self !! (ofblk.1.1, wrtblk.1.1) = Some m →
         ∃ m', _subjacs_info self' !! (ofblk.1.1, wrtblk.1.1) = Some m'
               ∧ block_written jac NC ofblk.1.2 wrtblk.1.2 m m').
Proof.
  intros Hs Hlen. destruct ofblk as [[of_ start] stop]. cbn [fst snd].
  revert self; induction wrts as [|[[wrt ws] we] wrts IH]; intros self Hnd Hok.
  - exists self. split; [done |]. split; [done |]. split; [done |].
    intros wrtblk m Hin. by apply elem_of_nil in Hin.
  - unfold names in Hnd. rewrite fmap_cons in Hnd. cbn [fst] in Hnd.
    apply NoDup_cons in Hnd as [Hfresh Hnd]. fold (names wrts) in Hfresh, Hnd.
    cbn [for_each].
    assert (Hstep : ∃ self1,
              set_dense_jac_block system jac (of_, start, stop) self (wrt, ws, we) = Ok self1
              ∧ (∀ k, k ≠ (of_, wrt) →
                   _subjacs_info self1 !! k = _subjacs_info self !! k
                   ∧ _abs_keys self1 !! k = _abs_keys self !! k)
              ∧ (∀ k : key, _subjacs_info self !! k = None → _subjacs_info self1 !! k = None)
              ∧ (∀ m, _subjacs_info self !! (of_, wrt) = Some m →
                   ∃ m', _subjacs_info self1 !! (of_, wrt) = Some m'
                         ∧ block_written jac NC start ws m m')).
    { destruct (_subjacs_info self !! (of_, wrt)) as [m|] eqn:Hm.
      - destruct (Hok (wrt, ws, we) ltac:(left) m Hm) as (Hr & Hc & Hres & Hwf).
        cbn [fst snd] in *.
        destruct (set_dense_jac_block_spec system jac NR NC self of_ start stop wrt ws we m
                    Hs Hlen Hm Hr Hc Hres Hwf) as (self1 & m' & Hrun & Hinfo & Hcache & Hw).
        exists self1. split; [done |]. split; [|split].
        + intros k Hne. rewrite Hinfo. rewrite lookup_insert_ne by done. by split; [| apply Hcache].
        + intros k Hk. rewrite Hinfo. rewrite lookup_insert_ne; [done |].
          intros <-. congruence.
        + intros m0 [= <-]. exists m'. rewrite Hinfo. by rewrite lookup_insert_eq.
      - exists self. rewrite set_dense_jac_block_undeclared by done.
        split; [done |]. split; [done |]. split; [done |]. intros m0 [=]. }
    destruct Hstep as (self1 & Hrun & Hframe1 & Hnone1 & Hw1).
    rewrite Hrun. cbn [mbind result_bind rbind].
    destruct (IH self1 Hnd) as (self' & Hrest & Hframe & Hnone & Hw).
    { intros wrtblk Hin. eapply cell_ok_frame; [| | apply Hok; by right].
      - apply Hframe1. intros [= Heq]. apply Hfresh. rewrite <- Heq.
        unfold names. apply list_elem_of_fmap. by exists wrtblk.
      - apply Hframe1. intros [= Heq]. apply Hfresh. rewrite <- Heq.
        unfold names. apply list_elem_of_fmap. by exists wrtblk. }
    exists self'. split; [done |]. split; [|split].
    + intros k Hk. destruct (Hframe k) as [Hi Hc].
      { destruct Hk as [Hk|Hk]; [by left | right].
        intros Hin. apply Hk. unfold names. rewrite fmap_cons. by right. }
      destruct (Hframe1 k) as [Hi1 Hc1].
      { intros ->. destruct Hk as [Hk|Hk]; [done |]. apply Hk.
        unfold names. rewrite fmap_cons. by left. }
      split; congruence.
    + intros k Hk. by apply Hnone, Hnone1.
    + intros wrtblk m Hin Hm. apply elem_of_cons in Hin as [->|Hin].
      * cbn [fst snd] in *. destruct (Hw1 m Hm) as (m' & Hm' & Hbw).
        exists m'. split; [| done].
        destruct (Hframe (of_, wrt)) as [Hi _]; [by right |]. by rewrite Hi.
      * assert (Hne : (of_, wrtblk.1.1) ≠ (of_, wrt)).
        { intros [= Heq]. apply Hfresh. rewrite <- Heq.
          unfold names. apply list_elem_of_fmap. by exists wrtblk. }
        apply (Hw wrtblk m Hin). destruct (Hframe1 _ Hne) as [Hi _]. by rewrite Hi.
Qed.

Lemma set_dense_jac_rows system jac NR NC (ofs wrts : list (string * nat * nat))
    (self : Jacobian) :
  shape jac = [NR; NC] → length (data jac) = NR * NC →
  NoDup (names ofs) → NoDup (names wrts) →
  (∀ ofblk wrtblk, ofblk ∈ ofs → wrtblk ∈ wrts → cell_ok system self NR NC ofblk wrtblk) →
  ∃ self',
    for_each (λ self ofblk, for_each (set_dense_jac_block system jac ofblk) self wrts)
             self ofs = Ok self'
    ∧ (∀ k : key, k.1 ∉ names ofs ∨ k.2 ∉ names wrts →
         _subjacs_info self' !! k = _subjacs_info self !! k
         ∧ _abs_keys self' !! k = _abs_keys self !! k)
    ∧ (∀ k : key, _subjacs_info self !! k = None → _subjacs_info self' !! k = None)
    ∧ (∀ ofblk wrtblk m, ofblk ∈ ofs → wrtblk ∈ wrts →
         _subjacs_info self !! (ofblk.1.1, wrtblk.1.1) = Some m →
         ∃ m', _subjacs_info self' !! (ofblk.1.1, wrtblk.1.1) = Some m'
               ∧ block_written jac NC ofblk.1.2 wrtblk.1.2 m m').
Proof.
  intros Hs Hlen Hndo Hndw.
  revert self; induction ofs as [|ofblk ofs IH]; intros self Hok.
  - exists self. split; [done |]. split; [done |]. split; [done |].
    intros ofblk wrtblk m Hin. by apply elem_of_nil in Hin.
  - unfold names in Hndo. rewrite fmap_cons in Hndo.
    apply NoDup_cons in Hndo as [Hfresh Hndo]. fold (names ofs) in Hfresh, Hndo.
    cbn [for_each].
    destruct (set_dense_jac_row system jac NR NC ofblk wrts self Hs Hlen Hndw)
      as (self1 & Hrun & Hframe1 & Hnone1 & Hw1).
    { intros wrtblk Hin. apply Hok; [by left | done]. }
    rewrite Hrun. cbn [mbind result_bind rbind].
    assert (Hother : ∀ ofblk', ofblk' ∈ ofs → ofblk'.1.1 ≠ ofblk.1.1).
    { intros ofblk' Hin Heq. apply Hfresh. rewrite <- Heq.
      unfold names. apply list_elem_of_fmap. by exists ofblk'. }
    destruct (IH Hndo self1) as (self' & Hrest & Hframe & Hnone & Hw).
    { intros ofblk' wrtblk Hino Hinw.
      destruct (Hframe1 (ofblk'.1.1, wrtblk.1.1)) as [Hi Hc]; [left; by apply Hother |].
      eapply cell_ok_frame; [exact Hi | exact Hc |]. apply Hok; [by right | done]. }
    exists self'. split; [done |]. split; [|split].
    + intros k Hk. destruct (Hframe k) as [Hi Hc].
      { destruct Hk as [Hk|Hk]; [left | by right].
        intros Hin. apply Hk. unfold names. rewrite fmap_cons. by right. }
      destruct (Hframe1 k) as [Hi1 Hc1].
      { destruct Hk as [Hk|Hk]; [left | by right].
        intros Heq. apply Hk. unfold names. rewrite fmap_cons, <- Heq. by left. }
      split; congruence.
    + intros k Hk. by apply Hnone, Hnone1.
    + intros ofblk' wrtblk m Hino Hinw Hm. apply elem_of_cons in Hino as [->|Hino].
      * destruct (Hw1 wrtblk m Hinw Hm) as (m' & Hm' & Hbw).
        exists m'. split; [| done].
        destruct (Hframe (ofblk.1.1, wrtblk.1.1)) as [Hi _]; [by left |]. by rewrite Hi.
      * apply (Hw ofblk' wrtblk m Hino Hinw).
        destruct (Hframe1 (ofblk'.1.1, wrtblk.1.1)) as [Hi _]; [left; by apply Hother |].
        by rewrite Hi.
Qed.


(** *** A column of the Jacobian after the whole Jacobian *)

(** The index maps of a Jacobian. *)
Definition index_maps (self : Jacobian) : list (string * nat) * option (list string) * list nat :=
  (_col_var_offset self, _col_varnames self, _col2name_ind self).

Lemma bind_Ok_inv {A B} (r : result A) (k : A → result B) (b : B) :
  r ≫= k = Ok b → ∃ a, r = Ok a ∧ k a = Ok b.
Proof. destruct r as [a|e]; [| done]. intros H. by exists a. Qed.

Lemma set_dense_jac_block_maps system jac ofblk self wrtblk self' :
  set_dense_jac_block system jac ofblk self wrtblk = Ok self' →
  index_maps self' = index_maps self.
Proof.
  destruct ofblk as [[of_ start] stop], wrtblk as [[wrt ws] we].
  unfold set_dense_jac_block. case_bool_decide; [| by intros [= <-]].
  unfold get_metadata.
  assert (Hmaps : index_maps (_get_abs_key system self (of_, wrt)).2 = index_maps self).
  { unfold _get_abs_key. destruct (_abs_keys self !! (of_, wrt)); [done |].
    by destruct (any2abs_key system (of_, wrt)). }
  destruct (_get_abs_key system self (of_, wrt)) as [ak self1]. cbn [fst snd] in *.
  intros Hrun.
  apply bind_Ok_inv in Hrun as (subjac & _ & Hrun).
  apply bind_Ok_inv in Hrun as (ak' & _ & Hrun).
  apply bind_Ok_inv in Hrun as (subj & _ & Hrun).
  apply bind_Ok_inv in Hrun as (v & _ & Hrun).
  injection Hrun as <-. by rewrite <- Hmaps.
Qed.

Lemma for_each_keeps {S X T} (f : S → X → result S) (g : S → T) (l : list X) (s s' : S) :
  (∀ s x s', f s x = Ok s' → g s' = g s) →
  for_each f s l = Ok s' → g s' = g s.
Proof.
  intros Hf. revert s; induction l as [|x l IH]; intros s Hrun.
  - by injection Hrun as <-.
  - cbn [for_each] in Hrun. apply bind_Ok_inv in Hrun as (s1 & H1 & Hrun).
    rewrite (IH _ Hrun). by eapply Hf.
Qed.

(** Column [icol] of a 2-D array of [NR] by [NC] entries: [jac[:, icol]]. *)
Definition jac_column (jac : ndarray) (NR NC icol : nat) : list Q :=
  (λ r, default 0%Q (data jac !! (r * NC + icol))) <$> seq 0 NR.

Lemma jac_column_lookup (jac : ndarray) (NR NC icol i : nat) :
  length (data jac) = NR * NC → i < NR → icol < NC →
  jac_column jac NR NC icol !! i = data jac !! (i * NC + icol).
Proof.
  intros Hlen Hi Hc. unfold jac_column.
  rewrite list_lookup_fmap, lookup_seq_lt by done. cbn.
  destruct (lookup_lt_is_Some_2 (data jac) (i * NC + icol)) as [x ->]; [| done].
  rewrite Hlen. nia.
Qed.

(** Writing a column of [jac] with [set_col] over a sub-Jacobian that holds
    the block of [jac] changes nothing. *)
Lemma column_of_block_written (jac : ndarray) (NR NC start stop ws we icol : nat)
    (m m' m'' : subjac_meta) :
  length (data jac) = NR * NC →
  start ≤ stop ≤ NR → ws ≤ icol < we → we ≤ NC →
  wf_cell (stop - start) (we - ws) m →
  block_written jac NC start ws m m' →
  col_written (icol - ws) start (jac_column jac NR NC icol) m' m'' →
  m'' = m'.
Proof.
  intros Hlen Hr Hi Hwe Hwf Hbw Hcw. unfold wf_cell, block_written, col_written in *.
  destruct (cols m) as [cs|] eqn:Hc.
  - destruct Hwf as (rs & d0 & Hrs & Hrl & Hv0 & Hrb & Hcb).
    destruct Hbw as (rs1 & d & d' & Hrs1 & Hv & -> & Hl' & Hent).
    cbn [cols rows val set_val] in Hcw. rewrite Hc in Hcw.
    destruct Hcw as (rs2 & d2 & d'' & Hrs2 & [= <-] & -> & Hl'' & Hent').
    apply set_val_id. cbn [val set_val]. do 2 f_equal.
    assert (rs1 = rs) as -> by congruence. assert (rs2 = rs) as -> by congruence.
    apply list_eq. intros k. rewrite Hent'. case_decide as Hk; [| done].
    destruct (lookup_lt_is_Some_2 rs k) as [r Hrk].
    { rewrite Hrl. by eapply lookup_lt_Some. }
    rewrite Hrk. cbn [mbind option_bind].
    rewrite Forall_lookup in Hrb. pose proof (Hrb k r Hrk) as Hrlt. simpl in Hrlt.
    rewrite jac_column_lookup by (done || lia).
    rewrite (Hent k r (icol - ws) Hrk Hk). f_equal. lia.
  - destruct Hwf as (d0 & Hv0).
    destruct Hbw as (R & C & d & d' & Hv & -> & Hl' & Hent).
    cbn [cols rows val set_val] in Hcw. rewrite Hc in Hcw.
    destruct Hcw as (R2 & C2 & d2 & d'' & [= <- <- <-] & -> & Hl'' & Hent').
    apply set_val_id. cbn [val set_val]. do 2 f_equal.
    assert (R = stop - start ∧ C = we - ws) as [-> ->] by (split; congruence).
    apply list_eq. intros p.
    destruct (decide (p < (stop - start) * (we - ws))) as [Hp|Hp].
    + assert (HC : 0 < we - ws) by lia.
      pose proof (Nat.div_mod_eq p (we - ws)) as Hdm.
      pose proof (Nat.mod_upper_bound p (we - ws) ltac:(lia)) as Hmod.
      assert (Hdiv : p `div` (we - ws) < stop - start)
        by (apply Nat.Div0.div_lt_upper_bound; lia).
      replace p with (p `div` (we - ws) * (we - ws) + p `mod` (we - ws)) by lia.
      rewrite Hent' by done. case_decide as Hloc; [| done].
      rewrite jac_column_lookup by (done || lia).
      rewrite Hent by done. f_equal. lia.
    + rewrite !(proj2 (lookup_ge_None _ _)) by lia. done.
Qed.

(** X19 — on a Jacobian whose index maps are still to be built, after
    [set_dense_jac(system, jac)] the call [set_col(system, icol, jac[:, icol])]
    succeeds for every column [icol] of a column block and changes no
    sub-Jacobian: the two ways of filling the Jacobian agree. *)
Theorem set_col_after_set_dense_jac system self (jac : ndarray) (NR NC : nat)
    (icol j : nat) (wrt : string) (s e : nat) :
  _col_varnames self = None →
  shape jac = [NR; NC] → length (data jac) = NR * NC →
  NoDup (names (_jac_of_iter system)) →
  NoDup (names (_jac_wrt_iter system)) →
  contiguous 0 (_jac_wrt_iter system) →
  (∀ ofblk wrtblk, ofblk ∈ _jac_of_iter system → wrtblk ∈ _jac_wrt_iter system →
     cell_ok system self NR NC ofblk wrtblk) →
  _jac_wrt_iter system !! j = Some (wrt, s, e) →
  s ≤ icol < e →
  ∃ self' self'',
    set_dense_jac system self jac = Ok self'
    ∧ set_col system self' icol (jac_column jac NR NC icol) = Ok self''
    ∧ _subjacs_info self'' = _subjacs_info self'.
Proof.
  intros Hnone Hs Hlen Hndo Hndw Hcont Hok Hj Hicol.
  destruct (setup_index_maps_spec system self j wrt s e icol Hcont Hndw Hj Hicol)
    as (self0 & Hsetup & Hi0 & nms & Hnms & Hind & Hname & Hoff).
  assert (Hc0 : _abs_keys self0 = _abs_keys self).
  { revert Hsetup. unfold _setup_index_maps.
    destruct (last _); [| done]. by intros [= <-]. }
  assert (Hjin : (wrt, s, e) ∈ _jac_wrt_iter system) by (by eapply list_elem_of_lookup_2).
  destruct (set_dense_jac_rows system jac NR NC (_jac_of_iter system)
              (_jac_wrt_iter system) self0 Hs Hlen Hndo Hndw)
    as (self' & Hrun & Hframe & Hnone' & Hw).
  { intros ofblk wrtblk Hino Hinw. eapply cell_ok_frame; [| | by apply Hok].
    - by rewrite Hi0.
    - by rewrite Hc0. }
  assert (Hmaps : index_maps self' = index_maps self0).
  { eapply (for_each_keeps _ index_maps); [| exact Hrun].
    intros s1 ofblk s2. apply for_each_keeps. intros s3 wrtblk s4.
    apply set_dense_jac_block_maps. }
  injection Hmaps as Hm1 Hm2 Hm3.
  set (column := jac_column jac NR NC icol).
  (* what every declared cell of the column block looks like after the call *)
  assert (Hcell : ∀ of_ start stop m',
            (of_, start, stop) ∈ _jac_of_iter system →
            _subjacs_info self' !! (of_, wrt) = Some m' →
            ∃ m, _subjacs_info self !! (of_, wrt) = Some m
              ∧ start ≤ stop ≤ NR ∧ e ≤ NC
              ∧ wf_cell (stop - start) (e - s) m
              ∧ block_written jac NC start s m m').
  { intros of_ start stop m' Hin Hm'.
    destruct (_subjacs_info self !! (of_, wrt)) as [m|] eqn:Hm.
    - destruct (Hok (of_, start, stop) (wrt, s, e) Hin Hjin m Hm) as (Hr & Hc & _ & Hwf).
      cbn [fst snd] in *.
      destruct (Hw (of_, start, stop) (wrt, s, e) m Hin Hjin) as (m1 & Hm1' & Hbw).
      { cbn [fst snd]. by rewrite Hi0. }
      cbn [fst snd] in *. exists m. split; [done |]. split; [done |]. split; [lia |].
      split; [done |]. congruence.
    - rewrite (Hnone' (of_, wrt)) in Hm' by (by rewrite Hi0). done. }
  destruct (for_each_set_col wrt (icol - s) column (_jac_of_iter system)
              (_subjacs_info self') Hndo)
    as (info'' & Hcol & Hframe'' & Hnone'' & Hw'').
  { intros of_ start stop m' Hin Hm'.
    destruct (Hcell of_ start stop m' Hin Hm') as (m & Hm & Hr & He & Hwf & Hbw).
    unfold wf_entry. split.
    { subst column. unfold jac_column. rewrite length_fmap, length_seq. lia. }
    unfold wf_cell, block_written in *. destruct (cols m) as [cs|] eqn:Hc.
    - destruct Hwf as (rs & d0 & Hrs & Hrl & Hv0 & Hrb & Hcb).
      destruct Hbw as (rs1 & d & d' & Hrs1 & Hv & -> & Hl' & Hent).
      cbn [cols rows val set_val]. rewrite Hc.
      exists rs, d'. rewrite Hrs. done.
    - destruct Hwf as (d0 & Hv0).
      destruct Hbw as (R & C & d & d' & Hv & -> & Hl' & Hent).
      cbn [cols val set_val]. rewrite Hc.
      assert (R = stop - start ∧ C = e - s) as [-> ->] by (split; congruence).
      exists (e - s), d'. split; [done |]. split; [done | lia]. }
  exists self', (with_subjacs_info self' info''). split; [| split].
  - unfold set_dense_jac. rewrite Hnone, Hsetup. exact Hrun.
  - unfold set_col. rewrite Hm2, Hnms. cbn [mbind result_bind rbind of_option].
    rewrite Hm2, Hnms, Hm3, Hind. cbn [mbind result_bind rbind of_option].
    rewrite Hname. cbn [mbind result_bind rbind of_option].
    rewrite Hm1, Hoff. cbn [mbind result_bind rbind of_option].
    fold column. rewrite Hcol. done.
  - cbn [_subjacs_info with_subjacs_info]. apply map_eq. intros [of_ wrt'].
    destruct (decide (wrt' = wrt)) as [->|Hne]; [| apply Hframe''; by left].
    destruct (decide (of_ ∈ names (_jac_of_iter system))) as [Hin|Hnin];
      [| apply Hframe''; by right].
    apply list_elem_of_fmap in Hin as ([[of' start] stop] & -> & Hin). cbn [fst].
    destruct (_subjacs_info self' !! (of', wrt)) as [m'|] eqn:Hm';
      [| by apply Hnone''].
    destruct (Hw'' of' start stop m' Hin Hm') as (m'' & Hm'' & Hcw).
    destruct (Hcell of' start stop m' Hin Hm') as (m & Hm & Hr & He & Hwf & Hbw).
    rewrite Hm''. f_equal.
    by eapply (column_of_block_written jac NR NC start stop s e icol m m' m'').
Qed.

Definition demo_full_jac : ndarray :=
  NdArray [2; 5] [1; 2; 3; 4; 5; 6; 7; 8; 9; 10]%Q.


Lemma set_col_after_set_dense_jac_witness :
  ∃ self' self'',
    set_dense_jac demo_system demo_jac demo_full_jac = Ok self'
    ∧ set_col demo_system self' 3 [4; 9]%Q = Ok self''
    ∧ _subjacs_info self'' = _subjacs_info self'.
Proof.
  destruct (set_col_after_set_dense_jac demo_system demo_jac demo_full_jac 2 5
              3 1 "z" 2 5) as (self' & self'' & H1 & H2 & H3).
  - done.
  - reflexivity.
  - reflexivity.
  - by apply (bool_decide_unpack (NoDup _)).
  - by apply (bool_decide_unpack (NoDup _)).
  - simpl. repeat split; lia.
  - intros ofblk wrtblk Ho Hw m Hm.
    apply list_elem_of_singleton in Ho as ->.
    apply elem_of_cons in Hw as [->|Hw]; [| apply list_elem_of_singleton in Hw as ->].
    + vm_compute in Hm. injection Hm as <-. cbn [fst snd].
      split; [lia |]. split; [lia |]. split; [reflexivity |].
      unfold wf_cell. cbn [cols]. by eexists.
    + vm_compute in Hm. injection Hm as <-. cbn [fst snd].
      split; [lia |]. split; [lia |]. split; [reflexivity |].
      unfold wf_cell. cbn [cols]. exists [0; 1; 1], [1; 2; 3]%Q.
      repeat split; repeat constructor.
  - reflexivity.
  - lia.
  - exists self', self''. split; [exact H1 |]. split; [exact H2 | exact H3].
Defined.

End SetDenseJac.

(** ** More of [array_utils]: tiling a sparsity pattern, local offsets *)

Section ArrayUtils3Facts.
Import ArrayUtils2.

Lemma np_tile_lookup {A} (a : list A) (n i k : nat) :
  i < n → k < length a → np_tile a n !! (i * length a + k) = a !! k.
Proof.
  intros Hi Hk. unfold np_tile.
  rewrite (concat_lookup_uniform _ (length a)); [| | done].
  - by rewrite lookup_replicate_2.
  - apply Forall_forall. intros l Hl. by apply elem_of_replicate in Hl as [-> _].
Qed.

Lemma np_tile_length {A} (a : list A) (n : nat) :
  length (np_tile a n) = n * length a.
Proof.
  unfold np_tile. rewrite (concat_length_uniform _ (length a)).
  - by rewrite length_replicate.
  - apply Forall_forall. intros l Hl. by apply elem_of_replicate in Hl as [-> _].
Qed.

Lemma repeat_arange_concat (n k : nat) :
  repeat_arange n k = concat ((λ i, replicate k (Z.of_nat i)) <$> seq 0 n).
Proof.
  unfold repeat_arange. generalize (seq 0 n). intros l.
  induction l as [|x l IH]; [done |]. cbn. by rewrite IH.
Qed.

Lemma repeat_arange_length (n k : nat) : length (repeat_arange n k) = n * k.
Proof.
  rewrite repeat_arange_concat, (concat_length_uniform _ k).
  - by rewrite length_fmap, length_seq.
  - apply Forall_fmap, Forall_forall. intros i _. apply length_replicate.
Qed.

Lemma repeat_arange_lookup (n k i j : nat) :
  i < n → j < k → repeat_arange n k !! (i * k + j) = Some (Z.of_nat i).
Proof.
  intros Hi Hj. rewrite repeat_arange_concat, (concat_lookup_uniform _ k); [| | done].
  - rewrite list_lookup_fmap, lookup_seq_lt by done. cbn.
    by apply lookup_replicate_2.
  - apply Forall_fmap, Forall_forall. intros x _. apply length_replicate.
Qed.

Definition dim_of (n : int_or_shape) : Z :=
  match n with
  | AnInt n => n
  | AShape s => shape_to_len s
  end.

(** X20 — [tile_sparse_jac] for [rows] and [cols] of the same length
    [nnz]: the three results have [num_nodes * nnz] entries; entry [k] of
    copy [i] has the value of entry [k], its row shifted by [i * nrow] and its
    column shifted by [i * ncol]; so an entry that lies in the [nrow] by
    [ncol] block lands in the diagonal block [i], and nothing lands off the
    diagonal.  A scalar [data] stands for [nnz] equal values. *)
Theorem tile_sparse_jac_spec (data : scalar_or_array) (rows cols : list Z)
    (nrow ncol : int_or_shape) (num_nodes : nat) :
  length cols = length rows →
  let nnz := length rows in
  let vals := match data with
              | AScalar q => replicate nnz q
              | AnArray d => d
              end in
  ∃ d r c, tile_sparse_jac data rows cols nrow ncol num_nodes = Ok (d, r, c)
    ∧ length r = num_nodes * nnz ∧ length c = num_nodes * nnz
    ∧ length d = num_nodes * length vals
    ∧ (∀ i k row col,
         i < num_nodes → rows !! k = Some row → cols !! k = Some col →
         r !! (i * nnz + k) = Some (row + Z.of_nat i * dim_of nrow)%Z
         ∧ c !! (i * nnz + k) = Some (col + Z.of_nat i * dim_of ncol)%Z
         ∧ ((0 ≤ row < dim_of nrow)%Z → (0 ≤ col < dim_of ncol)%Z →
            ∀ rr cc, r !! (i * nnz + k) = Some rr → c !! (i * nnz + k) = Some cc →
              (rr `div` dim_of nrow = Z.of_nat i)%Z
              ∧ (cc `div` dim_of ncol = Z.of_nat i)%Z))
    ∧ (length vals = nnz →
       ∀ i k, i < num_nodes → k < nnz →
         ∃ v v', d !! (i * nnz + k) = Some v' ∧ vals !! k = Some v ∧ (v' == v)%Q).
Proof.
  intros Hlen nnz vals. unfold tile_sparse_jac. fold nnz.
  fold (dim_of nrow) (dim_of ncol).
  set (rep := repeat_arange num_nodes nnz).
  assert (Hadd : ∀ (a : list Z) (m : Z), length a = nnz →
            np_add1d (np_tile a num_nodes) ((λ i, i * m)%Z <$> rep)
            = Ok (zip_with Z.add (np_tile a num_nodes) ((λ i, i * m)%Z <$> rep))).
  { intros a m Ha. unfold np_add1d.
    rewrite length_fmap, np_tile_length. subst rep.
    by rewrite repeat_arange_length, Ha, Nat.eqb_refl. }
  rewrite !Hadd by done. cbn [mbind result_bind rbind].
  assert (Hlk : ∀ (a : list Z) (m : Z) i k x, length a = nnz →
            i < num_nodes → a !! k = Some x →
            zip_with Z.add (np_tile a num_nodes) ((λ i, i * m)%Z <$> rep) !! (i * nnz + k)
            = Some (x + Z.of_nat i * m)%Z).
  { intros a m i k x Ha Hi Hk. pose proof (lookup_lt_Some _ _ _ Hk) as Hlt.
    apply lookup_zip_with_Some. exists x, (Z.of_nat i * m)%Z. split; [done |]. split.
    - rewrite <- Ha. by rewrite np_tile_lookup.
    - rewrite list_lookup_fmap. subst rep.
      rewrite repeat_arange_lookup by lia. done. }
  eexists _, _, _. split; [reflexivity |].
  split; [|split; [|split; [|split]]].
  - rewrite length_zip_with, length_fmap, np_tile_length. subst rep.
    rewrite repeat_arange_length. fold nnz. lia.
  - rewrite length_zip_with, length_fmap, np_tile_length. subst rep.
    rewrite repeat_arange_length, Hlen. fold nnz. lia.
  - rewrite np_tile_length. f_equal. subst vals. destruct data as [q|d]; [| done].
    by rewrite length_fmap, !length_replicate.
  - intros i k row col Hi Hr Hc.
    rewrite (Hlk rows (dim_of nrow) i k row eq_refl Hi Hr).
    rewrite (Hlk cols (dim_of ncol) i k col Hlen Hi Hc).
    split; [done |]. split; [done |].
    intros Hrow Hcol rr cc [= <-] [= <-]. split.
    + symmetry. apply (Z.div_unique _ _ _ row); lia.
    + symmetry. apply (Z.div_unique _ _ _ col); lia.
  - intros Hv i k Hi Hk. subst vals. destruct data as [q|d].
    + exists q, (q * 1)%Q. split; [|split].
      * rewrite <- (length_replicate nnz 1%Q) at 1.
        rewrite <- (length_fmap (λ one, q * one)%Q).
        rewrite np_tile_lookup; [| done | by rewrite length_fmap, length_replicate].
        rewrite list_lookup_fmap, lookup_replicate_2 by done. done.
      * by apply lookup_replicate_2.
      * apply Qmult_1_r.
    + destruct (lookup_lt_is_Some_2 d k ltac:(lia)) as [v Hvk].
      exists v, v. split; [| done]. rewrite <- Hv. by rewrite np_tile_lookup by lia.
Qed.

Lemma tile_sparse_jac_spec_witness :
  tile_sparse_jac (AnArray [5; 6]%Q) [0; 1]%Z [1; 0]%Z (AnInt 2) (AShape [3; 1]%Z) 2
  = Ok ([5; 6; 5; 6]%Q, [0; 1; 2; 3]%Z, [1; 0; 4; 3]%Z).
Proof.
  destruct (tile_sparse_jac_spec (AnArray [5; 6]%Q) [0; 1]%Z [1; 0]%Z (AnInt 2)
              (AShape [3; 1]%Z) 2 eq_refl) as (d & r & c & Hrun & _).
  rewrite Hrun. vm_compute in Hrun. by injection Hrun as <- <- <-.
Defined.

Lemma localize_rows (goff : list (list Z)) (first : list Z) :
  goff !! 0 = Some first → 0 < length first →
  localize goff
  = Ok ((λ row : list Z, (λ x, x - default 0 (row !! 0%nat))%Z <$> row) <$> goff).
Proof.
  intros H0 Hlen. unfold localize. rewrite H0. cbn [of_option mbind result_bind rbind].
  by rewrite (proj2 (Nat.ltb_lt _ _) Hlen).
Qed.

(** X21 — [_global2local_offsets]: an array without rows raises
    [IndexError].  Otherwise the result has the same keys in the same order,
    each array keeps its rows' lengths, every row starts at 0 and keeps the
    differences between its entries; and localizing offsets that are already
    local changes nothing. *)
Theorem global2local_offsets_spec (global_offsets : list (string * list (list Z))) :
  (Exists (λ kv, kv.2 = []) global_offsets →
     _global2local_offsets global_offsets = Raise IndexError)
  ∧ (Forall (λ kv, kv.2 ≠ []) global_offsets →
     ∃ offsets, _global2local_offsets global_offsets = Ok offsets
       ∧ offsets.*1 = global_offsets.*1
       ∧ Forall2 (λ kv kv',
            ∀ ncols, Forall (λ row, length row = ncols) kv.2 →
              Forall2 (λ row row',
                 length row' = length row
                 ∧ (∀ x0, row !! 0 = Some x0 → row' !! 0 = Some 0%Z)
                 ∧ (∀ j x0 x, row !! 0 = Some x0 → row !! j = Some x →
                      row' !! j = Some (x - x0)%Z)) kv.2 kv'.2)
            global_offsets offsets
       ∧ (Forall (λ kv, ∃ ncols, Forall (λ row, length row = ncols) kv.2)
                 global_offsets →
          _global2local_offsets offsets = Ok offsets)).
Proof.
  split.
  - induction global_offsets as [|[type_ goff] rest IH]; intros Hex.
    + by apply Exists_nil in Hex.
    + cbn [_global2local_offsets]. apply Exists_cons in Hex as [Hex|Hex].
      * cbn [snd] in Hex. subst goff. done.
      * destruct goff as [|first goff']; [done |]. unfold localize.
        cbn [lookup list_lookup of_option mbind result_bind rbind].
        destruct (0 <? length first); cbn [mbind result_bind rbind]; by rewrite IH.
  - induction global_offsets as [|[type_ goff] rest IH]; intros Hall.
    + exists []. split; [done |]. split; [done |]. split; [constructor | done].
    + apply Forall_cons in Hall as [Hne Hall]. cbn [snd] in Hne.
      destruct (IH Hall) as (offsets & Hrun & Hkeys & Hrows & Hidem).
      cbn [_global2local_offsets].
      destruct goff as [|first goff']; [done |].
      assert (Hloc : ∃ off, localize (first :: goff') = Ok off
                ∧ (∀ ncols, Forall (λ row, length row = ncols) (first :: goff') →
                     Forall2 (λ row row',
                        length row' = length row
                        ∧ (∀ x0, row !! 0 = Some x0 → row' !! 0 = Some 0%Z)
                        ∧ (∀ j x0 x, row !! 0 = Some x0 → row !! j = Some x →
                             row' !! j = Some (x - x0)%Z)) (first :: goff') off
                     ∧ localize off = Ok off)).
      { destruct (decide (0 < length first)) as [Hpos|Hzero].
        - rewrite (localize_rows (first :: goff') first eq_refl Hpos). eexists. split; [reflexivity |].
          intros ncols Hnc. split.
          + apply Forall2_fmap_r, Forall_Forall2_diag, Forall_forall.
            intros row _. unfold compose. rewrite length_fmap. split; [done |]. split.
            * intros x0 Hx0. rewrite list_lookup_fmap, Hx0. cbn. f_equal. lia.
            * intros j x0 x Hx0 Hx. rewrite list_lookup_fmap, Hx, Hx0. done.
          + set (sub := λ row : list Z, (λ x, x - default 0 (row !! 0%nat))%Z <$> row).
            rewrite (localize_rows _ (sub first));
              [| done | unfold sub; by rewrite length_fmap].
            f_equal. rewrite <- list_fmap_compose. apply list_fmap_ext.
            intros i row Hrow. unfold compose, sub.
            rewrite <- list_fmap_compose. apply list_fmap_ext. intros j x Hx.
            unfold compose. rewrite list_lookup_fmap.
            destruct (row !! 0) as [x0|] eqn:Hx0; cbn; lia.
        - assert (Hl0 : length first = 0) by lia.
          unfold localize. cbn [lookup list_lookup of_option mbind result_bind rbind].
          rewrite Hl0. cbn. eexists. split; [reflexivity |].
          intros ncols Hnc. split.
          + apply Forall_Forall2_diag. eapply Forall_impl; [exact Hnc |].
            intros row Hrow. apply Forall_cons in Hnc as [Hf _]. simpl in Hrow, Hf.
            assert (row = []) as -> by (apply length_zero_iff_nil; lia).
            done.
          + cbn [lookup list_lookup of_option mbind result_bind rbind].
            by rewrite Hl0. }
      destruct Hloc as (off & Hoff & Hspec). rewrite Hoff, Hrun.
      cbn [mbind result_bind rbind]. eexists. split; [reflexivity |].
      split; [by rewrite !fmap_cons, Hkeys |]. split.
      * constructor; [| done]. cbn [snd]. intros ncols Hnc.
        by destruct (Hspec ncols Hnc) as [? _].
      * intros Hwf. apply Forall_cons in Hwf as [[ncols Hnc] Hwf]. cbn [snd] in Hnc.
        cbn [_global2local_offsets]. destruct (Hspec ncols Hnc) as [_ ->].
        rewrite (Hidem Hwf). done.
Qed.

Lemma global2local_offsets_spec_witness :
  _global2local_offsets [("input", [[0; 2; 5]; [10; 13; 14]]%Z); ("output", [[4; 6]]%Z)]
  = Ok [("input", [[0; 2; 5]; [0; 3; 4]]%Z); ("output", [[0; 2]]%Z)].
Proof.
  destruct (global2local_offsets_spec
              [("input", [[0; 2; 5]; [10; 13; 14]]%Z); ("output", [[4; 6]]%Z)])
    as [_ H].
  destruct H as (offsets & Hrun & _); [by repeat constructor |].
  rewrite Hrun. vm_compute in Hrun. by injection Hrun as <-.
Defined.

Lemma where_gt1_S (i : nat) (s : list Z) : where_gt1 (S i) s = S <$> where_gt1 i s.
Proof.
  revert i; induction s as [|x s IH]; intros i; [done |].
  cbn [where_gt1]. rewrite fmap_app, IH. by destruct (1 <? x)%Z.
Qed.

Lemma where_gt1_app (i : nat) (s t : list Z) :
  where_gt1 i (s ++ t) = where_gt1 i s ++ where_gt1 (i + length s) t.
Proof.
  revert i; induction s as [|x s IH]; intros i.
  - cbn. by rewrite Nat.add_0_r.
  - cbn [app where_gt1 length]. rewrite IH, <- app_assoc. f_equal.
    by replace (S i + length s) with (i + S (length s)) by lia.
Qed.

Lemma where_gt1_bound (i : nat) (s : list Z) :
  Forall (λ k, i ≤ k < i + length s) (where_gt1 i s).
Proof.
  revert i; induction s as [|x s IH]; intros i; [constructor |].
  cbn [where_gt1 length]. apply Forall_app. split.
  - destruct (1 <? x)%Z; repeat constructor; lia.
  - eapply Forall_impl; [apply IH |]. intros k Hk. simpl in *. lia.
Qed.

Lemma where_gt1_ones (i n : nat) : where_gt1 i (replicate n 1%Z) = [].
Proof. revert i; induction n as [|n IH]; intros i; [done |]. cbn. apply IH. Qed.

Lemma where_gt1_all (i : nat) (s : list Z) :
  Forall (λ x, (1 < x)%Z) s → where_gt1 i s = seq i (length s).
Proof.
  intros Hall. revert i; induction Hall as [|x s Hx _ IH]; intros i; [done |].
  cbn [where_gt1 length seq]. rewrite (proj2 (Z.ltb_lt _ _) Hx), IH. done.
Qed.

Lemma foldr_min_S (y : nat) (k : list nat) :
  foldr Nat.min (S y) (S <$> k) = S (foldr Nat.min y k).
Proof.
  induction k as [|z k IH]; [done |]. rewrite fmap_cons. simpl foldr. rewrite IH. lia.
Qed.

Lemma foldr_max_S (y : nat) (k : list nat) :
  foldr Nat.max (S y) (S <$> k) = S (foldr Nat.max y k).
Proof.
  induction k as [|z k IH]; [done |]. rewrite fmap_cons. simpl foldr. rewrite IH. lia.
Qed.

Lemma np_min_fmap_S (l : list nat) : l ≠ [] → np_min (S <$> l) = S (np_min l).
Proof.
  destruct l as [|x l]; [done |]. intros _. unfold np_min.
  rewrite fmap_cons. cbn [hd]. rewrite <- fmap_cons. apply foldr_min_S.
Qed.

Lemma np_max_fmap_S (l : list nat) : l ≠ [] → np_max (S <$> l) = S (np_max l).
Proof.
  destruct l as [|x l]; [done |]. intros _. unfold np_max.
  rewrite fmap_cons. cbn [hd]. rewrite <- fmap_cons. apply foldr_max_S.
Qed.

Lemma foldr_max_bound (y n : nat) (k : list nat) :
  y < n → Forall (λ j, j < n) k → foldr Nat.max y k < n.
Proof.
  intros Hy Hall. induction Hall as [|z k Hz _ IH]; [done |]. simpl foldr. lia.
Qed.

Lemma foldr_min_le (y : nat) (k : list nat) : foldr Nat.min y k ≤ y.
Proof. induction k as [|z k IH]; [done |]. simpl foldr. lia. Qed.

Lemma np_max_bound (l : list nat) (n : nat) :
  l ≠ [] → Forall (λ k, k < n) l → np_max l < n.
Proof.
  destruct l as [|x l]; [done |]. intros _ Hall. unfold np_max. cbn [hd].
  apply foldr_max_bound; [| done]. by apply Forall_cons in Hall as [? _].
Qed.

Lemma np_min_bound (l : list nat) (n : nat) :
  l ≠ [] → Forall (λ k, k < n) l → np_min l < n.
Proof.
  destruct l as [|x l]; [done |]. intros _ Hall. unfold np_min. cbn [hd].
  apply Forall_cons in Hall as [Hx _].
  eapply Nat.le_lt_trans; [apply foldr_min_le | done].
Qed.

Lemma np_min_seq (n : nat) : np_min (seq 0 (S n)) = 0.
Proof.
  unfold np_min. cbn [seq hd]. pose proof (foldr_min_le 0 (0 :: seq 1 n)). lia.
Qed.

Lemma foldr_max_seq (y a n : nat) : y ≤ a → foldr Nat.max y (seq a (S n)) = a + n.
Proof.
  revert y a; induction n as [|n IH]; intros y a Hy; [cbn; lia |].
  change (seq a (S (S n))) with (a :: seq (S a) (S n)). cbn [foldr].
  rewrite IH by lia. lia.
Qed.

Lemma np_max_seq (n : nat) : np_max (seq 0 (S n)) = n.
Proof.
  unfold np_max. change (hd 0 (seq 0 (S n))) with 0.
  by rewrite (foldr_max_seq 0 0 n).
Qed.

Lemma fundamental_shape_one_l (t : list Z) :
  fundamental_shape (1%Z :: t) = fundamental_shape t.
Proof.
  unfold fundamental_shape. cbn [where_gt1].
  change ((1 <? 1)%Z) with false. cbn [app]. rewrite where_gt1_S, length_fmap.
  destruct (where_gt1 0 t) as [|k nz] eqn:Hnz; [done |].
  cbn [length Nat.ltb Nat.leb]. rewrite <- Hnz.
  rewrite np_min_fmap_S, np_max_fmap_S by (by rewrite Hnz).
  unfold slice. done.
Qed.

Lemma fundamental_shape_ones_l (n : nat) (s : list Z) :
  fundamental_shape (replicate n 1%Z ++ s) = fundamental_shape s.
Proof.
  induction n as [|n IH]; [done |]. cbn [replicate app].
  by rewrite fundamental_shape_one_l.
Qed.

Lemma fundamental_shape_ones_r (n : nat) (s : list Z) :
  fundamental_shape (s ++ replicate n 1%Z) = fundamental_shape s.
Proof.
  unfold fundamental_shape.
  rewrite where_gt1_app, where_gt1_ones, app_nil_r.
  destruct (where_gt1 0 s) as [|k nz] eqn:Hnz; [done |].
  cbn [length Nat.ltb Nat.leb]. rewrite <- Hnz.
  assert (Hb : Forall (λ j, j < length s) (where_gt1 0 s)).
  { eapply Forall_impl; [apply where_gt1_bound |]. intros j Hj. simpl in *. lia. }
  assert (Hmax : np_max (where_gt1 0 s) < length s)
    by (apply np_max_bound; [by rewrite Hnz | done]).
  assert (Hmin : np_min (where_gt1 0 s) < length s)
    by (apply np_min_bound; [by rewrite Hnz | done]).
  unfold slice. rewrite drop_app_le by lia.
  rewrite take_app_le; [done |]. rewrite length_drop. lia.
Qed.

Lemma shape_to_len_fold (a : Z) (s : list Z) : foldl Z.mul a s = (a * shape_to_len s)%Z.
Proof.
  unfold shape_to_len. revert a; induction s as [|x s IH]; intros a; cbn [foldl]; [lia |].
  rewrite IH, (IH (1 * x)%Z). lia.
Qed.

Lemma shape_to_len_ones (n m : nat) (s : list Z) :
  shape_to_len (replicate n 1%Z ++ s ++ replicate m 1%Z) = shape_to_len s.
Proof.
  unfold shape_to_len. rewrite !foldl_app.
  assert (H1 : ∀ k a, foldl Z.mul a (replicate k 1%Z) = a).
  { induction k as [|k IH]; intros a; [done |]. cbn [replicate foldl]. rewrite IH. lia. }
  by rewrite !H1.
Qed.

Lemma forallb_zip_eq (a b : list Z) :
  length a = length b →
  forallb (λ xy : Z * Z, (xy.1 =? xy.2)%Z) (zip a b) = true ↔ a = b.
Proof.
  revert b; induction a as [|x a IH]; intros [|y b] Hlen; try done.
  cbn [zip zip_with forallb fst snd]. rewrite andb_true_iff, Z.eqb_eq.
  fold (zip a b). rewrite IH by (simpl in Hlen; lia). split.
  - by intros [-> ->].
  - by intros [= -> ->].
Qed.


(** The shapes of the docstring's sense that are compatible: a row vector,
    a column vector and a flat vector. *)
Example array_connection_compatible_examples :
  array_connection_compatible [1; 4]%Z [4]%Z = true
  ∧ array_connection_compatible [4; 1]%Z [1; 4]%Z = true
  ∧ array_connection_compatible [2; 3]%Z [3; 2]%Z = false
  ∧ array_connection_compatible []%Z [1; 1]%Z = true.
Proof. repeat split. Qed.

End ArrayUtils3Facts.

(** ** Calling the reductions again *)

Section PetscRepeat.
Import Petsc.

(** What [_get_nodup] relies on: [_dup_inds] is as [_init_dup_inds]
    computes it, and when there is a duplicate the scratch array exists and
    has the length of the data array. *)
Definition ready (system : System) (self : PETScVector) : Prop :=
  _dup_inds self
  = (if 1 <? comm_size system then dups_of (loop_cond system) (ranges self) else [])
  ∧ (_dup_inds self ≠ [] →
     ∃ scratch, _dup_scratch self = Some scratch
                ∧ length scratch = length (asarray self)).

Lemma initialised_ready system self0 self :
  _init_dup_inds system self0 = Ok self → ready system self.
Proof.
  unfold _init_dup_inds, ready. destruct (1 <? comm_size system) eqn:Hsz.
  - destruct (for_each (dup_step system) [] (ranges self0)) as [dups|] eqn:Hfe; [| done].
    cbn [mbind result_bind rbind]. intros [= <-].
    apply for_each_dup_step_inv in Hfe. cbn [app] in Hfe.
    cbn [_dup_inds _dup_scratch]. unfold ranges, asarray. cbn [_views_flat].
    split; [done |]. intros Hne. destruct dups as [|x dups']; [done |].
    cbn [length Nat.ltb Nat.leb].
    destruct (last (ranges_from 0 (_views_flat self0))) as [r|] eqn:Hlast.
    + apply ranges_from_last in Hlast. cbn [Nat.add] in Hlast.
      eexists. split; [done |]. by rewrite length_replicate.
    + apply last_None in Hlast. unfold ranges in Hfe. by rewrite Hlast in Hfe.
  - intros [= <-]. cbn [_dup_inds]. by split.
Qed.

Lemma asarray_zeroed_nodups system views :
  (if 1 <? comm_size system
   then dups_of (loop_cond system) (ranges_from 0 views) else []) = [] →
  concat (views.*2) = zeroed system views.
Proof.
  intros Hd. destruct (1 <? comm_size system) eqn:Hsz.
  - rewrite <- (zero_out_views system 0 views Hsz). rewrite Hd.
    apply list_eq. intros p. rewrite list_lookup_imap.
    rewrite bool_decide_false by apply not_elem_of_nil. by destruct (_ !! p).
  - unfold zeroed, is_dup. rewrite Hsz. cbn [andb].
    induction views as [|[n a] views IH]; [done |].
    rewrite fmap_cons. cbn [concat flat_map snd]. by rewrite IH.
Qed.

Lemma get_nodup_ready system self :
  ready system self →
  ∃ self', _get_nodup self = (Ok (zeroed system (_views_flat self)), self')
    ∧ _views_flat self' = _views_flat self
    ∧ _dup_inds self' = _dup_inds self
    ∧ ready system self'
    ∧ _get_nodup self' = (Ok (zeroed system (_views_flat self)), self').
Proof.
  intros [Hd Hs]. unfold _get_nodup.
  destruct (_dup_inds self) as [|x dups'] eqn:Hdups.
  - cbn [length Nat.ltb Nat.leb]. exists self.
    unfold _get_data, asarray. rewrite Hdups. cbn [length Nat.ltb Nat.leb].
    rewrite (asarray_zeroed_nodups system (_views_flat self)) by done.
    split; [done |]. split; [done |]. split; [done |]. split; [| done].
    split; [by rewrite Hdups | by rewrite Hdups].
  - rewrite <- Hdups in *. destruct Hs as (scratch & Hscr & Hlen); [by rewrite Hdups |].
    assert (Hsz : (1 <? comm_size system) = true).
    { destruct (1 <? comm_size system); [done |]. by rewrite Hdups in Hd. }
    rewrite Hsz in Hd.
    assert (Hpos : (0 <? length (_dup_inds self)) = true) by (by rewrite Hdups).
    rewrite Hpos, Hscr, Hlen, Nat.eqb_refl.
    assert (Hlt : Forall (λ i, i < length (asarray self)) (_dup_inds self)).
    { apply Forall_forall. intros i Hi. rewrite Hd in Hi.
      apply dups_of_bounds in Hi. unfold asarray. lia. }
    assert (Hscat : scatter (asarray self) (_dup_inds self)
                      (replicate (length (_dup_inds self)) 0%Z)
                    = Ok (zeroed system (_views_flat self))).
    { unfold scatter. rewrite forallb_ltb by done. f_equal.
      rewrite <- (zero_out_views system 0 (_views_flat self) Hsz).
      fold (ranges self). rewrite <- Hd.
      apply list_eq. intros p.
      rewrite (scatter_fun_lookup (λ _, Some 0%Z)); [| | done].
      - rewrite list_lookup_imap. cbn [Nat.add]. case_decide as Hp.
        + rewrite bool_decide_true by done.
          rewrite Forall_forall in Hlt. specialize (Hlt p Hp).
          unfold asarray in Hlt.
          by destruct (lookup_lt_is_Some_2 _ _ Hlt) as [y ->].
        + rewrite bool_decide_false by done. unfold asarray. by destruct (_ !! p).
      - apply Forall2_replicate_r; [done |]. by apply Forall_forall. }
    rewrite Hscat. eexists. split; [reflexivity |].
    assert (Ha : ∀ z, asarray (set_scratch self z) = asarray self) by done.
    assert (Hr : ∀ z, ranges (set_scratch self z) = ranges self) by done.
    split; [done |]. split; [done |]. split.
    + unfold ready. rewrite Ha, Hr. cbn [_dup_inds _dup_scratch set_scratch].
      rewrite Hsz. split; [done |]. intros _. eexists. split; [done |].
      unfold asarray. by rewrite zeroed_length.
    + rewrite Ha. cbn [_dup_inds _dup_scratch set_scratch].
      rewrite Hpos, zeroed_length. fold (asarray self).
      by rewrite Nat.eqb_refl, Hscat.
Qed.

(** X23 — over the processes of a communicator, each with its vector set
    up by [_init_dup_inds]: [get_norm()] can be called again on the vectors it
    leaves, with the same result, and the second call changes nothing; the
    scratch array filled by the first call is the one the second call fills
    again, and the duplicate indices are never changed. *)
Theorem get_norm_repeatable (procs : list (System * PETScVector)) :
  Forall initialised procs →
  ∃ r vecs', get_norm (procs.*2) = (Ok r, vecs')
    ∧ get_norm vecs' = (Ok r, vecs')
    ∧ _dup_inds <$> vecs' = _dup_inds <$> procs.*2
    ∧ _views_flat <$> vecs' = _views_flat <$> procs.*2.
Proof.
  intros Hinit.
  assert (H : ∃ locals vecs',
            norm_local <$> procs.*2 = zip (Ok <$> locals) vecs'
            ∧ norm_local <$> vecs' = zip (Ok <$> locals) vecs'
            ∧ length locals = length vecs'
            ∧ _dup_inds <$> vecs' = _dup_inds <$> procs.*2
            ∧ _views_flat <$> vecs' = _views_flat <$> procs.*2).
  { induction Hinit as [|p procs [v0 Hp] _ IH].
    - by exists [], [].
    - destruct IH as (locals & vecs' & H1 & H2 & Hl & Hd & Hv).
      destruct (get_nodup_ready p.1 p.2 (initialised_ready _ _ _ Hp))
        as (v' & Hn & Hviews & Hdups & _ & Hn').
      exists (sum_sq (zeroed p.1 (_views_flat p.2)) :: locals), (v' :: vecs').
      rewrite !fmap_cons. cbn [zip zip_with length].
      unfold norm_local at 1 3. rewrite Hn, Hn'. cbn [mbind result_bind rbind].
      fold (zip (Ok <$> locals) vecs'). rewrite H1, H2, Hl, Hd, Hv, Hviews, Hdups.
      done. }
  destruct H as (locals & vecs' & H1 & H2 & Hl & Hd & Hv).
  assert (Hz1 : (zip (Ok <$> locals) vecs').*1 = (Ok <$> locals : list (result Z)))
    by (apply fst_zip; rewrite length_fmap; lia).
  assert (Hz2 : (zip (Ok <$> locals : list (result Z)) vecs').*2 = vecs')
    by (apply snd_zip; rewrite length_fmap; lia).
  assert (Hc : collect (Ok <$> locals : list (result Z)) = Ok locals).
  { clear. induction locals as [|x l IH]; [done |].
    rewrite fmap_cons. cbn [collect mbind result_bind rbind]. by rewrite IH. }
  exists (sqrt (IZR (allreduce locals))), vecs'.
  unfold get_norm. rewrite H1, H2, Hz1, Hz2, Hc. done.
Qed.

Lemma get_norm_repeatable_witness :
  (get_norm (get_norm (demo_procs.*2)).2).1 = Ok (sqrt 29).
Proof.
  destruct (get_norm_repeatable demo_procs demo_procs_initialised)
    as (r & vecs' & H1 & H2 & _).
  rewrite H1. cbn [snd]. rewrite H2. cbn [fst].
  unfold get_norm in H1. injection H1 as Hr _. rewrite <- Hr. reflexivity.
Defined.

End PetscRepeat.

(** ** The dot product from either side *)

Section PetscDot.
Import Petsc.

(** The variables of a vector and their sizes. *)
Definition layout (v : PETScVector) : list (string * nat) :=
  (λ nv, (nv.1, length nv.2)) <$> _views_flat v.

Lemma sumZ_zip_with_zeros (n : nat) (b : list Z) :
  sumZ (zip_with Z.mul (replicate n 0%Z) b) = 0%Z.
Proof.
  revert b; induction n as [|n IH]; intros [|y b]; try done.
  cbn [replicate zip_with]. rewrite sumZ_cons, IH. lia.
Qed.

Lemma sumZ_zip_with_comm (a b : list Z) :
  sumZ (zip_with Z.mul a b) = sumZ (zip_with Z.mul b a).
Proof.
  revert b; induction a as [|x a IH]; intros [|y b]; try done.
  cbn [zip_with]. rewrite !sumZ_cons, IH. lia.
Qed.

Lemma dotZ_zeroed_sym system (vu vv : list (string * list Z)) :
  (λ nv : string * list Z, (nv.1, length nv.2)) <$> vu
  = (λ nv : string * list Z, (nv.1, length nv.2)) <$> vv →
  dotZ (zeroed system vu) (concat (vv.*2)) = dotZ (zeroed system vv) (concat (vu.*2)).
Proof.
  unfold dotZ, zeroed. revert vv; induction vu as [|[n a] vu IH]; intros [|[n' b] vv] Hl;
    try done.
  rewrite !fmap_cons in Hl. cbn [fst snd] in Hl. injection Hl as -> Hab Hl.
  rewrite !fmap_cons. cbn [flat_map concat fst snd].
  rewrite !zip_with_app
    by (destruct (is_dup system n'); rewrite ?length_replicate; done).
  rewrite !sumZ_app, (IH vv Hl). f_equal.
  destruct (is_dup system n').
  - by rewrite !sumZ_zip_with_zeros.
  - apply sumZ_zip_with_comm.
Qed.

Lemma layout_length (u v : PETScVector) :
  layout u = layout v → length (asarray u) = length (asarray v).
Proof.
  unfold layout, asarray. generalize (_views_flat u) (_views_flat v).
  intros vu. induction vu as [|[n a] vu IH]; intros [|[n' b] vv] Hl; try done.
  rewrite !fmap_cons in Hl. cbn [fst snd] in Hl. injection Hl as _ Hab Hl.
  rewrite !fmap_cons. cbn [concat snd]. rewrite !length_app, Hab. f_equal. by apply IH.
Qed.

(** X24 — over the processes of a communicator, for two vectors [u] and
    [v] of each process that were set up by [_init_dup_inds] for the same
    system and hold the same variables with the same sizes: [u.dot(v)] and
    [v.dot(u)] return the same number, although only the vector on the left
    has its duplicates zeroed. *)
Theorem dot_symmetric (procs : list (System * PETScVector * PETScVector)) :
  Forall (λ t, initialised (t.1.1, t.1.2) ∧ initialised (t.1.1, t.2)
               ∧ layout t.1.2 = layout t.2) procs →
  ∃ n, (dot ((λ t, (t.1.2, t.2)) <$> procs)).1 = Ok n
    ∧ (dot ((λ t, (t.2, t.1.2)) <$> procs)).1 = Ok n.
Proof.
  intros Hall.
  exists (allreduce ((λ t, dotZ (zeroed t.1.1 (_views_flat t.1.2)) (asarray t.2))
                       <$> procs)).
  unfold dot. cbn [fst].
  rewrite <- (list_fmap_compose
                (λ t : System * PETScVector * PETScVector, (t.1.2, t.2)) dot_local).
  rewrite <- (list_fmap_compose
                (λ t : System * PETScVector * PETScVector, (t.2, t.1.2)) dot_local).
  split.
  - rewrite (collect_Ok _ (λ t, dotZ (zeroed t.1.1 (_views_flat t.1.2)) (asarray t.2)));
      [done |].
    eapply Forall_impl; [exact Hall |]. intros [[sys u] v] (Hu & Hv & Hl). cbn [fst snd] in *.
    destruct (dot_local_spec (sys, u) v Hu) as (v' & Hd & _).
    { symmetry. by apply layout_length. }
    unfold compose. cbn [fst snd] in *. by rewrite Hd.
  - rewrite (collect_Ok _ (λ t, dotZ (zeroed t.1.1 (_views_flat t.1.2)) (asarray t.2)));
      [done |].
    eapply Forall_impl; [exact Hall |]. intros [[sys u] v] (Hu & Hv & Hl). cbn [fst snd] in *.
    destruct (dot_local_spec (sys, v) u Hv) as (v' & Hd & _).
    { by apply layout_length. }
    unfold compose. cbn [fst snd] in *. rewrite Hd. cbn [fst]. f_equal.
    unfold asarray. symmetry. apply dotZ_zeroed_sym. exact Hl.
Qed.

Lemma dot_symmetric_witness :
  (dot [(demo_vec 0 3, demo_vec 0 5); (demo_vec 1 4, demo_vec 1 6)]).1 = Ok 43%Z
  ∧ (dot [(demo_vec 0 5, demo_vec 0 3); (demo_vec 1 6, demo_vec 1 4)]).1 = Ok 43%Z.
Proof.
  destruct (dot_symmetric [(demo_comm 0, demo_vec 0 3, demo_vec 0 5);
                           (demo_comm 1, demo_vec 1 4, demo_vec 1 6)])
    as (n & H1 & H2).
  { repeat constructor; try (by eexists (demo_raw _)). }
  cbn [fmap list_fmap fst snd] in H1, H2.
  assert (n = 43%Z) as ->.
  { vm_compute in H1. by injection H1 as <-. }
  split; [exact H1 | exact H2].
Defined.

End PetscDot.

(** ** Perturbing at an index array *)

Section Perturbation.
Import Approx.



End Perturbation.

(** ** Compressing a sparsity pattern: [sparse_subinds] *)

Section SparseSubinds.
Import ArrayUtils2.

(** The number of entries of [l] below [x]. *)
Definition count_below (x : Z) (l : list Z) : nat := length (filter (λ i, (i < x)%Z) l).

Lemma mask_fold (orig inds : list Z) (mask : list bool) :
  length mask = length orig →
  foldl (λ mask i, zip_with orb mask ((λ x, (x =? i)%Z) <$> orig)) mask inds
  = zip_with orb mask ((λ x, bool_decide (x ∈ inds)) <$> orig).
Proof.
  revert mask; induction inds as [|i inds IH]; intros mask Hlen.
  - cbn [foldl]. apply list_eq. intros k. rewrite lookup_zip_with.
    rewrite list_lookup_fmap. destruct (mask !! k) as [b|] eqn:Hb; [| done].
    destruct (lookup_lt_is_Some_2 orig k) as [x Hx].
    { rewrite <- Hlen. by eapply lookup_lt_Some. }
    rewrite Hx. cbn. rewrite bool_decide_false by apply not_elem_of_nil.
    by rewrite orb_false_r.
  - cbn [foldl]. rewrite IH by (rewrite length_zip_with, length_fmap; lia).
    apply list_eq. intros k. rewrite !lookup_zip_with, !list_lookup_fmap.
    destruct (mask !! k) as [b|]; [| done]. destruct (orig !! k) as [x|]; [| done].
    cbn. f_equal. rewrite <- orb_assoc. f_equal.
    destruct (Z.eqb_spec x i) as [->|Hne].
    + cbn [orb]. symmetry. apply bool_decide_eq_true. by left.
    + cbn [orb]. apply bool_decide_ext. rewrite elem_of_cons.
      split; [by right | by intros [?|?]].
Qed.

Lemma mask_select_filter (orig : list Z) (P : Z → Prop) `{∀ x, Decision (P x)} :
  mask_select orig ((λ x, bool_decide (P x)) <$> orig) = filter P orig.
Proof.
  unfold mask_select. induction orig as [|x orig IH]; [done |].
  rewrite fmap_cons. cbn [zip zip_with]. rewrite !filter_cons. cbn [snd].
  fold (zip orig ((λ x, bool_decide (P x)) <$> orig)).
  destruct (decide (P x)) as [HP|HP].
  - rewrite decide_True by (by apply bool_decide_eq_true).
    rewrite fmap_cons. cbn [fst]. by rewrite IH.
  - rewrite decide_False; [done |]. intros Hb. by apply bool_decide_eq_true in Hb.
Qed.

(** The loop that replaces each selected index by its position: positions
    start at [t], and the indices still to be replaced are increasing and at
    least [t]. *)
Lemma replace_fold (T : list Z) (t : nat) (l : list Z) :
  StronglySorted Z.lt T → Forall (λ i, (Z.of_nat t ≤ i)%Z) T →
  foldl (λ newsp ri, (λ x, if (x =? ri.2)%Z then Z.of_nat ri.1 else x) <$> newsp)
        l (imap (λ k i, (t + k, i)) T)
  = (λ x, if decide (x ∈ T) then Z.of_nat (t + count_below x T) else x) <$> l.
Proof.
  revert t l; induction T as [|i T IH]; intros t l Hs Hge.
  - cbn [imap foldl]. rewrite <- (list_fmap_id l) at 1. apply list_fmap_ext.
    intros k x _. by rewrite decide_False by apply not_elem_of_nil.
  - apply StronglySorted_inv in Hs as [Hs Hlt]. apply Forall_cons in Hge as [Hi Hge].
    cbn [imap foldl fst snd].
    rewrite (imap_ext _ (λ k i, (S t + k, i)))
      by (intros; unfold compose; f_equal; lia).
    rewrite IH; [| done |].
    2:{ rewrite Forall_forall in *. intros j Hj. specialize (Hlt j Hj).
        simpl in *. lia. }
    rewrite <- list_fmap_compose. apply list_fmap_ext. intros k x _. unfold compose.
    assert (HiT : i ∉ T).
    { intros Hin. rewrite Forall_forall in Hlt. specialize (Hlt i Hin). lia. }
    assert (HtT : Z.of_nat (t + 0) ∉ T).
    { intros Hin. rewrite Forall_forall in Hlt. specialize (Hlt _ Hin). lia. }
    unfold count_below. rewrite filter_cons.
    destruct (Z.eqb_spec x i) as [->|Hne].
    + rewrite decide_False by done.
      rewrite decide_True by left. rewrite decide_False by lia.
      assert (Hnone : filter (λ j, (j < i)%Z) T = []).
      { clear -Hlt. induction Hlt as [|j T Hj _ IHT]; [done |].
        rewrite filter_cons. by rewrite decide_False by lia. }
      by rewrite Hnone.
    + destruct (decide (x ∈ T)) as [HxT|HxT].
      * rewrite decide_True by (by right).
        rewrite Forall_forall in Hlt. specialize (Hlt x HxT).
        rewrite decide_True by done. cbn [length]. f_equal. lia.
      * rewrite decide_False; [done |]. rewrite elem_of_cons. by intros [?|?].
Qed.

Lemma sorted_lt_of_le (l : list Z) :
  StronglySorted Z.le l → NoDup l → StronglySorted Z.lt l.
Proof.
  induction 1 as [|x l Hs IH Hle]; intros Hnd; [constructor |].
  apply NoDup_cons in Hnd as [Hx Hnd]. constructor; [by apply IH |].
  rewrite Forall_forall in *. intros y Hy. specialize (Hle y Hy).
  assert (x ≠ y) by (by intros ->). lia.
Qed.

(** X26 — [sparse_subinds(orig, inds)] for indices [inds] that are
    distinct and not negative: the mask marks the entries of [orig] that are
    in [inds]; the new indices are those entries, in order, each replaced by
    its compressed index, which is the number of indices of [inds] below it.
    So the result has as many entries as the mask has marks, and each lies in
    [0, len(inds)). *)
Theorem sparse_subinds_spec (orig inds : list Z) :
  NoDup inds → Forall (λ i, (0 ≤ i)%Z) inds →
  (sparse_subinds orig inds).2 = (λ x, bool_decide (x ∈ inds)) <$> orig
  ∧ (sparse_subinds orig inds).1
    = (λ x, Z.of_nat (count_below x inds)) <$> filter (λ x, x ∈ inds) orig
  ∧ Forall (λ r, (0 ≤ r < Z.of_nat (length inds))%Z) (sparse_subinds orig inds).1.
Proof.
  intros Hnd Hnn.
  assert (Hmask : (sparse_subinds orig inds).2 = (λ x, bool_decide (x ∈ inds)) <$> orig).
  { unfold sparse_subinds. cbn [snd]. rewrite mask_fold by apply length_replicate.
    apply list_eq. intros k. rewrite lookup_zip_with, list_lookup_fmap.
    destruct (orig !! k) as [x|] eqn:Hx.
    - rewrite lookup_replicate_2 by (by eapply lookup_lt_Some). done.
    - cbn. by destruct (replicate _ _ !! k). }
  assert (Hperm : np_sort inds ≡ₚ inds) by apply merge_sort_Permutation.
  assert (Hsorted : StronglySorted Z.lt (np_sort inds)).
  { apply sorted_lt_of_le; [apply (StronglySorted_merge_sort Z.le) |].
    by rewrite Hperm. }
  assert (Hcount : ∀ x, count_below x (np_sort inds) = count_below x inds).
  { intros x. unfold count_below. by rewrite Hperm. }
  assert (Hnew : (sparse_subinds orig inds).1
            = (λ x, Z.of_nat (count_below x inds)) <$> filter (λ x, x ∈ inds) orig).
  { unfold sparse_subinds in *. cbn [fst snd] in *. rewrite Hmask.
    rewrite (mask_select_filter orig (λ x, x ∈ inds)).
    rewrite (imap_ext pair (λ k i, (0 + k, i))) by done.
    rewrite replace_fold; [| done |].
    2:{ rewrite Hperm. eapply Forall_impl; [exact Hnn |]. intros i Hi. simpl in *. lia. }
    apply Forall_fmap_ext_1, Forall_forall. intros x Hx.
    apply list_elem_of_filter in Hx as [Hx _].
    rewrite decide_True by (by rewrite Hperm). by rewrite Hcount. }
  split; [done |]. split; [done |]. rewrite Hnew.
  apply Forall_fmap, Forall_forall. intros x Hx. apply list_elem_of_filter in Hx as [Hx _].
  unfold compose, count_below. split; [lia |].
  apply inj_lt. apply (length_filter_lt _ _ x); [done | lia].
Qed.

Lemma sparse_subinds_spec_witness :
  sparse_subinds [7; 2; 9; 4; 2; 7]%Z [7; 2]%Z
  = ([1; 0; 0; 1]%Z, [true; true; false; false; true; true]).
Proof.
  destruct (sparse_subinds_spec [7; 2; 9; 4; 2; 7]%Z [7; 2]%Z) as (H2 & H1 & _).
  - by apply (bool_decide_unpack (NoDup _)).
  - repeat constructor; lia.
  - rewrite (surjective_pairing (sparse_subinds _ _)), H1, H2. reflexivity.
Defined.

(** With a negative index the replacement loop overwrites what it wrote
    before: the precondition cannot be dropped. *)
Example sparse_subinds_negative :
  (sparse_subinds [-1; 0]%Z [-1; 0]%Z).1 = [1; 1]%Z.
Proof. reflexivity. Qed.

End SparseSubinds.

(** ** The variables of the test components *)

Section PartialColorTestFacts.
Import ArrayUtils PartialColorTest.

Lemma var_slices_lookup (prefix : string) (i0 : nat) (start : Z) (sizes : list Z)
    (i : nat) (sz : Z) :
  sizes !! i = Some sz →
  var_slices prefix i0 start sizes !! i
  = Some (prefix +:+ pretty (i0 + i),
          ((start + sumZ (take i sizes))%Z, (start + sumZ (take i sizes) + sz)%Z)).
Proof.
  revert i0 start i; induction sizes as [|x sizes IH]; intros i0 start i Hi; [done |].
  destruct i as [|i].
  - injection Hi as ->. cbn [var_slices lookup list_lookup take sumZ foldr].
    by rewrite Nat.add_0_r, Z.add_0_r.
  - cbn [var_slices lookup list_lookup] in *. rewrite (IH _ _ _ Hi).
    cbn [take]. rewrite sumZ_cons.
    replace (S i0 + i) with (i0 + S i) by lia. do 3 f_equal; lia.
Qed.

Lemma var_slices_length (prefix : string) (i0 : nat) (start : Z) (sizes : list Z) :
  length (var_slices prefix i0 start sizes) = length sizes.
Proof.
  revert i0 start; induction sizes as [|x sizes IH]; intros i0 start; [done |].
  cbn [var_slices length]. by rewrite IH.
Qed.



End PartialColorTestFacts.
